(** * Werkroom: the interactive selection engine

    A shallow embedding of [main.go]: the instance records and the group key
    read from their metadata, the two-level tree of group and instance nodes
    kept by [TreeManager], the filter of [FilterService] and the Bubble Tea
    controller ([model.Update] and its key handlers, [model.View]).

    Conventions.
    - A Go [string] is a byte sequence: Rocq's [string], one [ascii] a byte.
    - A [*TreeNode] is a location in a store of node cells.  A composite
      literal [&TreeNode{...}] allocates at the end of the store, a field
      assignment through a pointer rewrites a cell in place, so two slices
      holding the same pointer see each other's writes.  [nil] is not a
      location: every [*TreeNode] of the program comes from a composite
      literal, and the one function that may return [nil]
      ([getCurrentNode]) returns an [option].  A location that is not
      allocated reads as the zero [TreeNode]; Go has no such read, and the
      theorems that depend on it assume the slice [closed] in the store,
      which [BuildFromVMs] establishes and [Update] preserves.
    - A [*VM] points into the loaded slice, which is never written: a node
      holds the record itself, [None] for [nil].  [RenderNode] on an
      Instance node and [View] in [StateReadyToConnect] read through that
      pointer; where Go would panic on [nil] they read the empty string.
      Every Instance node built by [BuildFromVMs] has its record, and
      [StateReadyToConnect] is entered only with the record of one.
    - Library code ([strings.ToLower], lipgloss styles, the bubbles list,
      the commands run by the Bubble Tea runtime) is taken as a parameter
      through the classes [GoStrings], [Lipgloss] and [Bubbles];
      [strings.Contains], [strings.Split] on a non-empty separator and
      [sort.Strings] act on bytes and are written out. *)

From Stdlib Require Import ZArith Strings.String Strings.Ascii.
From stdpp Require Import base decidable option list gmap fin_maps strings sorting pretty.

Local Open Scope string_scope.
Local Open Scope nat_scope.
Local Open Scope list_scope.

(** ** The Go [strings] and [sort] packages *)

Module strings.

(** [strings.Contains(s, substr)]: [substr] occurs in [s] at some byte
    offset; the empty string occurs everywhere. *)
Fixpoint Contains (s substr : string) : bool :=
  String.prefix substr s ||
  match s with
  | EmptyString => false
  | String _ s' => Contains s' substr
  end.

(** The scan of [strings.Split(s, sep)] for a non-empty [sep]: [cur] is
    the segment being read, [skip] counts the bytes of a separator still
    to be passed over. *)
Fixpoint Split_scan (sep : string) (skip : nat) (cur s : string) : list string :=
  match s with
  | EmptyString => [cur]
  | String c s' =>
      match skip with
      | S k => Split_scan sep k cur s'
      | O =>
          if String.prefix sep s
          then cur :: Split_scan sep (String.length sep - 1) EmptyString s'
          else Split_scan sep O (cur +:+ String c EmptyString) s'
      end
  end.

Definition Split (s sep : string) : list string := Split_scan sep O EmptyString s.

(** [s[:len(s)-1]] *)
Definition dropLast (s : string) : string :=
  String.substring 0 (String.length s - 1) s.

(** [strings.Repeat(s, count)] for [count >= 0]. *)
Fixpoint Repeat (s : string) (count : nat) : string :=
  match count with
  | O => EmptyString
  | S k => s +:+ Repeat s k
  end.

End strings.

Module sort.
(** [sort.Strings(x)]: [x] in increasing order.  Go compares strings byte
    by byte; [String.le] does the same on the unsigned value of each
    [ascii]. *)
Definition Strings (x : list string) : list string := merge_sort String.le x.
End sort.

(** [strings.ToLower] maps Unicode code points; it is a parameter. *)
Class GoStrings := { ToLower : string → string }.

(** ** Domain models *)

Record Project := {
  ProjectID : string;
  ProjectName : string;
  ProjectStatus : string
}.

Record MetadataItem := { Key : string; Value : string }.

Record Metadata := { Items : list MetadataItem }.

(** [Metadata] is a pointer in the source: [None] is [nil]. *)
Record VM := {
  VMName : string;
  VMZone : string;
  VMStatus_ : string;
  VMMetadata : option Metadata
}.

Definition VMStatus := string.
Definition StatusRunning : VMStatus := "RUNNING".
Definition StatusTerminated : VMStatus := "TERMINATED".
Definition StatusProvisioning : VMStatus := "PROVISIONING".
Definition StatusStopping : VMStatus := "STOPPING".

Definition GetAbbreviation (s : VMStatus) : string :=
  if decide (s = StatusRunning) then "R"
  else if decide (s = StatusTerminated) then "T"
  else if decide (s = StatusProvisioning) then "P"
  else if decide (s = StatusStopping) then "S"
  else "?".

(** The inner loop of [GetInstanceGroup]: the part after the first part
    equal to [instanceGroupManagers] that is not the last one. *)
Fixpoint GetInstanceGroup_parts (parts : list string) : option string :=
  match parts with
  | [] => None
  | part :: rest =>
      if decide (part = "instanceGroupManagers") then
        match rest with
        | next :: _ => Some next
        | [] => GetInstanceGroup_parts rest
        end
      else GetInstanceGroup_parts rest
  end.

(** The outer loop of [GetInstanceGroup], over the metadata items. *)
Fixpoint GetInstanceGroup_items (items : list MetadataItem) : string :=
  match items with
  | [] => ""
  | item :: rest =>
      if bool_decide (Key item = "created-by")
         && strings.Contains (Value item) "instanceGroupManagers/"
      then
        match GetInstanceGroup_parts (strings.Split (Value item) "/") with
        | Some g => g
        | None => GetInstanceGroup_items rest
        end
      else GetInstanceGroup_items rest
  end.

Definition GetInstanceGroup (vm : VM) : string :=
  match VMMetadata vm with
  | None => ""
  | Some md => GetInstanceGroup_items (Items md)
  end.

(** ** Tree data structure *)

Inductive NodeType := GroupNode | InstanceNode.

#[global] Instance NodeType_eq_dec : EqDecision NodeType.
Proof. solve_decision. Defined.

(** A [*TreeNode]. *)
Abbreviation loc := nat (only parsing).

(** [VM] is a [*VM] into the loaded slice, which is never written after the
    load: the cell holds the record, [None] for [nil]. *)
Record TreeNode := {
  Type_ : NodeType;
  Name : string;
  VM_ : option VM;
  GroupName : string;
  IsExpanded : bool;
  Children : list loc;
  Depth : Z
}.

(** The zero value of [TreeNode] ([GroupNode] is [iota = 0]). *)
Definition TreeNode_zero : TreeNode :=
  {| Type_ := GroupNode; Name := ""; VM_ := None; GroupName := "";
     IsExpanded := false; Children := []; Depth := 0%Z |}.

#[global] Instance TreeNode_inhabited : Inhabited TreeNode := populate TreeNode_zero.

(** The node cells allocated so far; a location is an index into it. *)
Abbreviation store := (list TreeNode) (only parsing).

(** [&TreeNode{...}] *)
Definition alloc (n : TreeNode) (h : store) : loc * store :=
  (length h, h ++ [n]).

(** [node.IsExpanded = !node.IsExpanded] *)
Definition flipExpanded (n : TreeNode) : TreeNode :=
  {| Type_ := Type_ n; Name := Name n; VM_ := VM_ n; GroupName := GroupName n;
     IsExpanded := negb (IsExpanded n); Children := Children n; Depth := Depth n |}.

(** [node.Children = append(node.Children, c)] *)
Definition appendChild (c : loc) (n : TreeNode) : TreeNode :=
  {| Type_ := Type_ n; Name := Name n; VM_ := VM_ n; GroupName := GroupName n;
     IsExpanded := IsExpanded n; Children := Children n ++ [c]; Depth := Depth n |}.

(** Every pointer of [nodes], and every child pointer of the nodes they
    point to, is allocated in [h]. *)
Definition closed (h : store) (nodes : list loc) : Prop :=
  Forall (λ p, p < length h ∧ Forall (λ c, c < length h) (Children (h !!! p))) nodes.

#[global] Instance closed_dec h nodes : Decision (closed h nodes).
Proof. unfold closed. apply _. Defined.

(** The cells behind a slice of pointers. *)
Definition cells (h : store) (ps : list loc) : list TreeNode := (λ p, h !!! p) <$> ps.

(** [lipgloss.Style] and its [Render] are presentation only. *)
Class Lipgloss := {
  Style : Type;
  Render : Style → string → string
}.

Section Tree.
Context `{GoStrings} `{Lipgloss}.

Record Styles := {
  sTitle : Style; sItem : Style; sSelectedItem : Style; sPagination : Style;
  sHelp : Style; sQuitText : Style; sNoItems : Style; sFilter : Style;
  sRunning : Style; sTerminated : Style; sProvisioning : Style; sStopping : Style;
  sGroup : Style; sExpanded : Style; sCollapsed : Style
}.

Definition GetStyle (s : VMStatus) (styles : Styles) : Style :=
  if decide (s = StatusRunning) then sRunning styles
  else if decide (s = StatusTerminated) then sTerminated styles
  else if decide (s = StatusProvisioning) then sProvisioning styles
  else if decide (s = StatusStopping) then sStopping styles
  else sItem styles.

Record TreeManager := { nodes : list loc; styles : Styles }.

Definition NewTreeManager (styles : Styles) : TreeManager :=
  {| nodes := []; styles := styles |}.

(** [tm.nodes = v] *)
Definition set_nodes (v : list loc) (tm : TreeManager) : TreeManager :=
  {| nodes := v; styles := styles tm |}.

(** *** BuildFromVMs *)

(** First loop: [groups[groupName] = append(groups[groupName], vm)] or
    [ungrouped = append(ungrouped, vm)]. *)
Definition BuildFromVMs_partition (vms : list VM) : gmap string (list VM) * list VM :=
  foldl (λ '(groups, ungrouped) vm,
           let groupName := GetInstanceGroup vm in
           if decide (groupName ≠ "")
           then (<[groupName := default [] (groups !! groupName) ++ [vm]]> groups, ungrouped)
           else (groups, ungrouped ++ [vm]))
        (∅, []) vms.

(** [for groupName := range groups] followed by [sort.Strings]. *)
Definition BuildFromVMs_groupNames (groups : gmap string (list VM)) : list string :=
  sort.Strings (fst <$> map_to_list groups).

(** [for _, vm := range groups[groupName]]: allocate the instance node
    and append it to the children of the group node at [g]. *)
Fixpoint BuildFromVMs_children (g : loc) (groupName : string) (vms : list VM)
    (h : store) : store :=
  match vms with
  | [] => h
  | vm :: rest =>
      let '(instanceNode, h1) :=
        alloc {| Type_ := InstanceNode; Name := VMName vm; VM_ := Some vm;
                 GroupName := groupName; IsExpanded := false; Children := [];
                 Depth := 1%Z |} h in
      BuildFromVMs_children g groupName rest (alter (appendChild instanceNode) g h1)
  end.

(** [for _, groupName := range groupNames] *)
Fixpoint BuildFromVMs_groups (groups : gmap string (list VM)) (groupNames : list string)
    (nodes : list loc) (h : store) : list loc * store :=
  match groupNames with
  | [] => (nodes, h)
  | groupName :: rest =>
      let '(groupNode, h1) :=
        alloc {| Type_ := GroupNode; Name := groupName; VM_ := None;
                 GroupName := groupName; IsExpanded := false; Children := [];
                 Depth := 0%Z |} h in
      let h2 := BuildFromVMs_children groupNode groupName
                  (default [] (groups !! groupName)) h1 in
      BuildFromVMs_groups groups rest (nodes ++ [groupNode]) h2
  end.

(** [for _, vm := range ungrouped] *)
Fixpoint BuildFromVMs_ungrouped (ungrouped : list VM) (nodes : list loc) (h : store)
    : list loc * store :=
  match ungrouped with
  | [] => (nodes, h)
  | vm :: rest =>
      let '(instanceNode, h1) :=
        alloc {| Type_ := InstanceNode; Name := VMName vm; VM_ := Some vm;
                 GroupName := ""; IsExpanded := false; Children := [];
                 Depth := 0%Z |} h in
      BuildFromVMs_ungrouped rest (nodes ++ [instanceNode]) h1
  end.

Definition BuildFromVMs (vms : list VM) (tm : TreeManager) (h : store)
    : TreeManager * store :=
  let '(groups, ungrouped) := BuildFromVMs_partition vms in
  let groupNames := BuildFromVMs_groupNames groups in
  let '(nodes1, h1) := BuildFromVMs_groups groups groupNames [] h in
  let '(nodes2, h2) := BuildFromVMs_ungrouped ungrouped nodes1 h1 in
  (set_nodes nodes2 tm, h2).

Definition GetNodes (tm : TreeManager) : list loc := nodes tm.

(** *** FlattenForDisplay *)

Definition FlattenForDisplay (tm : TreeManager) (h : store) : list loc :=
  foldl (λ result node,
           let result := result ++ [node] in
           if bool_decide (Type_ (h !!! node) = GroupNode) && IsExpanded (h !!! node)
           then result ++ Children (h !!! node)
           else result)
        [] (nodes tm).

(** *** ToggleNode *)

(** The loop of [ToggleNode]; it stops at the first hit. *)
Fixpoint ToggleNode_loop (targetName : string) (nodes : list loc) (h : store) : store :=
  match nodes with
  | [] => h
  | node :: rest =>
      if bool_decide (Type_ (h !!! node) = GroupNode)
         && bool_decide (Name (h !!! node) = targetName)
      then alter flipExpanded node h
      else ToggleNode_loop targetName rest h
  end.

Definition ToggleNode (tm : TreeManager) (targetNode : loc) (h : store) : store :=
  if decide (Type_ (h !!! targetNode) ≠ GroupNode) then h
  else ToggleNode_loop (Name (h !!! targetNode)) (nodes tm) h.

(** *** RenderNode *)

Definition RenderNode (tm : TreeManager) (h : store) (node : loc) : string :=
  let n := h !!! node in
  let indent := strings.Repeat "  " (Z.to_nat (Depth n)) in
  if decide (Type_ n = GroupNode) then
    let '(icon, style) :=
      if IsExpanded n then ("▼", sExpanded (styles tm))
      else ("▶", sCollapsed (styles tm)) in
    indent +:+ Render style icon +:+ " " +:+ Render (sGroup (styles tm)) (Name n)
      +:+ " (" +:+ pretty (Z.of_nat (length (Children n))) +:+ " instances)"
  else
    let status : VMStatus := from_option VMStatus_ "" (VM_ n) in
    let coloredStatus :=
      Render (GetStyle status (styles tm)) ("[" +:+ GetAbbreviation status +:+ "]") in
    indent +:+ coloredStatus +:+ " " +:+ Name n.

(** *** Filtering service *)

(** The loop collecting [matchingChildren]. *)
Definition Filter_matchingChildren (filterLower : string) (children : list loc)
    (h : store) : list loc :=
  foldl (λ matchingChildren child,
           if strings.Contains (ToLower (Name (h !!! child))) filterLower
           then matchingChildren ++ [child]
           else matchingChildren)
        [] children.

(** The loop of [Filter] over the top-level nodes; [filtered] is the slice
    built so far. *)
Fixpoint Filter_loop (filterLower : string) (nodes : list loc) (filtered : list loc)
    (h : store) : list loc * store :=
  match nodes with
  | [] => (filtered, h)
  | node :: rest =>
      let n := h !!! node in
      if decide (Type_ n = GroupNode) then
        if strings.Contains (ToLower (Name n)) filterLower then
          let '(filteredGroup, h1) :=
            alloc {| Type_ := GroupNode; Name := Name n; VM_ := None;
                     GroupName := GroupName n; IsExpanded := true;
                     Children := Children n; Depth := Depth n |} h in
          Filter_loop filterLower rest (filtered ++ [filteredGroup]) h1
        else
          let matchingChildren := Filter_matchingChildren filterLower (Children n) h in
          if decide (0 < length matchingChildren) then
            let '(filteredGroup, h1) :=
              alloc {| Type_ := GroupNode; Name := Name n; VM_ := None;
                       GroupName := GroupName n; IsExpanded := true;
                       Children := matchingChildren; Depth := Depth n |} h in
            Filter_loop filterLower rest (filtered ++ [filteredGroup]) h1
          else Filter_loop filterLower rest filtered h
      else
        if strings.Contains (ToLower (Name n)) filterLower
        then Filter_loop filterLower rest (filtered ++ [node]) h
        else Filter_loop filterLower rest filtered h
  end.

Definition Filter (nodes : list loc) (filterText : string) (h : store)
    : list loc * store :=
  if decide (filterText = "") then (nodes, h)
  else Filter_loop (ToLower filterText) nodes [] h.

End Tree.

(** ** Messages, commands and application state *)

(** A Go [error]: [None] is [nil], [Some s] an error whose text is [s]. *)
Definition error := option string.

(** [tea.Msg], by the cases [Update] tells apart.  A [tea.KeyMsg] is known
    by its [String()]. *)
Inductive Msg :=
| WindowSizeMsg (Width Height : Z)
| KeyMsg (keypress : string)
| ProjectsLoadedMsg (Projects : list Project)
| VMsLoadedMsg (VMs : list VM)
| ErrorMsg (Err : error)
| otherMsg.

Inductive AppState :=
| StateLoadingProjects
| StateSelectingProject
| StateLoadingVMs
| StateSelectingVM
| StateReadyToConnect
| StateQuitting.

#[global] Instance AppState_eq_dec : EqDecision AppState.
Proof. solve_decision. Defined.

(** [list.Item] values of the program are [item] strings. *)
Definition item := string.

(** The bubbles list ([list.Model]) as the program uses it, and the styles
    built by [NewStyles()].  [list_New] stands for [list.New] with the
    program's delegate and the presentation settings that follow it in
    [newModel]; [list_Update] is only ever handed a navigation key. *)
Class Bubbles `{Lipgloss} := {
  NewStyles : Styles;
  list_Model : Type;
  list_Cmd : Type;
  list_New : list item → Z → Z → list_Model;
  list_SetItems : list item → list_Model → list_Model;
  list_SetTitle : string → list_Model → list_Model;
  list_SetWidth : Z → list_Model → list_Model;
  list_SetHeight : Z → list_Model → list_Model;
  list_Index : list_Model → Z;
  list_SelectedItem : list_Model → option item;
  list_Update : string → list_Model → list_Model * list_Cmd;
  list_View : list_Model → string
}.

Definition DefaultWidth : Z := 20.
Definition DefaultHeight : Z := 14.
Definition MinHeight : Z := 5.
Definition UIOverhead : Z := 7.

(** The line feed of Go's ["\n"]. *)
Definition LF : string := String "010"%char EmptyString.

(** [isValidFilterChar] *)
Definition isValidFilterChar (c : ascii) : bool :=
  ((("a" <=? c) && (c <=? "z")) || (("A" <=? c) && (c <=? "Z"))
   || (("0" <=? c) && (c <=? "9")) || (c =? "-") || (c =? "_") || (c =? " "))%char.

Section Controller.
Context `{GoStrings} `{Lipgloss} `{!Bubbles}.

(** [tea.Cmd], by the commands the program returns: [nil], [tea.Quit], the
    two loads of [GCPService], and what the list hands back. *)
Inductive Cmd :=
| Cmd_nil
| tea_Quit
| LoadProjects
| LoadVMs (project : string)
| list_cmd (c : list_Cmd).

(** The Bubble Tea model.  [treeManager] is a pointer in the source: the
    model is threaded through [Update], so the manager is held by value
    and [heap] holds the node cells its pointers (and those of
    [currentlyDisplayedNodes]) refer to. *)
Record model := {
  state : AppState;
  quitting : bool;
  treeManager : TreeManager;
  heap : store;
  mstyles : Styles;
  projects : list Project;
  selectedProject : string;
  selectedVM : option VM;
  err : error;
  list_ : list_Model;
  currentlyDisplayedNodes : list loc;
  filtering : bool;
  filterText : string
}.

(** Field assignments [m.f = v]. *)
Definition set_state (v : AppState) (m : model) : model :=
  {| state := v; quitting := quitting m; treeManager := treeManager m; heap := heap m;
     mstyles := mstyles m; projects := projects m;
     selectedProject := selectedProject m; selectedVM := selectedVM m; err := err m;
     list_ := list_ m; currentlyDisplayedNodes := currentlyDisplayedNodes m;
     filtering := filtering m; filterText := filterText m |}.

Definition set_quitting (v : bool) (m : model) : model :=
  {| state := state m; quitting := v; treeManager := treeManager m; heap := heap m;
     mstyles := mstyles m; projects := projects m;
     selectedProject := selectedProject m; selectedVM := selectedVM m; err := err m;
     list_ := list_ m; currentlyDisplayedNodes := currentlyDisplayedNodes m;
     filtering := filtering m; filterText := filterText m |}.

Definition set_treeManager (v : TreeManager) (m : model) : model :=
  {| state := state m; quitting := quitting m; treeManager := v; heap := heap m;
     mstyles := mstyles m; projects := projects m;
     selectedProject := selectedProject m; selectedVM := selectedVM m; err := err m;
     list_ := list_ m; currentlyDisplayedNodes := currentlyDisplayedNodes m;
     filtering := filtering m; filterText := filterText m |}.

Definition set_heap (v : store) (m : model) : model :=
  {| state := state m; quitting := quitting m; treeManager := treeManager m; heap := v;
     mstyles := mstyles m; projects := projects m;
     selectedProject := selectedProject m; selectedVM := selectedVM m; err := err m;
     list_ := list_ m; currentlyDisplayedNodes := currentlyDisplayedNodes m;
     filtering := filtering m; filterText := filterText m |}.

Definition set_projects (v : list Project) (m : model) : model :=
  {| state := state m; quitting := quitting m; treeManager := treeManager m;
     heap := heap m; mstyles := mstyles m; projects := v;
     selectedProject := selectedProject m; selectedVM := selectedVM m; err := err m;
     list_ := list_ m; currentlyDisplayedNodes := currentlyDisplayedNodes m;
     filtering := filtering m; filterText := filterText m |}.

Definition set_selectedProject (v : string) (m : model) : model :=
  {| state := state m; quitting := quitting m; treeManager := treeManager m;
     heap := heap m; mstyles := mstyles m; projects := projects m;
     selectedProject := v; selectedVM := selectedVM m; err := err m; list_ := list_ m;
     currentlyDisplayedNodes := currentlyDisplayedNodes m; filtering := filtering m;
     filterText := filterText m |}.

Definition set_selectedVM (v : option VM) (m : model) : model :=
  {| state := state m; quitting := quitting m; treeManager := treeManager m;
     heap := heap m; mstyles := mstyles m; projects := projects m;
     selectedProject := selectedProject m; selectedVM := v; err := err m;
     list_ := list_ m; currentlyDisplayedNodes := currentlyDisplayedNodes m;
     filtering := filtering m; filterText := filterText m |}.

Definition set_err (v : error) (m : model) : model :=
  {| state := state m; quitting := quitting m; treeManager := treeManager m;
     heap := heap m; mstyles := mstyles m; projects := projects m;
     selectedProject := selectedProject m; selectedVM := selectedVM m; err := v;
     list_ := list_ m; currentlyDisplayedNodes := currentlyDisplayedNodes m;
     filtering := filtering m; filterText := filterText m |}.

Definition set_list (v : list_Model) (m : model) : model :=
  {| state := state m; quitting := quitting m; treeManager := treeManager m;
     heap := heap m; mstyles := mstyles m; projects := projects m;
     selectedProject := selectedProject m; selectedVM := selectedVM m; err := err m;
     list_ := v; currentlyDisplayedNodes := currentlyDisplayedNodes m;
     filtering := filtering m; filterText := filterText m |}.

Definition set_currentlyDisplayedNodes (v : list loc) (m : model) : model :=
  {| state := state m; quitting := quitting m; treeManager := treeManager m;
     heap := heap m; mstyles := mstyles m; projects := projects m;
     selectedProject := selectedProject m; selectedVM := selectedVM m; err := err m;
     list_ := list_ m; currentlyDisplayedNodes := v; filtering := filtering m;
     filterText := filterText m |}.

Definition set_filtering (v : bool) (m : model) : model :=
  {| state := state m; quitting := quitting m; treeManager := treeManager m;
     heap := heap m; mstyles := mstyles m; projects := projects m;
     selectedProject := selectedProject m; selectedVM := selectedVM m; err := err m;
     list_ := list_ m; currentlyDisplayedNodes := currentlyDisplayedNodes m;
     filtering := v; filterText := filterText m |}.

Definition set_filterText (v : string) (m : model) : model :=
  {| state := state m; quitting := quitting m; treeManager := treeManager m;
     heap := heap m; mstyles := mstyles m; projects := projects m;
     selectedProject := selectedProject m; selectedVM := selectedVM m; err := err m;
     list_ := list_ m; currentlyDisplayedNodes := currentlyDisplayedNodes m;
     filtering := filtering m; filterText := v |}.


(** [fmt.Sprintf("%s (%s)", project.ProjectID, project.Name)] for each project. *)
Definition projectItems (projects : list Project) : list item :=
  (λ project, ProjectID project +:+ " (" +:+ ProjectName project +:+ ")") <$> projects.

Definition newModel (project : string) : model :=
  let styles := NewStyles in
  let treeManager := NewTreeManager styles in
  let '(state, title) :=
    if decide (project ≠ "") then (StateLoadingVMs, "Loading VMs...")
    else (StateLoadingProjects, "Loading GCP Projects...") in
  let l := list_SetTitle title (list_New [] DefaultWidth DefaultHeight) in
  {| state := state; quitting := false; treeManager := treeManager; heap := [];
     mstyles := styles; projects := []; selectedProject := project;
     selectedVM := None; err := None; list_ := l; currentlyDisplayedNodes := [];
     filtering := false; filterText := "" |}.

Definition getCurrentNode (m : model) : option loc :=
  let index := list_Index (list_ m) in
  if bool_decide (index < 0)%Z || bool_decide (length (currentlyDisplayedNodes m) = 0)
  then None
  else if bool_decide (Z.of_nat (length (currentlyDisplayedNodes m)) ≤ index)%Z
  then None
  else currentlyDisplayedNodes m !! Z.to_nat index.

Definition updateVMList (m : model) : model :=
  let '(nodesToShow, h) :=
    if filtering m && bool_decide (filterText m ≠ "")
    then Filter (GetNodes (treeManager m)) (filterText m) (heap m)
    else (GetNodes (treeManager m), heap m) in
  let flatNodes :=
    FlattenForDisplay (set_nodes nodesToShow (treeManager m)) h in
  let items := RenderNode (treeManager m) h <$> flatNodes in
  let baseTitle :=
    "Sunrise Parabellum" +:+ LF +:+ "Select VM from project: " +:+ selectedProject m in
  let title :=
    if filtering m
    then baseTitle +:+ LF +:+ Render (sFilter (mstyles m)) "Filter:" +:+ " " +:+ filterText m
    else baseTitle in
  set_list (list_SetTitle title (list_SetItems items (list_ m)))
    (set_currentlyDisplayedNodes flatNodes (set_heap h m)).

Definition Init (m : model) : Cmd :=
  if bool_decide (selectedProject m ≠ "") && bool_decide (state m = StateLoadingVMs)
  then LoadVMs (selectedProject m)
  else if decide (state m = StateLoadingProjects) then LoadProjects
  else Cmd_nil.

Definition shouldHandleNavigation (m : model) (keypress : string) : bool :=
  if bool_decide (state m ≠ StateSelectingProject) && bool_decide (state m ≠ StateSelectingVM)
  then false
  else bool_decide (keypress ∈ ["up"; "k"; "down"; "j"; "pgup"; "pgdown"; "home"; "end"]).

(** The loop of [handleFilteringInput] that finds and toggles the original
    node in the tree manager. *)
Fixpoint handleFilteringInput_toggle (currentName : string) (nodes : list loc)
    (h : store) : store :=
  match nodes with
  | [] => h
  | originalNode :: rest =>
      if bool_decide (Type_ (h !!! originalNode) = GroupNode)
         && bool_decide (Name (h !!! originalNode) = currentName)
      then alter flipExpanded originalNode h
      else handleFilteringInput_toggle currentName rest h
  end.

Definition handleFilteringInput (m : model) (keypress : string) : model * Cmd :=
  if decide (keypress = "esc") then
    (updateVMList (set_filterText "" (set_filtering false m)), Cmd_nil)
  else if decide (keypress = "backspace" ∨ keypress = "ctrl+h") then
    if decide (0 < String.length (filterText m))
    then (updateVMList (set_filterText (strings.dropLast (filterText m)) m), Cmd_nil)
    else (m, Cmd_nil)
  else if decide (keypress = "enter") then
    match getCurrentNode m with
    | Some currentNode =>
        let n := heap m !!! currentNode in
        if decide (Type_ n = InstanceNode) then
          (set_state StateReadyToConnect (set_selectedVM (VM_ n) m), tea_Quit)
        else
          let h := handleFilteringInput_toggle (Name n) (GetNodes (treeManager m)) (heap m) in
          (updateVMList (set_heap h m), Cmd_nil)
    | None => (m, Cmd_nil)
    end
  else
    match keypress with
    | String c EmptyString =>
        if isValidFilterChar c
        then (updateVMList (set_filterText (filterText m +:+ keypress) m), Cmd_nil)
        else (m, Cmd_nil)
    | _ => (m, Cmd_nil)
    end.

Definition handleEnterOnVM (m : model) : model * Cmd :=
  match getCurrentNode m with
  | None => (m, Cmd_nil)
  | Some currentNode =>
      let n := heap m !!! currentNode in
      if decide (Type_ n = GroupNode) then
        (updateVMList (set_heap (ToggleNode (treeManager m) currentNode (heap m)) m), Cmd_nil)
      else
        (set_state StateReadyToConnect (set_selectedVM (VM_ n) m), tea_Quit)
  end.

Definition goBackToProjectSelection (m : model) : model * Cmd :=
  let l := list_SetTitle "Select GCP Project"
             (list_SetItems (projectItems (projects m)) (list_ m)) in
  (set_currentlyDisplayedNodes [] (set_state StateSelectingProject (set_list l m)), Cmd_nil).

(** The guarded toggles of [right], [left] and [space]: [want] is the test
    on the current group node. *)
Definition handleVMSelection_toggle (want : TreeNode → bool) (m : model) : model * Cmd :=
  match getCurrentNode m with
  | Some currentNode =>
      if bool_decide (Type_ (heap m !!! currentNode) = GroupNode)
         && want (heap m !!! currentNode)
      then (updateVMList (set_heap (ToggleNode (treeManager m) currentNode (heap m)) m),
            Cmd_nil)
      else (m, Cmd_nil)
  | None => (m, Cmd_nil)
  end.

Definition handleVMSelection (m : model) (keypress : string) : model * Cmd :=
  if decide (keypress = "right") then
    handleVMSelection_toggle (λ n, negb (IsExpanded n)) m
  else if decide (keypress = "left") then
    handleVMSelection_toggle (λ n, IsExpanded n) m
  else if decide (keypress = "space") then
    handleVMSelection_toggle (λ _, true) m
  else if decide (keypress = "enter") then handleEnterOnVM m
  else if decide (keypress = "/") then
    if negb (filtering m)
    then (updateVMList (set_filterText "" (set_filtering true m)), Cmd_nil)
    else (m, Cmd_nil)
  else if decide (keypress = "esc") then goBackToProjectSelection m
  else if decide (keypress = "q") then (set_quitting true m, tea_Quit)
  else (m, Cmd_nil).

Definition handleGlobalKeys (m : model) (keypress : string) : model * Cmd :=
  if decide (keypress = "ctrl+c") then (set_quitting true m, tea_Quit)
  else if decide (keypress = "q") then
    if bool_decide (state m = StateSelectingProject)
       || bool_decide (state m = StateLoadingProjects)
    then (set_quitting true m, tea_Quit)
    else (m, Cmd_nil)
  else if decide (keypress = "enter") then
    if decide (state m = StateSelectingProject) then
      match list_SelectedItem (list_ m) with
      | Some projectDisplay =>
          let projectID := default "" (strings.Split projectDisplay " (" !! 0) in
          let m := set_selectedProject projectID m in
          let m := set_state StateLoadingVMs m in
          let m := set_list (list_SetTitle "Loading VMs..." (list_ m)) m in
          (m, LoadVMs (selectedProject m))
      | None => (m, Cmd_nil)
      end
    else (m, Cmd_nil)
  else (m, Cmd_nil).

Definition handleKeyPress (m : model) (keypress : string) : model * Cmd :=
  if bool_decide (state m = StateSelectingVM) && filtering m
  then handleFilteringInput m keypress
  else if decide (state m = StateSelectingVM) then handleVMSelection m keypress
  else handleGlobalKeys m keypress.

Definition Update (m : model) (msg : Msg) : model * Cmd :=
  match msg with
  | WindowSizeMsg Width Height =>
      let availableHeight := (Height - UIOverhead)%Z in
      let availableHeight :=
        if bool_decide (availableHeight < MinHeight)%Z then MinHeight else availableHeight in
      (set_list (list_SetHeight availableHeight (list_SetWidth Width (list_ m))) m, Cmd_nil)
  | KeyMsg keypress =>
      if shouldHandleNavigation m keypress then
        let '(l, cmd) := list_Update keypress (list_ m) in
        (set_list l m, list_cmd cmd)
      else handleKeyPress m keypress
  | ProjectsLoadedMsg Projects =>
      let m := set_projects Projects m in
      let m := set_state StateSelectingProject m in
      let l := list_SetTitle "Select GCP Project"
                 (list_SetItems (projectItems (projects m)) (list_ m)) in
      (set_list l m, Cmd_nil)
  | VMsLoadedMsg VMs =>
      let m := set_state StateSelectingVM m in
      let m := set_filtering false m in
      let m := set_filterText "" m in
      let '(tm, h) := BuildFromVMs VMs (treeManager m) (heap m) in
      let m := set_heap h (set_treeManager tm m) in
      (updateVMList m, Cmd_nil)
  | ErrorMsg Err => (set_err Err m, Cmd_nil)
  | otherMsg => (m, Cmd_nil)
  end.

(** [%v] of an error prints its text, [<nil>] for [nil]. *)
Definition error_text (e : error) : string := default "<nil>" e.

Definition View (m : model) : string :=
  if quitting m then Render (sQuitText (mstyles m)) "Goodbye!"
  else if decide (state m = StateLoadingProjects) then
    LF +:+ "  Loading GCP projects..." +:+ LF +:+ LF
  else if decide (state m = StateLoadingVMs) then
    LF +:+ "  Loading VMs for project: " +:+ selectedProject m +:+ LF +:+ LF
  else if decide (state m = StateReadyToConnect) then
    LF +:+ "  Connecting to " +:+ from_option VMName "" (selectedVM m) +:+ "..." +:+ LF +:+ LF
  else if decide (err m ≠ None) then
    LF +:+ "  Error: " +:+ error_text (err m) +:+ LF +:+ LF +:+ "  Press 'q' to quit." +:+ LF
  else
    let s := LF +:+ list_View (list_ m) in
    if decide (state m = StateSelectingProject) then
      s +:+ LF +:+ LF +:+ "  Press Enter to select, 'q' to quit"
    else if decide (state m = StateSelectingVM) then
      if filtering m then
        s +:+ LF +:+ "  Press Enter to connect, Backspace to edit, Esc to clear filter, 'q' to quit"
      else
        s +:+ LF +:+ LF +:+ "  Press Enter to select/expand, → to expand, ← to collapse, Space to toggle, '/' to filter, Esc to go back, 'q' to quit"
    else s.

End Controller.

(** ** Plain instances of the library parameters

    Used to run the model on concrete inputs: byte-wise lower-casing of
    ASCII letters (what [strings.ToLower] does on ASCII strings), styles
    that render text unchanged, and a list that keeps its items, title,
    size and cursor. *)

Definition ToLower_byte (c : ascii) : ascii :=
  if (("A" <=? c) && (c <=? "Z"))%char
  then ascii_of_nat (nat_of_ascii c + 32)
  else c.

Fixpoint ToLower_ascii (s : string) : string :=
  match s with
  | EmptyString => EmptyString
  | String c s' => String (ToLower_byte c) (ToLower_ascii s')
  end.

#[global] Instance GoStrings_ascii : GoStrings := {| ToLower := ToLower_ascii |}.

#[global] Instance Lipgloss_plain : Lipgloss := {| Style := unit; Render := λ _ s, s |}.

Record plain_list := {
  pl_items : list item;
  pl_title : string;
  pl_width : Z;
  pl_height : Z;
  pl_cursor : Z
}.

Definition plain_list_Update (keypress : string) (l : plain_list) : plain_list * unit :=
  let last := (Z.of_nat (length (pl_items l)) - 1)%Z in
  let cursor :=
    if bool_decide (keypress ∈ ["up"; "k"]) then Z.max 0 (pl_cursor l - 1)
    else if bool_decide (keypress ∈ ["down"; "j"]) then Z.max 0 (Z.min last (pl_cursor l + 1))
    else if bool_decide (keypress = "home") then 0%Z
    else if bool_decide (keypress = "end") then Z.max 0 last
    else pl_cursor l in
  ({| pl_items := pl_items l; pl_title := pl_title l; pl_width := pl_width l;
      pl_height := pl_height l; pl_cursor := cursor |}, ()).

#[global] Instance Bubbles_plain : Bubbles := {|
  NewStyles := {| sTitle := (); sItem := (); sSelectedItem := (); sPagination := ();
                  sHelp := (); sQuitText := (); sNoItems := (); sFilter := ();
                  sRunning := (); sTerminated := (); sProvisioning := (); sStopping := ();
                  sGroup := (); sExpanded := (); sCollapsed := () |};
  list_Model := plain_list;
  list_Cmd := unit;
  list_New := λ items w h,
    {| pl_items := items; pl_title := ""; pl_width := w; pl_height := h; pl_cursor := 0 |};
  list_SetItems := λ items l,
    {| pl_items := items; pl_title := pl_title l; pl_width := pl_width l;
       pl_height := pl_height l; pl_cursor := pl_cursor l |};
  list_SetTitle := λ t l,
    {| pl_items := pl_items l; pl_title := t; pl_width := pl_width l;
       pl_height := pl_height l; pl_cursor := pl_cursor l |};
  list_SetWidth := λ w l,
    {| pl_items := pl_items l; pl_title := pl_title l; pl_width := w;
       pl_height := pl_height l; pl_cursor := pl_cursor l |};
  list_SetHeight := λ h l,
    {| pl_items := pl_items l; pl_title := pl_title l; pl_width := pl_width l;
       pl_height := h; pl_cursor := pl_cursor l |};
  list_Index := pl_cursor;
  list_SelectedItem := λ l, pl_items l !! Z.to_nat (pl_cursor l);
  list_Update := plain_list_Update;
  list_View := λ l, pl_title l
|}.

(** ** Vocabulary of the specification

    The tree the specification describes, in its own words: the group
    names of a load, the records of one group, the node a record or a
    group becomes, and the filter's rule for one top-level node. *)

(** The distinct non-empty group keys of the records, in ascending order. *)
Definition groupNamesOf (vms : list VM) : list string :=
  sort.Strings (remove_dups (filter (λ g, g ≠ "") (GetInstanceGroup <$> vms))).

(** The records whose group key is [g], in source order ([g = ""]: the
    ungrouped ones). *)
Definition membersOf (g : string) (vms : list VM) : list VM :=
  filter (λ vm, GetInstanceGroup vm = g) vms.

(** The Instance node of a record, under group [g] at depth [depth]. *)
Definition instanceCell (g : string) (depth : Z) (vm : VM) : TreeNode :=
  {| Type_ := InstanceNode; Name := VMName vm; VM_ := Some vm; GroupName := g;
     IsExpanded := false; Children := []; Depth := depth |}.

(** The Group node of group [g] with the given children and expansion. *)
Definition groupCell (g : string) (expanded : bool) (children : list loc) : TreeNode :=
  {| Type_ := GroupNode; Name := g; VM_ := None; GroupName := g;
     IsExpanded := expanded; Children := children; Depth := 0 |}.

(** [cs] appended to the children of a node. *)
Definition addChildren (cs : list loc) (n : TreeNode) : TreeNode :=
  {| Type_ := Type_ n; Name := Name n; VM_ := VM_ n; GroupName := GroupName n;
     IsExpanded := IsExpanded n; Children := Children n ++ cs; Depth := Depth n |}.

(** What the groups loop of [BuildFromVMs] leaves in the store [h] for the
    group [g]: a collapsed group node at [p] whose children are the
    instance nodes of the records filed under [g]; all of them were
    allocated at or after [lo]. *)
Definition groupBuilt (groups : gmap string (list VM)) (lo : nat) (h : store)
    (p : loc) (g : string) : Prop :=
  lo ≤ p < length h ∧
  ∃ kids, h !!! p = groupCell g false kids ∧
          Forall (λ c, lo ≤ c < length h) kids ∧
          cells h kids = instanceCell g 1 <$> default [] (groups !! g).

(** The path segments of a metadata value. *)
Definition segments (value : string) : list string := strings.Split value "/".

(** The record's metadata has a [created-by] entry whose value has a path
    segment [instanceGroupManagers] followed by the segment [g]. *)
Definition hasGroupEntry (vm : VM) (g : string) : Prop :=
  ∃ md item i,
    VMMetadata vm = Some md ∧ item ∈ Items md ∧ Key item = "created-by" ∧
    segments (Value item) !! i = Some "instanceGroupManagers" ∧
    segments (Value item) !! S i = Some g.

(** [g] follows the first [instanceGroupManagers] segment that has a next
    segment, in the first [created-by] item of [items] whose value has one. *)
Definition firstGroupItem (items : list MetadataItem) (g : string) : Prop :=
  ∃ before item after i,
    items = before ++ item :: after ∧ Key item = "created-by" ∧
    segments (Value item) !! i = Some "instanceGroupManagers" ∧
    segments (Value item) !! S i = Some g ∧
    (∀ j, j < i → segments (Value item) !! j ≠ Some "instanceGroupManagers") ∧
    (∀ item' j, item' ∈ before → Key item' = "created-by" →
                segments (Value item') !! j = Some "instanceGroupManagers" →
                segments (Value item') !! S j = None).

Definition firstGroupEntry (vm : VM) (g : string) : Prop :=
  ∃ md, VMMetadata vm = Some md ∧ firstGroupItem (Items md) g.

Section Landing.
Context `{Lipgloss}.

(** In the tree built from [vms] (by the manager [tm], in the store [h]) a
    top-level Group node named [g] has a child node of the record [vm]. *)
Definition landsUnder (tm : TreeManager) (h : store) (vms : list VM) (vm : VM)
    (g : string) : Prop :=
  ∃ p c,
    p ∈ nodes (BuildFromVMs vms tm h).1 ∧
    Type_ ((BuildFromVMs vms tm h).2 !!! p) = GroupNode ∧
    Name ((BuildFromVMs vms tm h).2 !!! p) = g ∧
    c ∈ Children ((BuildFromVMs vms tm h).2 !!! p) ∧
    VM_ ((BuildFromVMs vms tm h).2 !!! c) = Some vm.

(** In that tree a top-level Instance node is the node of the record [vm]. *)
Definition landsUngrouped (tm : TreeManager) (h : store) (vms : list VM) (vm : VM) : Prop :=
  ∃ p,
    p ∈ nodes (BuildFromVMs vms tm h).1 ∧
    Type_ ((BuildFromVMs vms tm h).2 !!! p) = InstanceNode ∧
    VM_ ((BuildFromVMs vms tm h).2 !!! p) = Some vm.

End Landing.

(** The display rows one top-level node contributes: the node, then its
    children when it is an expanded Group. *)
Definition rowsOf (h : store) (p : loc) : list loc :=
  p :: (if bool_decide (Type_ (h !!! p) = GroupNode ∧ IsExpanded (h !!! p) = true)
        then Children (h !!! p) else []).

(** The derived copy of a Group node that the filter emits: same name,
    group name and depth, the given children, expanded. *)
Definition derivedGroup (n : TreeNode) (children : list loc) : TreeNode :=
  {| Type_ := GroupNode; Name := Name n; VM_ := None; GroupName := GroupName n;
     IsExpanded := true; Children := children; Depth := Depth n |}.

Section FilterRule.
Context `{GoStrings}.

(** Case-insensitive substring match on the name of a node. *)
Definition nameMatches (query : string) (n : TreeNode) : bool :=
  strings.Contains (ToLower (Name n)) (ToLower query).

(** The children of [n] whose name matches, in order. *)
Definition matchingChildrenOf (h : store) (query : string) (n : TreeNode) : list loc :=
  filter (λ c, nameMatches query (h !!! c)) (Children n).

(** The filter's rule for one top-level node, in the words of the
    specification: a Group whose name matches is kept with all its
    children, a Group with matching children only is kept with exactly
    those, any other Group is dropped; an Instance is kept iff its name
    matches. *)
Definition filterRule (h : store) (query : string) (n : TreeNode) : option TreeNode :=
  match Type_ n with
  | GroupNode =>
      if nameMatches query n then Some (derivedGroup n (Children n))
      else match matchingChildrenOf h query n with
           | [] => None
           | kids => Some (derivedGroup n kids)
           end
  | InstanceNode => if nameMatches query n then Some n else None
  end.

End FilterRule.

(** Where a pointer returned by the filter comes from, [h] being the store
    before the call and [h'] the store after it: it is either one of the
    Instance node pointers handed in, or a location allocated by the call
    that holds an expanded Group node. *)
Definition filterOrigin (h h' : store) (nodes : list loc) (p : loc) : Prop :=
  (p < length h ∧ p ∈ nodes ∧ Type_ (h !!! p) = InstanceNode) ∨
  (length h ≤ p < length h' ∧ Type_ (h' !!! p) = GroupNode ∧ IsExpanded (h' !!! p) = true).

(** The test of the toggle loops: a Group node named [name]. *)
Definition isGroupNamed (h : store) (name : string) (p : loc) : Prop :=
  Type_ (h !!! p) = GroupNode ∧ Name (h !!! p) = name.

(** What a message may do to the cells of the store: nothing, or flip
    [IsExpanded] on one Group node of the canonical list; new cells are
    only ever added at the end. *)
Definition cellsKept (h h' : store) (canonical : list loc) : Prop :=
  ∃ ext, h' = h ++ ext ∨
         ∃ p, p ∈ canonical ∧ Type_ (h !!! p) = GroupNode ∧
              h' = alter flipExpanded p h ++ ext.

(** The shape of a canonical tree in a store: closed, two levels deep (the
    children of its nodes are Instance nodes), and with Group nodes that
    are told apart by their names. *)
Definition treeShape (h : store) (canonical : list loc) : Prop :=
  closed h canonical ∧
  Forall (λ p, Forall (λ c, Type_ (h !!! c) = InstanceNode) (Children (h !!! p))) canonical ∧
  (∀ p q, p ∈ canonical → q ∈ canonical →
          Type_ (h !!! p) = GroupNode → Type_ (h !!! q) = GroupNode →
          Name (h !!! p) = Name (h !!! q) → p = q).

Section Coherence.
Context `{GoStrings} `{Lipgloss} `{!Bubbles}.

(** What every state reached from a load satisfies: the canonical tree has
    the shape of a built tree and, in [StateSelectingVM] without an
    effective filter, the displayed nodes are the flattened canonical
    tree. *)
Definition coherent (m : model) : Prop :=
  treeShape (heap m) (nodes (treeManager m)) ∧
  (state m = StateSelectingVM → filtering m && bool_decide (filterText m ≠ "") = false →
   currentlyDisplayedNodes m = FlattenForDisplay (treeManager m) (heap m)).

(** The runtime's loop: each message goes to [Update], whose model is the
    next one; the commands are the runtime's to run. *)
Definition run (m : model) (msgs : list Msg) : model :=
  foldl (λ m msg, (Update m msg).1) m msgs.

End Coherence.

(** ** The GCP service and the hand-over to [gcloud compute ssh] *)

(** What lies outside the program: the [gcloud] child process behind
    [exec.Command(name, args...).Output()], the JSON decoder, the search of
    the path, and [syscall.Exec].  A result is the value ([inl]) or the
    text of the error ([inr]).  [syscall.Exec] returns only when it fails:
    [None] is the process image replaced. *)
Class Gcloud := {
  exec_Output : list string → string + string;
  json_Unmarshal_Projects : string → list Project + string;
  json_Unmarshal_VMs : string → list VM + string;
  exec_LookPath : string → string + string;
  syscall_Exec : string → list string → option string
}.

(** How [ConnectSSH] ends: in the process image of [gcloud], or with the
    [error] it returns. *)
Inductive Outcome :=
| Exec (path : string) (args : list string)
| Returned (e : error).

(** How [handleSSHConnection] ends, with what it has printed: it returns,
    the process image is replaced, it calls [os.Exit], or it reads through
    a [nil] pointer or past the end of a slice. *)
Inductive Ending :=
| Returns (printed : string)
| Replaced (printed : string) (path : string) (args : list string)
| Exits (printed : string) (code : Z)
| Panics.

(** A row of a view of the canonical tree: a Group node, a top-level
    node, or a child of a top-level node. *)
Definition viewRow (h : store) (canonical : list loc) (t : loc) : Prop :=
  Type_ (h !!! t) = GroupNode ∨ t ∈ canonical ∨
  ∃ p, p ∈ canonical ∧ t ∈ Children (h !!! p).

(** The Instance nodes of the canonical tree hold records of [vms]. *)
Definition treeOf (vms : list VM) (h : store) (canonical : list loc) : Prop :=
  ∀ p, p ∈ canonical →
    (Type_ (h !!! p) = InstanceNode → ∃ vm, VM_ (h !!! p) = Some vm ∧ vm ∈ vms) ∧
    (∀ c, c ∈ Children (h !!! p) → ∃ vm, VM_ (h !!! c) = Some vm ∧ vm ∈ vms).

Section Service.
Context `{GoStrings} `{Lipgloss} `{!Bubbles} `{Gcloud}.

(** The loop of [LoadProjects] that keeps the active projects. *)
Definition LoadProjects_active (projects : list Project) : list Project :=
  foldl (λ activeProjects project,
           if decide (ProjectStatus project = "ACTIVE")
           then activeProjects ++ [project]
           else activeProjects)
        [] projects.

(** The function behind the command [LoadProjects]. *)
Definition LoadProjects_run : Msg :=
  match exec_Output ["gcloud"; "projects"; "list";
                     "--format"; "json(projectId,name,lifecycleState)"] with
  | inr err => ErrorMsg (Some ("failed to list projects: " +:+ err))
  | inl output =>
      match json_Unmarshal_Projects output with
      | inr err => ErrorMsg (Some ("failed to parse project data: " +:+ err))
      | inl projects => ProjectsLoadedMsg (LoadProjects_active projects)
      end
  end.

(** The function behind the command [LoadVMs project]. *)
Definition LoadVMs_run (project : string) : Msg :=
  match exec_Output ["gcloud"; "compute"; "instances"; "list";
                     "--project"; project;
                     "--format"; "json(name,zone,status,metadata.items)"] with
  | inr err => ErrorMsg (Some ("failed to list VMs: " +:+ err))
  | inl output =>
      match json_Unmarshal_VMs output with
      | inr err => ErrorMsg (Some ("failed to parse VM data: " +:+ err))
      | inl vms => VMsLoadedMsg vms
      end
  end.

(** The runtime runs a command of the service and hands its message to
    [Update]; [nil] gives none, and what [tea.Quit] and the commands of
    the list give is the library's. *)
Definition perform (cmd : Cmd) : option Msg :=
  match cmd with
  | LoadProjects => Some LoadProjects_run
  | LoadVMs project => Some (LoadVMs_run project)
  | _ => None
  end.

(** [ConnectSSH]; [None] is the panic of [zoneParts[len(zoneParts)-1]] on
    an empty slice.  The environment is handed on as it is. *)
Definition ConnectSSH (project vmName zone : string) : option Outcome :=
  let zoneParts := strings.Split zone "/" in
  match length zoneParts with
  | O => None
  | S i =>
      zoneName ← zoneParts !! i;
      Some match exec_LookPath "gcloud" with
           | inr err => Returned (Some ("gcloud not found in PATH: " +:+ err))
           | inl gcloudPath =>
               let args := ["gcloud"; "compute"; "ssh"; vmName;
                            "--project"; project; "--zone"; zoneName] in
               match syscall_Exec gcloudPath args with
               | None => Exec gcloudPath args
               | Some err => Returned (Some err)
               end
           end
  end.

(** [handleSSHConnection] on the model the program ended with. *)
Definition handleSSHConnection (m : model) : Ending :=
  if bool_decide (state m = StateReadyToConnect) && negb (quitting m) then
    match selectedVM m with
    | None => Panics
    | Some vm =>
        let printed :=
          "Connecting to " +:+ VMName vm +:+ " in project " +:+ selectedProject m
            +:+ "..." +:+ LF in
        match ConnectSSH (selectedProject m) (VMName vm) (VMZone vm) with
        | None => Panics
        | Some (Exec path args) => Replaced printed path args
        | Some (Returned (Some e)) =>
            Exits (printed +:+ "SSH connection failed: " +:+ e +:+ LF) 1
        | Some (Returned None) => Returns printed
        end
    end
  else Returns "".

(** ** The program under the Bubble Tea runtime *)

(** The messages a command can be answered with.  A load of the service
    answers with an error that is not [nil] or with what it has listed;
    the other commands have no answer that [Update] tells apart from a
    message of the terminal. *)
Definition answers (cmd : Cmd) (msg : Msg) : bool :=
  match cmd, msg with
  | LoadProjects, ErrorMsg (Some _) => true
  | LoadProjects, ProjectsLoadedMsg _ => true
  | LoadVMs _, ErrorMsg (Some _) => true
  | LoadVMs _, VMsLoadedMsg _ => true
  | _, _ => false
  end.

(** What the runtime hands to [Update]: a message from the terminal (a
    key, a resize, or one the program does not tell apart) at any time, or
    an answer to a command that [Init] or [Update] has returned and that
    has not been answered yet, [Answer i msg] for the [i]-th of them. *)
Inductive Event :=
| Input (msg : Msg)
| Answer (i : nat) (msg : Msg).

Definition fromTerminal (msg : Msg) : bool :=
  match msg with
  | KeyMsg _ | WindowSizeMsg _ _ | otherMsg => true
  | _ => false
  end.

(** The running program: the model, the commands not yet answered and,
    for the record, the project and the records of the last list of
    instances that was delivered. *)
Record Runtime := {
  rt_model : model;
  rt_pending : list Cmd;
  rt_listing : option (string * list VM)
}.

(** One turn of the runtime's loop. *)
Definition deliver (s : Runtime) (e : Event) : Runtime :=
  match e with
  | Input msg =>
      if fromTerminal msg
      then {| rt_model := (Update (rt_model s) msg).1;
              rt_pending := rt_pending s ++ [(Update (rt_model s) msg).2];
              rt_listing := rt_listing s |}
      else s
  | Answer i msg =>
      match rt_pending s !! i with
      | Some cmd =>
          if answers cmd msg
          then {| rt_model := (Update (rt_model s) msg).1;
                  rt_pending := delete i (rt_pending s) ++ [(Update (rt_model s) msg).2];
                  rt_listing :=
                    match cmd, msg with
                    | LoadVMs project, VMsLoadedMsg VMs => Some (project, VMs)
                    | _, _ => rt_listing s
                    end |}
          else s
      | None => s
      end
  end.

(** [tea.NewProgram(newModel(project)).Run()] after the given events. *)
Definition program (project : string) (events : list Event) : Runtime :=
  foldl deliver
    {| rt_model := newModel project; rt_pending := [Init (newModel project)];
       rt_listing := None |}
    events.

(** [main], for the project given by the [-project] flag, the events of
    the run and the error [program.Run()] returns; [printed] is the
    standard output ([log.Fatal] writes to the standard error). *)
Definition main (projectFlag : string) (events : list Event) (runErr : error) : Ending :=
  match exec_LookPath "gcloud" with
  | inr _ => Exits "" 1
  | inl _ =>
      match runErr with
      | Some e => Exits ("Error running program: " +:+ e) 1
      | None => handleSSHConnection (rt_model (program projectFlag events))
      end
  end.

(** The model serves the listing [listing]: in [StateSelectingVM] and in
    [StateReadyToConnect] the listing is that of the selected project and
    the Instance nodes of the canonical tree hold records of it; the rows
    displayed in [StateSelectingVM] are rows of a view of that tree; the
    record selected in [StateReadyToConnect] is one of the listing. *)
Definition servesListing (listing : option (string * list VM)) (m : model) : Prop :=
  (state m = StateSelectingVM ∨ state m = StateReadyToConnect →
   ∃ vms, listing = Some (selectedProject m, vms) ∧
          treeOf vms (heap m) (nodes (treeManager m)) ∧
          (state m = StateReadyToConnect → ∃ vm, selectedVM m = Some vm ∧ vm ∈ vms)) ∧
  (state m = StateSelectingVM →
   Forall (viewRow (heap m) (nodes (treeManager m))) (currentlyDisplayedNodes m)).

(** ** The steps of the controller *)

(** The steps [Update] can take from [m]: the message, the next model and
    the command, with what the handler has tested on the way. *)
Inductive transition (m : model) : Msg → model → Cmd → Prop :=
| tr_none (msg : Msg) :
    (∀ Projects, msg ≠ ProjectsLoadedMsg Projects) → (∀ VMs, msg ≠ VMsLoadedMsg VMs) →
    (∀ Err, msg ≠ ErrorMsg Err) →
    transition m msg m Cmd_nil
| tr_resize (Width Height : Z) (l : list_Model) :
    transition m (WindowSizeMsg Width Height) (set_list l m) Cmd_nil
| tr_navigate (keypress : string) :
    state m = StateSelectingProject ∨ state m = StateSelectingVM →
    keypress ∈ ["up"; "k"; "down"; "j"; "pgup"; "pgdown"; "home"; "end"] →
    transition m (KeyMsg keypress)
      (set_list (list_Update keypress (list_ m)).1 m)
      (list_cmd (list_Update keypress (list_ m)).2)
| tr_quit (keypress : string) :
    keypress = "ctrl+c" ∨ keypress = "q" →
    state m ≠ StateSelectingVM ∨ filtering m = false →
    transition m (KeyMsg keypress) (set_quitting true m) tea_Quit
| tr_error (Err : error) :
    transition m (ErrorMsg Err) (set_err Err m) Cmd_nil
| tr_projects (Projects : list Project) :
    transition m (ProjectsLoadedMsg Projects)
      (set_list (list_SetTitle "Select GCP Project"
                   (list_SetItems (projectItems Projects) (list_ m)))
         (set_state StateSelectingProject (set_projects Projects m)))
      Cmd_nil
| tr_vms (VMs : list VM) (tm : TreeManager) (h : store) :
    BuildFromVMs VMs (treeManager m) (heap m) = (tm, h) →
    transition m (VMsLoadedMsg VMs)
      (updateVMList
         (set_heap h (set_treeManager tm
            (set_filterText "" (set_filtering false (set_state StateSelectingVM m))))))
      Cmd_nil
| tr_project (projectDisplay : item) :
    state m = StateSelectingProject →
    list_SelectedItem (list_ m) = Some projectDisplay →
    let projectID := default "" (strings.Split projectDisplay " (" !! 0) in
    transition m (KeyMsg "enter")
      (set_list (list_SetTitle "Loading VMs..." (list_ m))
         (set_state StateLoadingVMs (set_selectedProject projectID m)))
      (LoadVMs projectID)
| tr_back :
    state m = StateSelectingVM → filtering m = false →
    transition m (KeyMsg "esc") (goBackToProjectSelection m).1 Cmd_nil
| tr_filter (keypress : string) (on : bool) :
    state m = StateSelectingVM → filtering m = negb on →
    transition m (KeyMsg keypress)
      (updateVMList (set_filterText "" (set_filtering on m))) Cmd_nil
| tr_backspace (keypress : string) :
    state m = StateSelectingVM → filtering m = true → filterText m ≠ "" →
    transition m (KeyMsg keypress)
      (updateVMList (set_filterText (strings.dropLast (filterText m)) m)) Cmd_nil
| tr_type (c : ascii) :
    state m = StateSelectingVM → filtering m = true →
    isValidFilterChar c = true → c ≠ "j"%char → c ≠ "k"%char →
    transition m (KeyMsg (String c ""))
      (updateVMList (set_filterText (filterText m +:+ String c "") m)) Cmd_nil
| tr_toggle (keypress : string) (t : loc) (h : store) :
    state m = StateSelectingVM → getCurrentNode m = Some t →
    Type_ (heap m !!! t) = GroupNode →
    h = heap m ∨
    (∃ p, p ∈ nodes (treeManager m) ∧ isGroupNamed (heap m) (Name (heap m !!! t)) p ∧
          h = alter flipExpanded p (heap m)) →
    transition m (KeyMsg keypress) (updateVMList (set_heap h m)) Cmd_nil
| tr_select (t : loc) :
    state m = StateSelectingVM → getCurrentNode m = Some t →
    Type_ (heap m !!! t) = InstanceNode →
    transition m (KeyMsg "enter")
      (set_state StateReadyToConnect (set_selectedVM (VM_ (heap m !!! t)) m)) tea_Quit.

End Service.

(** ** Invariants of the store and of the query *)

(** Every Instance node of the store holds its record. *)
Definition recorded (h : store) : Prop :=
  Forall (λ n, Type_ n = InstanceNode → is_Some (VM_ n)) h.

(** The bytes a query can be made of: those [isValidFilterChar] accepts,
    less the two letters that are navigation keys. *)
Definition typable (c : ascii) : Prop :=
  isValidFilterChar c = true ∧ c ≠ "j"%char ∧ c ≠ "k"%char.

(** The commands of the service. *)
Definition isLoad `{Lipgloss} `{!Bubbles} (cmd : Cmd) : bool :=
  match cmd with
  | LoadProjects | LoadVMs _ => true
  | _ => false
  end.

(** The records of a tree, each group's before the next top-level node. *)
Definition recordsOf (h : store) (canonical : list loc) : list (option VM) :=
  canonical ≫= λ p,
    match Type_ (h !!! p) with
    | GroupNode => VM_ <$> cells h (Children (h !!! p))
    | InstanceNode => [VM_ (h !!! p)]
    end.

(** The rows of a node given by its cell: the cell, then those of its
    children if it is an expanded Group node. *)
Definition rowCells (h : store) (n : TreeNode) : list TreeNode :=
  n :: (if bool_decide (Type_ n = GroupNode ∧ IsExpanded n = true)
        then cells h (Children n) else []).

(** What the list is to show: the canonical tree flattened or, with a
    query in the filtering sub-mode, what the filter's rule keeps of it,
    flattened. *)
Definition viewOf `{GoStrings} (h : store) (canonical : list loc) (filtering : bool)
    (query : string) : list TreeNode :=
  (if filtering && bool_decide (query ≠ "")
   then omap (filterRule h query) (cells h canonical)
   else cells h canonical) ≫= rowCells h.

(** ** Sample data

    The records of the specification's end-to-end scenario, and two
    records whose metadata names a group more than once or with an empty
    name. *)

Definition createdBy (g : string) : Metadata :=
  {| Items := [ {| Key := "created-by";
                   Value := "projects/p/zones/z/instanceGroupManagers/" +:+ g |} ] |}.

Definition web1 : VM :=
  {| VMName := "web-1"; VMZone := "zones/z"; VMStatus_ := "RUNNING";
     VMMetadata := Some (createdBy "web-fleet") |}.

Definition web2 : VM :=
  {| VMName := "web-2"; VMZone := "zones/z"; VMStatus_ := "STOPPING";
     VMMetadata := Some (createdBy "web-fleet") |}.

Definition db1 : VM :=
  {| VMName := "db-1"; VMZone := "zones/z"; VMStatus_ := "RUNNING";
     VMMetadata := Some {| Items := [] |} |}.

Definition scenario : list VM := [web1; web2; db1].

(** Two [created-by] items naming different groups. *)
Definition twoEntries : VM :=
  {| VMName := "vm-1"; VMZone := "zones/z"; VMStatus_ := "RUNNING";
     VMMetadata :=
       Some {| Items := [ {| Key := "created-by";
                             Value := "projects/p/zones/z/instanceGroupManagers/blue" |};
                          {| Key := "created-by";
                             Value := "projects/p/zones/z/instanceGroupManagers/green" |} ] |} |}.

(** A value that ends right after [instanceGroupManagers/]. *)
Definition trailingSlash : VM :=
  {| VMName := "vm-2"; VMZone := "zones/z"; VMStatus_ := "RUNNING";
     VMMetadata := Some (createdBy "") |}.

(** A tree manager with the plain styles. *)
Definition plainManager : TreeManager := NewTreeManager NewStyles.

(** The tree of the scenario, built in the empty store. *)
Definition scenarioManager : TreeManager := (BuildFromVMs scenario plainManager []).1.
Definition scenarioStore : store := (BuildFromVMs scenario plainManager []).2.

(** The names behind a slice of pointers. *)
Definition names (h : store) (ps : list loc) : list string := Name <$> cells h ps.

(** The controller after the scenario's records have loaded, and after [/]
    has turned the filtering sub-mode on. *)
Definition loadedModel : model := (Update (newModel "demo") (VMsLoadedMsg scenario)).1.
Definition filteringModel : model := (Update loadedModel (KeyMsg "/")).1.

(** Feed a sequence of key presses to the controller. *)
Definition pressKeys (m : model) (keys : list string) : model :=
  foldl (λ m keypress, (Update m (KeyMsg keypress)).1) m keys.

(** A [gcloud] that is on the path, lists the scenario's records for
    every project and two projects of which one is active, and whose
    [ssh] takes over the process. *)
Definition activeProject : Project :=
  {| ProjectID := "demo"; ProjectName := "Demo"; ProjectStatus := "ACTIVE" |}.

Definition deletedProject : Project :=
  {| ProjectID := "old"; ProjectName := "Old"; ProjectStatus := "DELETE_REQUESTED" |}.

#[global] Instance Gcloud_sample : Gcloud := {|
  exec_Output := λ args, inl (default "" (args !! 1));
  json_Unmarshal_Projects := λ _, inl [deletedProject; activeProject];
  json_Unmarshal_VMs := λ _, inl scenario;
  exec_LookPath := λ _, inl "/usr/bin/gcloud";
  syscall_Exec := λ _ _, None
|}.

(** A [gcloud] that is on the path and fails. *)
Definition Gcloud_failing : Gcloud := {|
  exec_Output := λ _, inr "exit status 1";
  json_Unmarshal_Projects := λ _, inl [];
  json_Unmarshal_VMs := λ _, inl [];
  exec_LookPath := λ _, inl "/usr/bin/gcloud";
  syscall_Exec := λ _ _, Some "exec format error"
|}.


(** ** Proof automation *)

(** Split a conjunction into its conjuncts, leaving implications alone. *)
Ltac conjs := repeat match goal with |- _ ∧ _ => split end.

(** * Properties *)

(** ** Byte strings *)

Module strings_facts.
Import strings.

Example Split_slashes : Split "a/b//c/" "/" = ["a"; "b"; ""; "c"; ""].
Proof. reflexivity. Qed.

Example Split_wide_separator : Split "proj (name (x)" " (" = ["proj"; "name"; "x)"].
Proof. reflexivity. Qed.

Example Split_empty : Split "" "/" = [""].
Proof. reflexivity. Qed.

Example sort_Strings_bytes :
  sort.Strings ["web"; "Web"; "db"; "api-2"; "api"] = ["Web"; "api"; "api-2"; "db"; "web"].
Proof. vm_compute. reflexivity. Qed.

Example ToLower_ascii_mixed : ToLower "Web-FLEET_01 z" = "web-fleet_01 z".
Proof. vm_compute. reflexivity. Qed.


(** *** The byte order *)

(** A list has one increasing arrangement: the outcome of [sort.Strings]
    does not depend on the order in which a map hands out its keys. *)
Lemma sort_Strings_sorted (x : list string) : StronglySorted String.le (sort.Strings x).
Proof. apply (StronglySorted_merge_sort String.le). Qed.

Lemma sort_Strings_perm (x : list string) : sort.Strings x ≡ₚ x.
Proof. apply (merge_sort_Permutation String.le). Qed.

Lemma sorted_unique (l1 l2 : list string) :
  StronglySorted String.le l1 → StronglySorted String.le l2 → l1 ≡ₚ l2 → l1 = l2.
Proof. intros. by apply (StronglySorted_unique String.le). Qed.

Lemma sort_Strings_order_irrelevant (x y : list string) :
  x ≡ₚ y → sort.Strings x = sort.Strings y.
Proof.
  intros Hp. apply sorted_unique; try apply sort_Strings_sorted.
  by rewrite !sort_Strings_perm.
Qed.

Lemma sort_Strings_NoDup (x : list string) : NoDup x → NoDup (sort.Strings x).
Proof. intros Hnd. by rewrite sort_Strings_perm. Qed.

End strings_facts.

(** ** Status badges *)

(** C7. [GetAbbreviation] is a total function; it sends the four known
    statuses to the four distinct one-letter badges R, T, P and S and every
    other status string to the badge [?]; each badge is one byte long. *)
Theorem GetAbbreviation_badges :
  GetAbbreviation StatusRunning = "R" ∧
  GetAbbreviation StatusTerminated = "T" ∧
  GetAbbreviation StatusProvisioning = "P" ∧
  GetAbbreviation StatusStopping = "S" ∧
  NoDup (GetAbbreviation <$>
           [StatusRunning; StatusTerminated; StatusProvisioning; StatusStopping]) ∧
  ∀ s : VMStatus,
    String.length (GetAbbreviation s) = 1 ∧
    (s ∈ [StatusRunning; StatusTerminated; StatusProvisioning; StatusStopping]
     ∨ GetAbbreviation s = "?").
Proof.
  repeat split; try reflexivity.
  - apply (bool_decide_unpack _). by vm_compute.
  - unfold GetAbbreviation. by repeat case_decide.
  - unfold GetAbbreviation. repeat case_decide; subst; first [by right | left; set_solver].
Qed.

(** ** The group key *)

Section GroupKey.
Import strings.

Lemma append_cons (c : ascii) (t s : string) : String c t +:+ s = String c (t +:+ s).
Proof. reflexivity. Qed.

Lemma append_nil (s : string) : "" +:+ s = s.
Proof. reflexivity. Qed.

Lemma prefix_cons (a b : ascii) (x s : string) :
  String.prefix (String a x) (String b s) =
  if ascii_dec a b then String.prefix x s else false.
Proof. reflexivity. Qed.

Lemma prefix_nil (s : string) : String.prefix "" s = true.
Proof. by destruct s. Qed.

Lemma prefix_app (x y : string) : String.prefix x (x +:+ y) = true.
Proof.
  induction x as [|c x IH]; [apply prefix_nil|].
  rewrite append_cons, prefix_cons. destruct (ascii_dec c c); [done|congruence].
Qed.

Lemma Contains_prefix (s x : string) : String.prefix x s = true → Contains s x = true.
Proof. intros Hp. destruct s; simpl in *; by rewrite Hp. Qed.

Lemma Contains_app_r (t s x : string) : Contains s x = true → Contains (t +:+ s) x = true.
Proof.
  intros Hc. induction t as [|c t IH]; [done|].
  rewrite append_cons. simpl. rewrite IH. apply orb_true_r.
Qed.

Lemma append_assoc (a b c : string) : (a +:+ b) +:+ c = a +:+ (b +:+ c).
Proof. induction a as [|x a IH]; [done|]. rewrite !append_cons. by f_equal. Qed.

Lemma prefix_slash (c : ascii) (s : string) :
  String.prefix "/" (String c s) = bool_decide (c = "/"%char).
Proof.
  rewrite prefix_cons. destruct (ascii_dec "/" c) as [<-|Hne].
  - by rewrite prefix_nil.
  - rewrite bool_decide_eq_false_2; [done|congruence].
Qed.

(** A segment that is followed by another one is followed by a slash in
    the value: the [strings.Contains] guard of [GetInstanceGroup] never
    rejects a value the inner loop would accept. *)
Lemma Split_scan_slash_Contains (s cur a : string) (i : nat) :
  Split_scan "/" 0 cur s !! i = Some a →
  is_Some (Split_scan "/" 0 cur s !! S i) →
  Contains (cur +:+ s) (a +:+ "/") = true.
Proof.
  revert cur i. induction s as [|c s IH]; intros cur i Hi [b Hb].
  - simpl in *. by destruct i.
  - cbn [Split_scan] in Hi, Hb. rewrite prefix_slash in Hi, Hb. case_bool_decide as Hc.
    + subst c. cbn [String.length Nat.sub] in Hi, Hb. destruct i as [|i]; simpl in Hi.
      * injection Hi as ->. apply Contains_prefix.
        change (String "/" s) with ("/" +:+ s). rewrite <- append_assoc.
        apply prefix_app.
      * apply Contains_app_r. change (String "/" s) with ("/" +:+ ("" +:+ s)).
        apply Contains_app_r. eapply IH; eauto.
    + change (String c s) with (String c "" +:+ s). rewrite <- append_assoc.
      eapply IH; eauto.
Qed.

Lemma Split_slash_Contains (s a : string) (i : nat) :
  Split s "/" !! i = Some a → is_Some (Split s "/" !! S i) →
  Contains s (a +:+ "/") = true.
Proof. apply (Split_scan_slash_Contains s ""). Qed.

(** The inner loop returns the part after the first part named
    [instanceGroupManagers] that has a part after it. *)
Lemma GetInstanceGroup_parts_Some (parts : list string) (g : string) :
  GetInstanceGroup_parts parts = Some g ↔
  ∃ i, parts !! i = Some "instanceGroupManagers" ∧ parts !! S i = Some g ∧
       ∀ j, j < i → parts !! j ≠ Some "instanceGroupManagers".
Proof.
  induction parts as [|part rest IH]; simpl.
  - split; [done|]. by intros (i & ? & _).
  - case_decide as Hp.
    + destruct rest as [|next rest'].
      * split; [done|]. intros ([|i] & H0 & H1 & _); simpl in *; [done|].
        by destruct i.
      * split.
        -- intros [= <-]. exists 0. repeat split; [by subst|]. lia.
        -- intros ([|i] & H0 & H1 & Hfirst); simpl in *; [congruence|].
           exfalso. apply (Hfirst 0); [lia|]. simpl. by subst.
    + rewrite IH. split.
      * intros (i & H0 & H1 & Hfirst). exists (S i). repeat split; try done.
        intros [|j] Hj; simpl; [congruence|]. apply Hfirst. lia.
      * intros ([|i] & H0 & H1 & Hfirst); simpl in *; [congruence|].
        exists i. repeat split; try done. intros j Hj. apply (Hfirst (S j)). lia.
Qed.

Lemma GetInstanceGroup_parts_None (parts : list string) :
  GetInstanceGroup_parts parts = None ↔
  ∀ i, parts !! i = Some "instanceGroupManagers" → parts !! S i = None.
Proof.
  induction parts as [|part rest IH]; simpl; [done|].
  case_decide as Hp.
  - destruct rest as [|next rest'].
    + split; [|done]. intros _ [|i]; simpl; [done|]. by destruct i.
    + split; [done|]. intros Hall. specialize (Hall 0). simpl in Hall.
      subst part. by specialize (Hall eq_refl).
  - rewrite IH. split.
    + intros Hall [|i]; simpl; [congruence|]. apply Hall.
    + intros Hall i. apply (Hall (S i)).
Qed.

End GroupKey.

(** ** The node store *)

Section Store.

Lemma alloc_length (n : TreeNode) (h : store) : length (alloc n h).2 = S (length h).
Proof. unfold alloc. simpl. rewrite length_app. simpl. lia. Qed.

Lemma alloc_lookup_old (n : TreeNode) (h : store) (l : loc) :
  l < length h → (alloc n h).2 !!! l = h !!! l.
Proof. intros. unfold alloc. simpl. by apply lookup_total_app_l. Qed.

Lemma alloc_lookup_new (n : TreeNode) (h : store) :
  (alloc n h).2 !!! (alloc n h).1 = n.
Proof. unfold alloc. simpl. by apply list_lookup_total_middle. Qed.

Lemma cells_app (h : store) (ps qs : list loc) : cells h (ps ++ qs) = cells h ps ++ cells h qs.
Proof. unfold cells. apply fmap_app. Qed.

(** Cells below the allocation mark are not seen to change when the store grows. *)
Lemma cells_extend (h ext : store) (ps : list loc) :
  Forall (λ p, p < length h) ps → cells (h ++ ext) ps = cells h ps.
Proof.
  intros Hall. unfold cells. apply list_fmap_ext. intros i p Hp.
  apply lookup_total_app_l. rewrite Forall_forall in Hall. apply Hall.
  by eapply list_elem_of_lookup_2.
Qed.

Lemma cells_seq (h : store) (new : list TreeNode) :
  cells (h ++ new) (seq (length h) (length new)) = new.
Proof.
  unfold cells. apply list_eq. intros i. rewrite list_lookup_fmap.
  destruct (decide (i < length new)) as [Hi|Hi].
  - rewrite lookup_seq_lt by done. simpl.
    rewrite lookup_total_app_r by lia. replace (length h + i - length h) with i by lia.
    destruct (lookup_lt_is_Some_2 new i Hi) as [x Hx]. rewrite Hx.
    f_equal. by apply list_lookup_total_correct.
  - rewrite lookup_seq_ge by lia. simpl. symmetry. apply lookup_ge_None. lia.
Qed.

Lemma addChildren_nil (n : TreeNode) : addChildren [] n = n.
Proof. destruct n. unfold addChildren. simpl. by rewrite app_nil_r. Qed.

Lemma addChildren_compose (cs ds : list loc) (n : TreeNode) :
  addChildren ds (addChildren cs n) = addChildren (cs ++ ds) n.
Proof. unfold addChildren. simpl. by rewrite app_assoc. Qed.

End Store.

(** ** Building the tree *)

Section Build.
Context `{Lipgloss}.

(** The children loop in closed form: the new instance nodes sit at the end
    of the store in source order, and the group node at [g] lists them. *)
Lemma BuildFromVMs_children_eq (g : loc) (groupName : string) (vms : list VM) (h : store) :
  g < length h →
  BuildFromVMs_children g groupName vms h =
  alter (addChildren (seq (length h) (length vms))) g h ++ (instanceCell groupName 1 <$> vms).
Proof.
  revert h. induction vms as [|vm rest IH]; intros h Hg; simpl.
  - rewrite app_nil_r. symmetry. apply list_alter_id, addChildren_nil.
  - rewrite alter_app_l by done. rewrite IH by (rewrite length_app, length_alter; simpl; lia).
    rewrite length_app, length_alter. simpl.
    rewrite alter_app_l by (by rewrite length_alter).
    rewrite list_alter_alter_eq. rewrite <- app_assoc. simpl. f_equal.
    apply list_alter_ext; [|done]. intros n _. simpl.
    change (appendChild (length h) n) with (addChildren [length h] n).
    rewrite addChildren_compose. do 2 f_equal. simpl. f_equal. lia.
Qed.


(** One round of the groups loop: the group node, then its instance nodes. *)
Lemma BuildFromVMs_group_block (groupName : string) (vms : list VM) (h : store) :
  BuildFromVMs_children (length h) groupName vms (h ++ [groupCell groupName false []]) =
  h ++ groupCell groupName false (seq (S (length h)) (length vms))
    :: (instanceCell groupName 1 <$> vms).
Proof.
  rewrite BuildFromVMs_children_eq by (rewrite length_app; simpl; lia).
  rewrite length_app. simpl. replace (length h + 1) with (S (length h)) by lia.
  rewrite <- (Nat.add_0_r (length h)) at 2. rewrite alter_app_r.
  rewrite <- app_assoc. reflexivity.
Qed.

Lemma groupBuilt_extend (groups : gmap string (list VM)) (lo lo' : nat) (h ext : store)
    (p : loc) (g : string) :
  lo' ≤ lo → groupBuilt groups lo h p g → groupBuilt groups lo' (h ++ ext) p g.
Proof.
  intros Hlo ([Hp1 Hp2] & kids & Hcell & Hkids & Hcells).
  split; [rewrite length_app; lia|]. exists kids. repeat split.
  - by rewrite lookup_total_app_l.
  - eapply Forall_impl; [exact Hkids|]. intros c Hc. simpl in Hc.
    rewrite length_app. lia.
  - rewrite cells_extend; [done|]. eapply Forall_impl; [exact Hkids|].
    intros c Hc. simpl in Hc. lia.
Qed.

Lemma BuildFromVMs_groups_spec (groups : gmap string (list VM)) (groupNames : list string)
    (nodes0 : list loc) (h : store) :
  ∃ locs ext,
    BuildFromVMs_groups groups groupNames nodes0 h = (nodes0 ++ locs, h ++ ext) ∧
    Forall2 (groupBuilt groups (length h) (h ++ ext)) locs groupNames.
Proof.
  revert nodes0 h. induction groupNames as [|g rest IH]; intros nodes0 h.
  - exists [], []. simpl. rewrite !app_nil_r. split; [done|constructor].
  - cbn [BuildFromVMs_groups alloc].
    change {| Type_ := GroupNode; Name := g; VM_ := None; GroupName := g;
              IsExpanded := false; Children := []; Depth := 0 |}
      with (groupCell g false []).
    rewrite BuildFromVMs_group_block.
    set (vms := default [] (groups !! g)).
    set (G := groupCell g false (seq (S (length h)) (length vms))).
    set (I := instanceCell g 1 <$> vms).
    destruct (IH (nodes0 ++ [length h]) (h ++ G :: I)) as (locs & ext & Heq & Hall).
    exists (length h :: locs), (G :: I ++ ext). split.
    + rewrite Heq. rewrite <- !app_assoc. reflexivity.
    + replace (h ++ G :: I ++ ext) with ((h ++ G :: I) ++ ext)
        by (by rewrite <- app_assoc).
      constructor.
      * apply (groupBuilt_extend groups (length h) (length h) (h ++ G :: I)); [lia|].
        split; [rewrite length_app; simpl; lia|]. exists (seq (S (length h)) (length vms)).
        repeat split.
        -- by apply list_lookup_total_middle.
        -- apply Forall_forall. intros c Hc. apply elem_of_seq in Hc.
           rewrite length_app. simpl. unfold I. rewrite length_fmap. lia.
        -- replace (h ++ G :: I) with ((h ++ [G]) ++ I) by (by rewrite <- app_assoc).
           replace (S (length h)) with (length (h ++ [G])) by (rewrite length_app; simpl; lia).
           replace (length vms) with (length I) by (unfold I; by rewrite length_fmap).
           apply cells_seq.
      * eapply Forall2_impl; [exact Hall|]. intros p g' Hb.
        destruct Hb as ([Hp1 Hp2] & kids & Hcell & Hkids & Hcells).
        rewrite length_app in Hp1. split; [lia|]. exists kids. repeat split; try done.
        eapply Forall_impl; [exact Hkids|]. intros c Hc. simpl in Hc.
        rewrite length_app in Hc. lia.
Qed.

Lemma BuildFromVMs_ungrouped_spec (ungrouped : list VM) (nodes0 : list loc) (h : store) :
  BuildFromVMs_ungrouped ungrouped nodes0 h =
  (nodes0 ++ seq (length h) (length ungrouped), h ++ (instanceCell "" 0 <$> ungrouped)).
Proof.
  revert nodes0 h. induction ungrouped as [|vm rest IH]; intros nodes0 h.
  - simpl. by rewrite !app_nil_r.
  - cbn [BuildFromVMs_ungrouped alloc]. rewrite IH. rewrite length_app. simpl.
    replace (length h + 1) with (S (length h)) by lia.
    by rewrite <- !app_assoc.
Qed.


(** *** The first loop: filing records by group key *)

Lemma membersOf_snoc (g : string) (vms : list VM) (vm : VM) :
  membersOf g (vms ++ [vm]) =
  membersOf g vms ++ (if decide (GetInstanceGroup vm = g) then [vm] else []).
Proof.
  unfold membersOf. by rewrite filter_app.
Qed.

Lemma membersOf_nonempty (g : string) (vms : list VM) :
  membersOf g vms ≠ [] ↔ ∃ vm, vm ∈ vms ∧ GetInstanceGroup vm = g.
Proof.
  unfold membersOf. split.
  - intros Hne. destruct (filter _ vms) as [|vm l] eqn:E; [done|].
    assert (vm ∈ filter (λ vm, GetInstanceGroup vm = g) vms) as Hin
      by (rewrite E; left).
    apply list_elem_of_filter in Hin as [? ?]. eauto.
  - intros (vm & Hin & Hg) E.
    assert (vm ∈ filter (λ vm, GetInstanceGroup vm = g) vms) as Hin'
      by (by apply list_elem_of_filter).
    rewrite E in Hin'. by apply not_elem_of_nil in Hin'.
Qed.

Lemma BuildFromVMs_partition_spec (vms : list VM) :
  (BuildFromVMs_partition vms).2 = membersOf "" vms ∧
  ∀ g, (BuildFromVMs_partition vms).1 !! g =
       if decide (g ≠ "" ∧ membersOf g vms ≠ []) then Some (membersOf g vms) else None.
Proof.
  unfold BuildFromVMs_partition.
  induction vms as [|vm vms IH] using rev_ind.
  - simpl. split; [done|]. intros g. rewrite lookup_empty. case_decide as Hd; [|done].
    by destruct Hd.
  - rewrite foldl_snoc. destruct (foldl _ _ vms) as [groups ungrouped].
    simpl in IH. destruct IH as [IHu IHg].
    assert (∀ g, membersOf g vms ++ [vm] ≠ []) as Hsnoc by (intros g; by destruct (membersOf g vms)).
    case_decide as Hgrp; simpl.
    + split.
      * rewrite membersOf_snoc, IHu. rewrite decide_False by done. by rewrite app_nil_r.
      * intros g. rewrite membersOf_snoc.
        destruct (decide (GetInstanceGroup vm = g)) as [<-|Hne].
        -- rewrite lookup_insert_eq. rewrite IHg.
           rewrite (decide_True (P := _ ∧ membersOf _ vms ++ [vm] ≠ [])) by done.
           case_decide as Hd; [done|]. simpl.
           destruct (membersOf (GetInstanceGroup vm) vms); [done|].
           exfalso. apply Hd. done.
        -- rewrite lookup_insert_ne by done. rewrite IHg, app_nil_r. done.
    + split.
      * rewrite membersOf_snoc, IHu. by rewrite decide_True.
      * intros g. rewrite membersOf_snoc, IHg.
        destruct (decide (GetInstanceGroup vm = g)) as [<-|Hne].
        -- rewrite !decide_False; [done|tauto..].
        -- by rewrite app_nil_r.
Qed.

(** The keys of the [groups] map are the distinct non-empty group keys of
    the records; however the map enumerates them, sorting gives
    [groupNamesOf]. *)
Lemma BuildFromVMs_groupNames_spec (vms : list VM) :
  BuildFromVMs_groupNames (BuildFromVMs_partition vms).1 = groupNamesOf vms.
Proof.
  unfold BuildFromVMs_groupNames, groupNamesOf.
  apply strings_facts.sort_Strings_order_irrelevant.
  apply NoDup_Permutation.
  - apply NoDup_fst_map_to_list.
  - apply NoDup_remove_dups.
  - intros g. rewrite elem_of_remove_dups, list_elem_of_filter, !list_elem_of_fmap.
    destruct (BuildFromVMs_partition_spec vms) as [_ Hg]. split.
    + intros ([g' l] & -> & Hin). apply elem_of_map_to_list in Hin. simpl.
      rewrite Hg in Hin. case_decide as Hd; [|done]. destruct Hd as [Hne Hmem].
      split; [done|]. apply membersOf_nonempty in Hmem as (vm & ? & ?). eauto.
    + intros (Hne & vm & -> & Hin).
      exists (GetInstanceGroup vm, membersOf (GetInstanceGroup vm) vms). split; [done|].
      apply elem_of_map_to_list. rewrite Hg. rewrite decide_True; [done|].
      split; [done|]. apply membersOf_nonempty. eauto.
Qed.

Lemma elem_of_groupNamesOf (vms : list VM) (g : string) :
  g ∈ groupNamesOf vms ↔ g ≠ "" ∧ ∃ vm, vm ∈ vms ∧ GetInstanceGroup vm = g.
Proof.
  unfold groupNamesOf. rewrite strings_facts.sort_Strings_perm.
  rewrite elem_of_remove_dups, list_elem_of_filter, list_elem_of_fmap.
  split.
  - intros (Hne & vm & -> & Hin). eauto.
  - intros (Hne & vm & Hin & <-). eauto.
Qed.

Lemma groupNamesOf_NoDup (vms : list VM) : NoDup (groupNamesOf vms).
Proof. apply strings_facts.sort_Strings_NoDup, NoDup_remove_dups. Qed.

Lemma groupNamesOf_sorted (vms : list VM) : StronglySorted String.le (groupNamesOf vms).
Proof. apply strings_facts.sort_Strings_sorted. Qed.

Lemma groupNamesOf_order_irrelevant (vms vms' : list VM) :
  vms ≡ₚ vms' → groupNamesOf vms' = groupNamesOf vms.
Proof.
  intros Hp. apply strings_facts.sorted_unique; try apply groupNamesOf_sorted.
  apply NoDup_Permutation; try apply groupNamesOf_NoDup.
  intros g. rewrite !elem_of_groupNamesOf. by setoid_rewrite Hp.
Qed.


Lemma BuildFromVMs_partition_members (vms : list VM) (g : string) :
  g ≠ "" → default [] ((BuildFromVMs_partition vms).1 !! g) = membersOf g vms.
Proof.
  intros Hne. destruct (BuildFromVMs_partition_spec vms) as [_ Hg]. rewrite Hg.
  case_decide as Hd; [done|]. simpl. destruct (membersOf g vms); [done|].
  exfalso. by apply Hd.
Qed.

(** [BuildFromVMs] end to end: the store grows by the new nodes only, the
    group nodes come first, one per name of [groupNamesOf], and the
    ungrouped instance nodes are the last cells allocated. *)
Lemma BuildFromVMs_spec (vms : list VM) (tm : TreeManager) (h : store) :
  ∃ groupLocs ext,
    BuildFromVMs vms tm h =
      (set_nodes (groupLocs ++ seq (length (h ++ ext)) (length (membersOf "" vms))) tm,
       (h ++ ext) ++ (instanceCell "" 0 <$> membersOf "" vms)) ∧
    Forall2 (groupBuilt (BuildFromVMs_partition vms).1 (length h) (h ++ ext))
      groupLocs (groupNamesOf vms).
Proof.
  unfold BuildFromVMs.
  pose proof (BuildFromVMs_partition_spec vms) as [Hu _].
  pose proof (BuildFromVMs_groupNames_spec vms) as Hn.
  destruct (BuildFromVMs_partition vms) as [groups ungrouped]. simpl in Hu, Hn.
  rewrite Hn. subst ungrouped.
  destruct (BuildFromVMs_groups_spec groups (groupNamesOf vms) [] h)
    as (locs & ext & Heq & Hall).
  rewrite Heq. rewrite BuildFromVMs_ungrouped_spec. simpl.
  exists locs, ext. split; [done|]. exact Hall.
Qed.

(** The layout of the built tree, read through the final store. *)
Lemma BuildFromVMs_layout (vms : list VM) (tm : TreeManager) (h : store) :
  ∃ groupLocs instLocs,
    nodes (BuildFromVMs vms tm h).1 = groupLocs ++ instLocs ∧
    Forall2 (λ p g, ∃ kids, (BuildFromVMs vms tm h).2 !!! p = groupCell g false kids ∧
                            cells (BuildFromVMs vms tm h).2 kids
                            = instanceCell g 1 <$> membersOf g vms)
      groupLocs (groupNamesOf vms) ∧
    cells (BuildFromVMs vms tm h).2 instLocs = instanceCell "" 0 <$> membersOf "" vms.
Proof.
  destruct (BuildFromVMs_spec vms tm h) as (locs & ext & Heq & Hall).
  rewrite Heq. simpl.
  exists locs, (seq (length (h ++ ext)) (length (membersOf "" vms))). split; [done|]. split.
  - assert (Forall (λ g, g ≠ "") (groupNamesOf vms)) as Hne.
    { apply Forall_forall. intros g Hg. by apply elem_of_groupNamesOf in Hg as [? _]. }
    clear Heq. revert Hne.
    induction Hall as [|p g locs' names Hb Hall IH]; intros Hne; [constructor|].
    apply Forall_cons in Hne as [Hg Hne]. constructor; [|by apply IH].
    eapply groupBuilt_extend in Hb; [|reflexivity].
    destruct Hb as (_ & kids & Hcell & _ & Hcells). exists kids. split; [exact Hcell|].
    rewrite Hcells. by rewrite BuildFromVMs_partition_members.
  - rewrite <- (length_fmap (instanceCell "" 0)). apply cells_seq.
Qed.

(** Every pointer of the built tree is allocated, and so is every child
    pointer of its nodes: the tree is closed in the store it was built in. *)
Lemma BuildFromVMs_closed (vms : list VM) (tm : TreeManager) (h : store) :
  closed (BuildFromVMs vms tm h).2 (nodes (BuildFromVMs vms tm h).1).
Proof.
  destruct (BuildFromVMs_spec vms tm h) as (locs & ext & Heq & Hall).
  rewrite Heq. simpl. unfold closed. apply Forall_app. split.
  - clear Heq. induction Hall as [|p g locs' names Hb Hall IH]; constructor; [|done].
    destruct Hb as ([_ Hp] & kids & Hcell & Hkids & _). split.
    + rewrite length_app. lia.
    + rewrite lookup_total_app_l by done. rewrite Hcell. simpl.
      eapply Forall_impl; [exact Hkids|]. intros c [_ Hc]. rewrite length_app. lia.
  - apply Forall_forall. intros p Hp. apply elem_of_seq in Hp.
    rewrite !length_app, length_fmap. split; [rewrite length_app in Hp; lia|].
    rewrite lookup_total_app_r by lia.
    destruct (lookup_lt_is_Some_2 (membersOf "" vms) (p - length (h ++ ext))) as [vm Hvm];
      [lia|].
    erewrite list_lookup_total_correct; [|by rewrite list_lookup_fmap, Hvm].
    constructor.
Qed.

(** C5. The tree built from any sequence of records: the top-level nodes
    are the Group nodes followed by the ungrouped Instance nodes, never
    interleaved; there is one collapsed Group node per distinct non-empty
    group key, in ascending byte order of the names whatever the order of
    the records; the children of a group are the Instance nodes (depth 1)
    of exactly its records, in source order; the ungrouped Instance nodes
    (depth 0) are those of the records without a group key, in source
    order. *)
Theorem BuildFromVMs_groups_then_ungrouped (vms : list VM) (tm : TreeManager) (h : store) :
  let tm' := (BuildFromVMs vms tm h).1 in
  let h' := (BuildFromVMs vms tm h).2 in
  (∃ groupLocs instLocs,
     nodes tm' = groupLocs ++ instLocs ∧
     Forall2 (λ p g, ∃ kids, h' !!! p = groupCell g false kids ∧
                             cells h' kids = instanceCell g 1 <$> membersOf g vms)
       groupLocs (groupNamesOf vms) ∧
     cells h' instLocs = instanceCell "" 0 <$> membersOf "" vms) ∧
  StronglySorted String.le (groupNamesOf vms) ∧
  NoDup (groupNamesOf vms) ∧
  (∀ g, g ∈ groupNamesOf vms ↔ g ≠ "" ∧ ∃ vm, vm ∈ vms ∧ GetInstanceGroup vm = g) ∧
  (∀ vms', vms ≡ₚ vms' → groupNamesOf vms' = groupNamesOf vms).
Proof.
  intros tm' h'. split; [apply BuildFromVMs_layout|].
  by auto using groupNamesOf_sorted, groupNamesOf_NoDup,
                elem_of_groupNamesOf, groupNamesOf_order_irrelevant.
Qed.

End Build.

(** ** Grouping *)

Section Grouping.
Context `{Lipgloss}.

Lemma segments_Contains (value : string) (j : nat) :
  segments value !! j = Some "instanceGroupManagers" →
  is_Some (segments value !! S j) →
  strings.Contains value "instanceGroupManagers/" = true.
Proof. apply (Split_slash_Contains value "instanceGroupManagers" j). Qed.

Lemma firstGroupItem_GetInstanceGroup (items : list MetadataItem) (g : string) :
  firstGroupItem items g → GetInstanceGroup_items items = g.
Proof.
  intros (before & item & after & i & -> & Hkey & Hi & HSi & Hfirst & Hbefore).
  induction before as [|item' before IH]; simpl.
  - rewrite Hkey. rewrite bool_decide_eq_true_2 by done. simpl.
    rewrite (segments_Contains _ i) by eauto.
    assert (GetInstanceGroup_parts (strings.Split (Value item) "/") = Some g) as ->; [|done].
    apply GetInstanceGroup_parts_Some. eauto.
  - assert (∀ j, segments (Value item') !! j = Some "instanceGroupManagers" →
                 Key item' = "created-by" → segments (Value item') !! S j = None) as Hskip.
    { intros j Hj Hk. eapply Hbefore; eauto. left. }
    destruct (bool_decide (Key item' = "created-by")) eqn:Hk; simpl.
    + apply bool_decide_eq_true in Hk.
      destruct (strings.Contains _ _); simpl.
      * assert (GetInstanceGroup_parts (strings.Split (Value item') "/") = None) as ->.
        { apply GetInstanceGroup_parts_None. intros j Hj. by apply Hskip. }
        apply IH. intros item'' j Hin. apply Hbefore. by right.
      * apply IH. intros item'' j Hin. apply Hbefore. by right.
    + apply IH. intros item'' j Hin. apply Hbefore. by right.
Qed.

Lemma GetInstanceGroup_firstGroupItem (items : list MetadataItem) (g : string) :
  g ≠ "" → GetInstanceGroup_items items = g → firstGroupItem items g.
Proof.
  intros Hne. induction items as [|item rest IH]; simpl; [congruence|].
  assert (firstGroupItem rest g →
          (Key item = "created-by" → ∀ j,
             segments (Value item) !! j = Some "instanceGroupManagers" →
             segments (Value item) !! S j = None) →
          firstGroupItem (item :: rest) g) as Hskip.
  { intros (before & it & after & i & -> & Hkey & Hi & HSi & Hfirst & Hbefore) Hitem.
    exists (item :: before), it, after, i. repeat split; try done.
    intros item' j Hin Hk Hj. apply elem_of_cons in Hin as [->|Hin]; eauto. }
  destruct (bool_decide (Key item = "created-by")) eqn:Hk; simpl.
  - apply bool_decide_eq_true in Hk.
    destruct (strings.Contains (Value item) "instanceGroupManagers/") eqn:Hc; simpl.
    + destruct (GetInstanceGroup_parts (strings.Split (Value item) "/")) as [g'|] eqn:Hp.
      * intros <-. apply GetInstanceGroup_parts_Some in Hp as (i & Hi & HSi & Hfirst).
        exists [], item, rest, i. repeat split; try done.
        intros item' j Hin. by apply not_elem_of_nil in Hin.
      * intros Hg. apply Hskip; [by apply IH|]. intros _.
        by apply GetInstanceGroup_parts_None.
    + intros Hg. apply Hskip; [by apply IH|]. intros _ j Hj.
      destruct (segments (Value item) !! S j) as [g'|] eqn:HSj; [|done].
      rewrite (segments_Contains (Value item) j) in Hc; [done|exact Hj|eauto].
  - intros Hg. apply Hskip; [by apply IH|]. intros Hkey.
    apply bool_decide_eq_false in Hk. done.
Qed.

(** The group key of a record, in the words of the extraction rule. *)
Lemma GetInstanceGroup_firstGroupEntry (vm : VM) (g : string) :
  g ≠ "" → GetInstanceGroup vm = g ↔ firstGroupEntry vm g.
Proof.
  intros Hne. unfold GetInstanceGroup, firstGroupEntry. split.
  - destruct (VMMetadata vm) as [md|]; [|congruence]. intros Hg. exists md.
    split; [done|]. by apply GetInstanceGroup_firstGroupItem.
  - intros (md & -> & Hfirst). by apply firstGroupItem_GetInstanceGroup.
Qed.

Lemma firstGroupEntry_hasGroupEntry (vm : VM) (g : string) :
  firstGroupEntry vm g → hasGroupEntry vm g.
Proof.
  intros (md & Hmd & before & item & after & i & Hitems & Hkey & Hi & HSi & _).
  exists md, item, i. repeat split; try done. rewrite Hitems.
  apply elem_of_app. right. left.
Qed.

Lemma GetInstanceGroup_ungrouped (vm : VM) :
  GetInstanceGroup vm = "" ↔ ¬ ∃ g, g ≠ "" ∧ firstGroupEntry vm g.
Proof.
  split.
  - intros Hg (g & Hne & Hfirst). apply GetInstanceGroup_firstGroupEntry in Hfirst; [|done].
    congruence.
  - intros Hno. destruct (decide (GetInstanceGroup vm = "")) as [|Hne]; [done|].
    exfalso. apply Hno. exists (GetInstanceGroup vm). split; [done|].
    by apply GetInstanceGroup_firstGroupEntry.
Qed.


Lemma elem_of_cells (h : store) (ps : list loc) (n : TreeNode) :
  n ∈ cells h ps ↔ ∃ p, p ∈ ps ∧ h !!! p = n.
Proof.
  unfold cells. rewrite list_elem_of_fmap. split.
  - intros (p & -> & Hp). eauto.
  - intros (p & Hp & <-). eauto.
Qed.

Lemma elem_of_membersOf (g : string) (vms : list VM) (vm : VM) :
  vm ∈ membersOf g vms ↔ GetInstanceGroup vm = g ∧ vm ∈ vms.
Proof. unfold membersOf. apply (list_elem_of_filter (λ vm, GetInstanceGroup vm = g)). Qed.

(** A record lands under the group node named by its non-empty group key. *)
Lemma landsUnder_GetInstanceGroup (tm : TreeManager) (h : store) (vms : list VM)
    (vm : VM) (g : string) :
  vm ∈ vms → landsUnder tm h vms vm g ↔ g ≠ "" ∧ GetInstanceGroup vm = g.
Proof.
  intros Hvm. unfold landsUnder.
  destruct (BuildFromVMs_layout vms tm h) as (groupLocs & instLocs & Hnodes & Hgroups & Hinst).
  rewrite Hnodes. split.
  - intros (p & c & Hp & Htype & Hname & Hc & Hvmc).
    apply elem_of_app in Hp as [Hp|Hp].
    + apply list_elem_of_lookup in Hp as [i Hi].
      destruct (Forall2_lookup_l _ _ _ _ _ Hgroups Hi) as (g' & Hg' & kids & Hcell & Hkids).
      rewrite Hcell in Hname, Hc. simpl in Hname, Hc. subst g'.
      assert ((BuildFromVMs vms tm h).2 !!! c ∈ cells (BuildFromVMs vms tm h).2 kids) as Hin
        by (apply elem_of_cells; eauto).
      rewrite Hkids in Hin. apply list_elem_of_fmap in Hin as (vm' & Hcellc & Hvm').
      rewrite Hcellc in Hvmc. simpl in Hvmc. injection Hvmc as ->.
      apply elem_of_membersOf in Hvm' as [Hg _]. split; [|done].
      apply list_elem_of_lookup_2 in Hg'. by apply elem_of_groupNamesOf in Hg' as [? _].
    + assert ((BuildFromVMs vms tm h).2 !!! p ∈ cells (BuildFromVMs vms tm h).2 instLocs)
        as Hin by (apply elem_of_cells; eauto).
      rewrite Hinst in Hin. apply list_elem_of_fmap in Hin as (vm' & Hcell & _).
      rewrite Hcell in Htype. done.
  - intros [Hne Hg].
    assert (g ∈ groupNamesOf vms) as Hin by (apply elem_of_groupNamesOf; eauto).
    apply list_elem_of_lookup in Hin as [i Hi].
    destruct (Forall2_lookup_r _ _ _ _ _ Hgroups Hi) as (p & Hp & kids & Hcell & Hkids).
    assert (instanceCell g 1 vm ∈ cells (BuildFromVMs vms tm h).2 kids) as Hc.
    { rewrite Hkids. apply list_elem_of_fmap. exists vm. split; [done|].
      by apply elem_of_membersOf. }
    apply elem_of_cells in Hc as (c & Hc & Hcellc).
    exists p, c. rewrite Hcell, Hcellc. simpl. repeat split; try done.
    apply elem_of_app. left. by eapply list_elem_of_lookup_2.
Qed.

(** A record is a top-level instance node exactly when its group key is empty. *)
Lemma landsUngrouped_GetInstanceGroup (tm : TreeManager) (h : store) (vms : list VM)
    (vm : VM) :
  vm ∈ vms → landsUngrouped tm h vms vm ↔ GetInstanceGroup vm = "".
Proof.
  intros Hvm. unfold landsUngrouped.
  destruct (BuildFromVMs_layout vms tm h) as (groupLocs & instLocs & Hnodes & Hgroups & Hinst).
  rewrite Hnodes. split.
  - intros (p & Hp & Htype & Hvmp). apply elem_of_app in Hp as [Hp|Hp].
    + apply list_elem_of_lookup in Hp as [i Hi].
      destruct (Forall2_lookup_l _ _ _ _ _ Hgroups Hi) as (g' & Hg' & kids & Hcell & Hkids).
      rewrite Hcell in Htype. done.
    + assert ((BuildFromVMs vms tm h).2 !!! p ∈ cells (BuildFromVMs vms tm h).2 instLocs)
        as Hin by (apply elem_of_cells; eauto).
      rewrite Hinst in Hin. apply list_elem_of_fmap in Hin as (vm' & Hcell & Hvm').
      rewrite Hcell in Hvmp. simpl in Hvmp. injection Hvmp as ->.
      by apply elem_of_membersOf in Hvm' as [? _].
  - intros Hg.
    assert (instanceCell "" 0 vm ∈ cells (BuildFromVMs vms tm h).2 instLocs) as Hc.
    { rewrite Hinst. apply list_elem_of_fmap. exists vm. split; [done|].
      by apply elem_of_membersOf. }
    apply elem_of_cells in Hc as (p & Hp & Hcell).
    exists p. rewrite Hcell. simpl. repeat split; try done.
    apply elem_of_app. by right.
Qed.

(** C2, amended.  For every sequence of records and every record [vm] of
    it: [vm] is filed under the group node [g] iff [g] is not empty and is
    the segment after the first [instanceGroupManagers] segment that has a
    next segment, in the first [created-by] entry whose value has such a
    segment; being filed under [g] needs a [created-by] entry with
    [instanceGroupManagers] followed by [g]; a record is a top-level
    (ungrouped) node iff no non-empty [g] is found that way, so every
    record without such an entry, and every record without metadata, is
    ungrouped. *)
Theorem grouping_by_first_entry (tm : TreeManager) (h : store) (vms : list VM) (vm : VM) :
  vm ∈ vms →
  (∀ g, landsUnder tm h vms vm g ↔ g ≠ "" ∧ firstGroupEntry vm g) ∧
  (∀ g, landsUnder tm h vms vm g → hasGroupEntry vm g) ∧
  (landsUngrouped tm h vms vm ↔ ¬ ∃ g, g ≠ "" ∧ firstGroupEntry vm g) ∧
  ((∀ g, ¬ hasGroupEntry vm g) → landsUngrouped tm h vms vm) ∧
  (VMMetadata vm = None → landsUngrouped tm h vms vm).
Proof.
  intros Hvm.
  assert (∀ g, landsUnder tm h vms vm g ↔ g ≠ "" ∧ firstGroupEntry vm g) as Hunder.
  { intros g. rewrite landsUnder_GetInstanceGroup by done. split.
    - intros [Hne Hg]. split; [done|]. by apply GetInstanceGroup_firstGroupEntry.
    - intros [Hne Hg]. split; [done|]. by apply GetInstanceGroup_firstGroupEntry. }
  assert (landsUngrouped tm h vms vm ↔ ¬ ∃ g, g ≠ "" ∧ firstGroupEntry vm g) as Hun.
  { rewrite landsUngrouped_GetInstanceGroup by done. apply GetInstanceGroup_ungrouped. }
  split; [exact Hunder|]. split; [|split; [exact Hun|split]].
  - intros g Hl. apply Hunder in Hl as [_ Hf]. by apply firstGroupEntry_hasGroupEntry.
  - intros Hno. apply Hun. intros (g & _ & Hf). apply (Hno g).
    by apply firstGroupEntry_hasGroupEntry.
  - intros Hnone. apply Hun. intros (g & _ & md & Hmd & _). congruence.
Qed.

End Grouping.

Lemma grouping_by_first_entry_witness :
  web1 ∈ scenario ∧
  (∀ g, landsUnder plainManager [] scenario web1 g ↔ g ≠ "" ∧ firstGroupEntry web1 g) ∧
  (∀ g, landsUnder plainManager [] scenario web1 g → hasGroupEntry web1 g) ∧
  (landsUngrouped plainManager [] scenario web1 ↔ ¬ ∃ g, g ≠ "" ∧ firstGroupEntry web1 g) ∧
  ((∀ g, ¬ hasGroupEntry web1 g) → landsUngrouped plainManager [] scenario web1) ∧
  (VMMetadata web1 = None → landsUngrouped plainManager [] scenario web1).
Proof.
  split; [|apply (grouping_by_first_entry plainManager [] scenario web1)];
    apply list_elem_of_here.
Defined.

Example GetInstanceGroup_scenario :
  GetInstanceGroup <$> scenario = ["web-fleet"; "web-fleet"; ""] ∧
  GetInstanceGroup twoEntries = "blue" ∧
  GetInstanceGroup trailingSlash = "".
Proof. by vm_compute. Qed.

(** C2 as stated fails.  [twoEntries] has a [created-by] entry with
    [instanceGroupManagers] followed by [green], and is filed under [blue],
    not under [green]; [trailingSlash] has such an entry followed by the
    empty segment, and is filed under no group at all. *)
Lemma grouping_not_by_any_entry :
  (hasGroupEntry twoEntries "green" ∧
   ¬ landsUnder plainManager [] [twoEntries] twoEntries "green" ∧
   landsUnder plainManager [] [twoEntries] twoEntries "blue") ∧
  (hasGroupEntry trailingSlash "" ∧
   ¬ landsUnder plainManager [] [trailingSlash] trailingSlash "" ∧
   landsUngrouped plainManager [] [trailingSlash] trailingSlash).
Proof.
  split; split.
  - eexists _, {| Key := "created-by";
                  Value := "projects/p/zones/z/instanceGroupManagers/green" |}, 4.
    split; [reflexivity|]. split; [apply list_elem_of_further, list_elem_of_here|].
    by vm_compute.
  - split.
    + rewrite landsUnder_GetInstanceGroup by apply list_elem_of_here.
      intros [_ Hg]. by vm_compute in Hg.
    + rewrite landsUnder_GetInstanceGroup by apply list_elem_of_here.
      split; [done|]. by vm_compute.
  - eexists _, _, 4. split; [reflexivity|]. split; [apply list_elem_of_here|].
    by vm_compute.
  - split.
    + rewrite landsUnder_GetInstanceGroup by apply list_elem_of_here. by intros [? _].
    + rewrite landsUngrouped_GetInstanceGroup by apply list_elem_of_here. by vm_compute.
Qed.

(** ** Flattening *)

Section Flatten.
Context `{Lipgloss}.

Lemma FlattenForDisplay_eq (tm : TreeManager) (h : store) :
  FlattenForDisplay tm h = concat (rowsOf h <$> nodes tm).
Proof.
  unfold FlattenForDisplay.
  assert (∀ l acc,
            foldl (λ result node,
                     let result := result ++ [node] in
                     if bool_decide (Type_ (h !!! node) = GroupNode) && IsExpanded (h !!! node)
                     then result ++ Children (h !!! node) else result) acc l
            = acc ++ concat (rowsOf h <$> l)) as Hgen.
  { induction l as [|p l IH]; intros acc; simpl; [by rewrite app_nil_r|].
    rewrite IH. unfold rowsOf.
    destruct (IsExpanded (h !!! p)), (decide (Type_ (h !!! p) = GroupNode)) as [Ht|Ht].
    - rewrite !bool_decide_eq_true_2 by done. simpl. by rewrite <- !app_assoc.
    - rewrite !bool_decide_eq_false_2 by tauto. simpl. by rewrite <- !app_assoc.
    - rewrite bool_decide_eq_true_2, bool_decide_eq_false_2 by (done || by intros [_ ?]).
      simpl. by rewrite <- !app_assoc.
    - rewrite !bool_decide_eq_false_2 by tauto. simpl. by rewrite <- !app_assoc. }
  by rewrite Hgen.
Qed.

Lemma FlattenForDisplay_app (tm : TreeManager) (h : store) (l1 l2 : list loc) :
  FlattenForDisplay (set_nodes (l1 ++ l2) tm) h =
  FlattenForDisplay (set_nodes l1 tm) h ++ FlattenForDisplay (set_nodes l2 tm) h.
Proof. rewrite !FlattenForDisplay_eq. simpl. by rewrite fmap_app, concat_app. Qed.

Lemma concat_lookup_block {A} (f : loc → list A) (l : list loc) (i : nat) (x : A) :
  concat (f <$> l) !! i = Some x →
  ∃ before p after j,
    l = before ++ p :: after ∧ i = length (concat (f <$> before)) + j ∧ f p !! j = Some x.
Proof.
  revert i. induction l as [|p l IH]; intros i Hi; [done|].
  rewrite fmap_cons in Hi.
  change (concat (f p :: (f <$> l))) with (f p ++ concat (f <$> l)) in Hi.
  destruct (decide (i < length (f p))) as [Hlt|Hge].
  - rewrite lookup_app_l in Hi by done. exists [], p, l, i. done.
  - rewrite lookup_app_r in Hi by lia.
    destruct (IH _ Hi) as (before & q & after & j & -> & Hij & Hj).
    exists (p :: before), q, after, j. repeat split; [|done].
    rewrite fmap_cons.
    change (concat (f p :: (f <$> before))) with (f p ++ concat (f <$> before)).
    rewrite length_app. lia.
Qed.

(** C3. Flattening emits the top-level nodes in order, each immediately
    followed by its children exactly when it is a Group whose [IsExpanded]
    flag is set: around any top-level node [p] the display is the display
    of the nodes before it, then [p], then the children of [p] if it is an
    expanded group and nothing otherwise, then the display of the nodes
    after it.  Every row lies in the block of one top-level node, which
    heads the block; so a child row is separated from its parent's row by
    rows of the same parent's children only, and a collapsed group
    contributes its own row alone. *)
Theorem FlattenForDisplay_blocks (tm : TreeManager) (h : store) :
  FlattenForDisplay tm h = concat (rowsOf h <$> nodes tm) ∧
  (∀ before p after,
     nodes tm = before ++ p :: after →
     FlattenForDisplay tm h =
       FlattenForDisplay (set_nodes before tm) h
       ++ p :: (if bool_decide (Type_ (h !!! p) = GroupNode ∧ IsExpanded (h !!! p) = true)
                then Children (h !!! p) else [])
       ++ FlattenForDisplay (set_nodes after tm) h) ∧
  (∀ i c,
     FlattenForDisplay tm h !! i = Some c →
     ∃ before p after j,
       nodes tm = before ++ p :: after ∧
       i = length (FlattenForDisplay (set_nodes before tm) h) + j ∧
       rowsOf h p !! j = Some c) ∧
  (∀ p, IsExpanded (h !!! p) = false → rowsOf h p = [p]) ∧
  (∀ p, Type_ (h !!! p) = InstanceNode → rowsOf h p = [p]).
Proof.
  split; [apply FlattenForDisplay_eq|]. split; [|split; [|split]].
  - intros before p after Hn. rewrite !FlattenForDisplay_eq, Hn. simpl.
    by rewrite fmap_app, concat_app.
  - intros i c Hi. rewrite FlattenForDisplay_eq in Hi.
    destruct (concat_lookup_block _ _ _ _ Hi) as (before & p & after & j & Hn & Hij & Hj).
    exists before, p, after, j. by rewrite FlattenForDisplay_eq.
  - intros p Hp. unfold rowsOf. rewrite bool_decide_eq_false_2; [done|].
    intros [_ ?]. congruence.
  - intros p Hp. unfold rowsOf. rewrite bool_decide_eq_false_2; [done|].
    intros [? _]. congruence.
Qed.

End Flatten.

(** ** Filtering *)

Section Filtering.
Context `{GoStrings} `{Lipgloss}.

Lemma Filter_matchingChildren_eq (query : string) (n : TreeNode) (h : store) :
  Filter_matchingChildren (ToLower query) (Children n) h = matchingChildrenOf h query n.
Proof.
  unfold Filter_matchingChildren, matchingChildrenOf.
  assert (∀ l acc,
            foldl (λ matchingChildren child,
                     if strings.Contains (ToLower (Name (h !!! child))) (ToLower query)
                     then matchingChildren ++ [child] else matchingChildren) acc l
            = acc ++ filter (λ c, nameMatches query (h !!! c)) l) as Hgen.
  { induction l as [|c l IH]; intros acc; simpl; [by rewrite app_nil_r|].
    rewrite IH, filter_cons. unfold nameMatches.
    destruct (strings.Contains (ToLower (Name (h !!! c))) (ToLower query)); simpl; [|done].
    by rewrite <- app_assoc. }
  by rewrite Hgen.
Qed.

(** Reading below the allocation mark of a closed list does not see what
    was allocated since. *)
Lemma matchingChildrenOf_extend (h grown : store) (query : string) (n : TreeNode) :
  Forall (λ c, c < length h) (Children n) →
  matchingChildrenOf (h ++ grown) query n = matchingChildrenOf h query n.
Proof.
  intros Hc. unfold matchingChildrenOf.
  induction Hc as [|c l Hlt Hc IH]; [done|].
  rewrite !filter_cons, IH. by rewrite lookup_total_app_l.
Qed.


Lemma omap_cons {A B} (f : A → option B) (x : A) (l : list A) :
  omap f (x :: l) = match f x with Some y => y :: omap f l | None => omap f l end.
Proof. reflexivity. Qed.

(** What the loop of [Filter] returns on a closed list of nodes of the
    store [h0], started when the store has grown to [h0 ++ grown]: the
    store only grows, the cells behind the returned slice are the outcomes
    of [filterRule] in input order, and the returned slice is closed. *)
Lemma Filter_loop_spec (query : string) (nodes filtered : list loc) (h0 grown : store) :
  closed h0 nodes →
  ∃ locs ext,
    Filter_loop (ToLower query) nodes filtered (h0 ++ grown)
      = (filtered ++ locs, (h0 ++ grown) ++ ext) ∧
    cells ((h0 ++ grown) ++ ext) locs = omap (filterRule h0 query) (cells h0 nodes) ∧
    Forall (λ p, p < length ((h0 ++ grown) ++ ext) ∧
                 Forall (λ c, c < length h0) (Children (((h0 ++ grown) ++ ext) !!! p))) locs.
Proof.
  revert filtered grown. induction nodes as [|p0 rest IH]; intros filtered grown Hclosed.
  - exists [], []. rewrite !app_nil_r. by repeat split.
  - apply Forall_cons in Hclosed as [[Hp0 Hkids] Hrest].
    cbn [Filter_loop]. rewrite (lookup_total_app_l h0 grown p0) by done.
    rewrite Filter_matchingChildren_eq, matchingChildrenOf_extend by done.
    change (cells h0 (p0 :: rest)) with (h0 !!! p0 :: cells h0 rest).
    rewrite omap_cons. unfold filterRule at 1.
    change (strings.Contains (ToLower (Name (h0 !!! p0))) (ToLower query))
      with (nameMatches query (h0 !!! p0)).
    set (n := h0 !!! p0) in *.
    assert (∀ kids, Forall (λ c, c < length h0) kids →
              ∃ locs ext,
                Filter_loop (ToLower query) rest
                  (filtered ++ [length (h0 ++ grown)])
                  ((h0 ++ grown) ++ [derivedGroup n kids])
                = (filtered ++ locs, (h0 ++ grown) ++ ext) ∧
                cells ((h0 ++ grown) ++ ext) locs
                = derivedGroup n kids :: omap (filterRule h0 query) (cells h0 rest) ∧
                Forall (λ p, p < length ((h0 ++ grown) ++ ext) ∧
                             Forall (λ c, c < length h0)
                               (Children (((h0 ++ grown) ++ ext) !!! p))) locs) as Hderived.
    { intros kids Hk.
      destruct (IH (filtered ++ [length (h0 ++ grown)]) (grown ++ [derivedGroup n kids]) Hrest)
        as (locs & ext & Heq & Hcells & Hall).
      rewrite !app_assoc in Heq, Hcells, Hall.
      exists (length (h0 ++ grown) :: locs), (derivedGroup n kids :: ext).
      replace ((h0 ++ grown) ++ derivedGroup n kids :: ext)
        with (((h0 ++ grown) ++ [derivedGroup n kids]) ++ ext) by (by rewrite <- app_assoc).
      split; [by rewrite Heq, <- app_assoc|].
      assert ((((h0 ++ grown) ++ [derivedGroup n kids]) ++ ext) !!! length (h0 ++ grown)
              = derivedGroup n kids) as Hnew.
      { rewrite <- app_assoc. by apply list_lookup_total_middle. }
      split.
      - change (cells ?h (?p :: ?l)) with (h !!! p :: cells h l). by rewrite Hnew, Hcells.
      - constructor; [|done]. rewrite Hnew. split; [|done].
        rewrite !length_app. simpl. lia. }
    destruct (Type_ n) eqn:Ht.
    + rewrite decide_True by done. destruct (nameMatches query n).
      * cbn [alloc]. by apply Hderived.
      * destruct (matchingChildrenOf h0 query n) as [|c kids] eqn:Hm.
        -- rewrite decide_False by (simpl; lia). by apply IH.
        -- rewrite decide_True by (simpl; lia). cbn [alloc]. apply Hderived.
           rewrite <- Hm. unfold matchingChildrenOf. apply Forall_forall.
           intros c' Hc'. apply list_elem_of_filter in Hc' as [_ Hc'].
           rewrite Forall_forall in Hkids. by apply Hkids.
    + rewrite decide_False by done. destruct (nameMatches query n).
      * destruct (IH (filtered ++ [p0]) grown Hrest) as (locs & ext & Heq & Hcells & Hall).
        exists (p0 :: locs), ext. split; [by rewrite Heq, <- app_assoc|].
        assert (((h0 ++ grown) ++ ext) !!! p0 = n) as Hold.
        { rewrite <- app_assoc. by apply lookup_total_app_l. }
        split.
        -- change (cells ?h (?p :: ?l)) with (h !!! p :: cells h l). by rewrite Hold, Hcells.
        -- constructor; [|done]. rewrite Hold. split; [|done].
           rewrite !length_app. lia.
      * by apply IH.
Qed.


Lemma lookup_total_ge_zero (h : store) (p : loc) : length h ≤ p → h !!! p = TreeNode_zero.
Proof.
  intros Hge. rewrite list_lookup_total_alt. by rewrite lookup_ge_None_2.
Qed.

Lemma filterOrigin_grow (h h' : store) (d : TreeNode) (rest : list loc) (p0 p : loc) :
  Type_ d = GroupNode →
  filterOrigin (h ++ [d]) h' rest p → filterOrigin h h' (p0 :: rest) p.
Proof.
  intros Hd [(Hlt & Hin & Ht)|(Hge & Ht & He)].
  - rewrite length_app in Hlt. simpl in Hlt.
    destruct (decide (p < length h)) as [Hp|Hp].
    + left. rewrite lookup_total_app_l in Ht by done. split; [done|].
      split; [by apply list_elem_of_further|done].
    + assert (p = length h) as -> by lia.
      rewrite list_lookup_total_middle in Ht by done. congruence.
  - right. rewrite length_app in Hge. simpl in Hge. split; [lia|done].
Qed.

Lemma filterOrigin_further (h h' : store) (rest : list loc) (p0 p : loc) :
  filterOrigin h h' rest p → filterOrigin h h' (p0 :: rest) p.
Proof.
  intros [(Hlt & Hin & Ht)|Hfresh]; [left|by right].
  split; [done|]. split; [by apply list_elem_of_further|done].
Qed.

(** The frame of the loop of [Filter], on any store and any slice: the
    store only grows, and every returned pointer is an Instance pointer of
    the input or a fresh expanded Group node. *)
Lemma Filter_loop_frame (filterLower : string) (nodes filtered : list loc) (h : store) :
  ∃ locs ext,
    Filter_loop filterLower nodes filtered h = (filtered ++ locs, h ++ ext) ∧
    Forall (filterOrigin h (h ++ ext) nodes) locs.
Proof.
  revert filtered h. induction nodes as [|p0 rest IH]; intros filtered h.
  - exists [], []. rewrite !app_nil_r. by split.
  - cbn [Filter_loop].
    assert (∀ d, Type_ d = GroupNode → IsExpanded d = true →
              ∃ locs ext,
                Filter_loop filterLower rest (filtered ++ [length h]) (h ++ [d])
                = (filtered ++ locs, h ++ ext) ∧
                Forall (filterOrigin h (h ++ ext) (p0 :: rest)) locs) as Hderived.
    { intros d Hd He.
      destruct (IH (filtered ++ [length h]) (h ++ [d])) as (locs & ext & Heq & Hall).
      rewrite <- app_assoc in Hall. simpl in Hall.
      exists (length h :: locs), (d :: ext). split; [rewrite Heq; by rewrite <- !app_assoc|].
      constructor.
      - right. rewrite length_app. simpl. split; [lia|].
        by rewrite list_lookup_total_middle.
      - eapply Forall_impl; [exact Hall|]. intros p. by apply filterOrigin_grow. }
    assert (∃ locs ext,
              Filter_loop filterLower rest filtered h = (filtered ++ locs, h ++ ext) ∧
              Forall (filterOrigin h (h ++ ext) (p0 :: rest)) locs) as Hskip.
    { destruct (IH filtered h) as (locs & ext & Heq & Hall).
      exists locs, ext. split; [done|].
      eapply Forall_impl; [exact Hall|]. intros p. apply filterOrigin_further. }
    case_decide as Ht.
    + destruct (strings.Contains _ _); [by apply Hderived|].
      case_decide; [by apply Hderived|exact Hskip].
    + destruct (strings.Contains _ _); [|exact Hskip].
      destruct (IH (filtered ++ [p0]) h) as (locs & ext & Heq & Hall).
      exists (p0 :: locs), ext. split; [by rewrite Heq, <- app_assoc|].
      constructor.
      * left. assert (p0 < length h) as Hlt.
        { destruct (decide (p0 < length h)) as [|Hge]; [done|]. exfalso. apply Ht.
          rewrite lookup_total_ge_zero by lia. done. }
        split; [done|]. split; [apply list_elem_of_here|].
        by destruct (Type_ (h !!! p0)).
      * eapply Forall_impl; [exact Hall|]. intros p. apply filterOrigin_further.
Qed.


Lemma Forall_matchingChildrenOf (P : loc → Prop) (h : store) (query : string) (n : TreeNode) :
  Forall P (Children n) → Forall P (matchingChildrenOf h query n).
Proof.
  intros Hall. unfold matchingChildrenOf. apply Forall_forall. intros c Hc.
  apply list_elem_of_filter in Hc as [_ Hc]. rewrite Forall_forall in Hall. by apply Hall.
Qed.

(** A node the rule has emitted is emitted unchanged when the rule is
    applied to it again, also after the store has grown. *)
Lemma filterRule_fixed (h ext : store) (query : string) (n n' : TreeNode) :
  Forall (λ c, c < length h) (Children n) →
  filterRule h query n = Some n' → filterRule (h ++ ext) query n' = Some n'.
Proof.
  intros Hkids. unfold filterRule. destruct (Type_ n) eqn:Ht.
  - destruct (nameMatches query n) eqn:Hm.
    + intros [= <-]. simpl. change (nameMatches query (derivedGroup n (Children n)))
        with (nameMatches query n). by rewrite Hm.
    + destruct (matchingChildrenOf h query n) as [|c kids] eqn:Hk; [done|].
      intros [= <-]. simpl. change (nameMatches query (derivedGroup n (c :: kids)))
        with (nameMatches query n). rewrite Hm.
      assert (matchingChildrenOf (h ++ ext) query (derivedGroup n (c :: kids)) = c :: kids)
        as ->; [|done].
      rewrite matchingChildrenOf_extend.
      * unfold matchingChildrenOf. simpl. rewrite <- Hk. unfold matchingChildrenOf.
        by apply list_filter_filter_l.
      * simpl. rewrite <- Hk. by apply Forall_matchingChildrenOf.
  - destruct (nameMatches query n) eqn:Hm; [|done]. intros [= <-]. by rewrite Ht, Hm.
Qed.

Lemma omap_filterRule_fixed (h ext : store) (query : string) (l : list TreeNode) :
  Forall (λ n, Forall (λ c, c < length h) (Children n)) l →
  omap (filterRule (h ++ ext) query) (omap (filterRule h query) l)
  = omap (filterRule h query) l.
Proof.
  induction 1 as [|n l Hn Hl IH]; [done|]. rewrite omap_cons.
  destruct (filterRule h query n) as [n'|] eqn:Hr; [|done].
  rewrite omap_cons. by rewrite (filterRule_fixed h ext query n n'), IH.
Qed.

Lemma closed_cells (h : store) (nodes : list loc) :
  closed h nodes → Forall (λ n, Forall (λ c, c < length h) (Children n)) (cells h nodes).
Proof.
  intros Hc. unfold cells. apply Forall_fmap. eapply Forall_impl; [exact Hc|].
  by intros p [_ ?].
Qed.

(** [Filter] on a closed list, in one statement. *)
Lemma Filter_spec (nodes : list loc) (query : string) (h : store) :
  closed h nodes → query ≠ "" →
  ∃ ext,
    (Filter nodes query h).2 = h ++ ext ∧
    cells (h ++ ext) (Filter nodes query h).1 = omap (filterRule h query) (cells h nodes) ∧
    Forall (λ p, p < length (h ++ ext) ∧
                 Forall (λ c, c < length h) (Children ((h ++ ext) !!! p)))
      (Filter nodes query h).1.
Proof.
  intros Hc Hq. unfold Filter. rewrite decide_False by done.
  destruct (Filter_loop_spec query nodes [] h [] Hc) as (locs & ext & Heq & Hcells & Hall).
  rewrite !app_nil_r in Heq, Hcells, Hall. rewrite Heq. simpl. eauto.
Qed.

Lemma Filter_frame_spec (nodes : list loc) (query : string) (h : store) :
  query ≠ "" →
  ∃ ext,
    (Filter nodes query h).2 = h ++ ext ∧
    Forall (filterOrigin h (h ++ ext) nodes) (Filter nodes query h).1.
Proof.
  intros Hq. unfold Filter. rewrite decide_False by done.
  destruct (Filter_loop_frame (ToLower query) nodes [] h) as (locs & ext & Heq & Hall).
  rewrite Heq. simpl. eauto.
Qed.

Lemma Filter_empty (nodes : list loc) (h : store) : Filter nodes "" h = (nodes, h).
Proof. unfold Filter. by rewrite decide_True. Qed.

Lemma Filter_extends (nodes : list loc) (query : string) (h : store) :
  ∃ ext, (Filter nodes query h).2 = h ++ ext.
Proof.
  destruct (decide (query = "")) as [->|Hq].
  - exists []. by rewrite Filter_empty, app_nil_r.
  - destruct (Filter_frame_spec nodes query h Hq) as (ext & ? & _). eauto.
Qed.

(** C1. On a closed list of nodes: the empty query returns the slice and
    the store as they are.  For a non-empty query the cells behind the
    returned slice are, in input order, the outcomes of [filterRule] on the
    input cells, and the input cells are still what they were; every Group
    node returned is expanded.  [filterRule] keeps a Group whose name
    matches with all its children, keeps a Group whose name does not match
    but some child's name does with exactly the matching children, drops a
    Group with no match, and keeps an Instance iff its name matches.
    Matching reads names only, and only through [ToLower]: two queries, or
    two names, with the same lower-case form are treated alike. *)
Theorem Filter_by_rule (nodes : list loc) (query : string) (h : store) :
  closed h nodes →
  let res := (Filter nodes query h).1 in
  let h' := (Filter nodes query h).2 in
  (query = "" → res = nodes ∧ h' = h) ∧
  (query ≠ "" →
     cells h' res = omap (filterRule h query) (cells h nodes) ∧
     (∀ p, p ∈ res → Type_ (h' !!! p) = GroupNode → IsExpanded (h' !!! p) = true) ∧
     (∀ c, c < length h → h' !!! c = h !!! c)) ∧
  (∀ n,
     (Type_ n = GroupNode → nameMatches query n = true →
        filterRule h query n = Some (derivedGroup n (Children n))) ∧
     (Type_ n = GroupNode → nameMatches query n = false →
        matchingChildrenOf h query n ≠ [] →
        filterRule h query n = Some (derivedGroup n (matchingChildrenOf h query n))) ∧
     (Type_ n = GroupNode → nameMatches query n = false →
        matchingChildrenOf h query n = [] → filterRule h query n = None) ∧
     (Type_ n = InstanceNode →
        filterRule h query n = if nameMatches query n then Some n else None) ∧
     (∀ c, c ∈ matchingChildrenOf h query n ↔
             c ∈ Children n ∧ nameMatches query (h !!! c) = true)) ∧
  (∀ query', query ≠ "" → query' ≠ "" → ToLower query' = ToLower query →
     Filter nodes query' h = Filter nodes query h) ∧
  (∀ n n', ToLower (Name n) = ToLower (Name n') → nameMatches query n = nameMatches query n').
Proof.
  intros Hc res h'. split; [|split; [|split; [|split]]].
  - intros ->. subst res h'. by rewrite Filter_empty.
  - intros Hq. subst res h'.
    destruct (Filter_spec nodes query h Hc Hq) as (ext & Hh' & Hcells & Hall).
    destruct (Filter_frame_spec nodes query h Hq) as (ext' & Hh'' & Horigin).
    rewrite Hh'. split; [done|]. split.
    + intros p Hp Ht. rewrite Hh' in Hh''. apply app_inv_head in Hh''. subst ext'.
      rewrite Forall_forall in Horigin.
      destruct (Horigin p Hp) as [(Hlt & _ & Hi)|(_ & _ & He)]; [|done].
      rewrite lookup_total_app_l in Ht by done. congruence.
    + intros c Hlt. by apply lookup_total_app_l.
  - intros n. unfold filterRule. split; [|split; [|split; [|split]]].
    + by intros -> ->.
    + intros -> -> Hk. by destruct (matchingChildrenOf h query n).
    + by intros -> -> ->.
    + by intros ->.
    + intros c. unfold matchingChildrenOf. rewrite list_elem_of_filter.
      rewrite Is_true_true. tauto.
  - intros query' Hq Hq' Hlow. unfold Filter. rewrite !decide_False by done.
    by rewrite Hlow.
  - intros n n' Hn. unfold nameMatches. by rewrite Hn.
Qed.

(** C9. [Filter] never writes to a cell of its input: the store it leaves
    is the input store followed by the cells it allocated, so every node
    that existed before the call still has the same type, name, record,
    group name, expansion flag, children and depth.  The empty query
    returns the input slice itself.  For a non-empty query every returned
    pointer is one of the Instance pointers handed in or a location
    allocated by the call; the Group nodes of the result are all of the
    second kind: fresh cells, expanded, and none of them a node of the
    input. *)
Theorem Filter_frame (nodes : list loc) (query : string) (h : store) :
  let res := (Filter nodes query h).1 in
  let h' := (Filter nodes query h).2 in
  (∃ ext, h' = h ++ ext) ∧
  (∀ p n, h !! p = Some n → h' !! p = Some n) ∧
  (query = "" → res = nodes ∧ h' = h) ∧
  (query ≠ "" → ∀ p, p ∈ res → filterOrigin h h' nodes p) ∧
  (query ≠ "" → ∀ p, p ∈ res → Type_ (h' !!! p) = GroupNode →
     IsExpanded (h' !!! p) = true ∧ length h ≤ p < length h' ∧
     (Forall (λ q, q < length h) nodes → p ∉ nodes)).
Proof.
  intros res h'. subst res h'.
  assert (∃ ext, (Filter nodes query h).2 = h ++ ext ∧
                 (query ≠ "" →
                  Forall (filterOrigin h (h ++ ext) nodes) (Filter nodes query h).1))
    as (ext & Hh' & Horigin).
  { destruct (decide (query = "")) as [->|Hq].
    - exists []. rewrite Filter_empty, app_nil_r. by split.
    - destruct (Filter_frame_spec nodes query h Hq) as (ext & ? & ?). eauto. }
  rewrite Hh'. split; [eauto|]. split; [|split; [|split]].
  - intros p n Hp. by apply lookup_app_l_Some.
  - intros ->. rewrite Filter_empty in *. simpl in *. by rewrite <- Hh'.
  - intros Hq p Hp. specialize (Horigin Hq). rewrite Forall_forall in Horigin. by apply Horigin.
  - intros Hq p Hp Ht. specialize (Horigin Hq). rewrite Forall_forall in Horigin.
    destruct (Horigin p Hp) as [(Hlt & _ & Hi)|(Hge & _ & He)].
    + rewrite lookup_total_app_l in Ht by done. congruence.
    + split; [done|]. split; [done|]. intros Hall Hin.
      rewrite Forall_forall in Hall. specialize (Hall p Hin). lia.
Qed.

(** C6. Filtering the outcome of a filter with the same query, in the
    store the first call left, returns nodes with the same contents in
    the same order (the Group nodes are new cells again, their contents
    and their children pointers are those of the first outcome), and
    leaves every cell of the first outcome as it was. *)
Theorem Filter_idempotent (nodes : list loc) (query : string) (h : store) :
  closed h nodes →
  let once := Filter nodes query h in
  let twice := Filter once.1 query once.2 in
  cells twice.2 twice.1 = cells once.2 once.1 ∧
  (∀ c, c < length once.2 → twice.2 !!! c = once.2 !!! c).
Proof.
  intros Hc once twice. subst once twice.
  destruct (decide (query = "")) as [->|Hq]; [by rewrite !Filter_empty|].
  destruct (Filter_spec nodes query h Hc Hq) as (ext & Hh' & Hcells & Hall).
  assert (closed (h ++ ext) (Filter nodes query h).1) as Hc'.
  { eapply Forall_impl; [exact Hall|]. intros p [Hp Hk]. split; [done|].
    eapply Forall_impl; [exact Hk|]. intros c Hlt. simpl in Hlt. rewrite length_app. lia. }
  rewrite Hh'.
  destruct (Filter_spec (Filter nodes query h).1 query (h ++ ext) Hc' Hq)
    as (ext2 & Hh2 & Hcells2 & _).
  rewrite Hh2. split; [|intros c Hlt; by apply lookup_total_app_l].
  rewrite Hcells2, Hcells. apply omap_filterRule_fixed. by apply closed_cells.
Qed.

End Filtering.

(** ** The end-to-end scenario *)

Example scenario_model :
  nodes scenarioManager = [0; 3] ∧
  scenarioStore =
    [groupCell "web-fleet" false [1; 2]; instanceCell "web-fleet" 1 web1;
     instanceCell "web-fleet" 1 web2; instanceCell "" 0 db1].
Proof. by vm_compute. Qed.

Example scenario_flatten_collapsed :
  names scenarioStore (FlattenForDisplay scenarioManager scenarioStore) = ["web-fleet"; "db-1"].
Proof. by vm_compute. Qed.

Example scenario_flatten_toggled :
  let h := ToggleNode scenarioManager 0 scenarioStore in
  names h (FlattenForDisplay scenarioManager h) = ["web-fleet"; "web-1"; "web-2"; "db-1"].
Proof. by vm_compute. Qed.

Example scenario_filter_web :
  let h := ToggleNode scenarioManager 0 scenarioStore in
  let '(res, h') := Filter (nodes scenarioManager) "web" h in
  cells h' res = [groupCell "web-fleet" true [1; 2]] ∧
  names h' (FlattenForDisplay (set_nodes res scenarioManager) h')
  = ["web-fleet"; "web-1"; "web-2"].
Proof. by vm_compute. Qed.

Example scenario_filter_db :
  let '(res, h') := Filter (nodes scenarioManager) "db" scenarioStore in
  res = [3] ∧ cells h' res = [instanceCell "" 0 db1].
Proof. by vm_compute. Qed.

Example scenario_filter_case :
  let '(res, h') := Filter (nodes scenarioManager) "WEB-2" scenarioStore in
  cells h' res = [groupCell "web-fleet" true [2]].
Proof. by vm_compute. Qed.

Lemma scenario_closed : closed scenarioStore (nodes scenarioManager).
Proof. apply (bool_decide_unpack _). by vm_compute. Defined.

Lemma Filter_by_rule_witness :
  closed scenarioStore (nodes scenarioManager) ∧
  cells (Filter (nodes scenarioManager) "WEB-2" scenarioStore).2
        (Filter (nodes scenarioManager) "WEB-2" scenarioStore).1
  = omap (filterRule scenarioStore "WEB-2") (cells scenarioStore (nodes scenarioManager)).
Proof.
  split; [exact scenario_closed|].
  by apply (Filter_by_rule (nodes scenarioManager) "WEB-2" scenarioStore scenario_closed).
Defined.

Lemma Filter_idempotent_witness :
  closed scenarioStore (nodes scenarioManager) ∧
  cells (Filter (Filter (nodes scenarioManager) "web" scenarioStore).1 "web"
           (Filter (nodes scenarioManager) "web" scenarioStore).2).2
        (Filter (Filter (nodes scenarioManager) "web" scenarioStore).1 "web"
           (Filter (nodes scenarioManager) "web" scenarioStore).2).1
  = cells (Filter (nodes scenarioManager) "web" scenarioStore).2
          (Filter (nodes scenarioManager) "web" scenarioStore).1.
Proof.
  split; [exact scenario_closed|].
  apply (Filter_idempotent (nodes scenarioManager) "web" scenarioStore scenario_closed).
Defined.

(** ** Toggling *)

Section Toggle.
Context `{GoStrings} `{Lipgloss}.

Lemma ToggleNode_loop_none (name : string) (nodes : list loc) (h : store) :
  (∀ p, p ∈ nodes → ¬ isGroupNamed h name p) → ToggleNode_loop name nodes h = h.
Proof.
  induction nodes as [|p rest IH]; intros Hno; [done|]. simpl.
  destruct (bool_decide (Type_ (h !!! p) = GroupNode)) eqn:Ht;
    destruct (bool_decide (Name (h !!! p) = name)) eqn:Hn; simpl;
    try (apply IH; intros p' Hp'; apply Hno; by apply list_elem_of_further).
  apply bool_decide_eq_true in Ht, Hn. exfalso. apply (Hno p); [apply list_elem_of_here|done].
Qed.

Lemma ToggleNode_loop_first (name : string) (before after : list loc) (p : loc) (h : store) :
  isGroupNamed h name p → (∀ p', p' ∈ before → ¬ isGroupNamed h name p') →
  ToggleNode_loop name (before ++ p :: after) h = alter flipExpanded p h.
Proof.
  intros [Ht Hn] Hno. induction before as [|p' before IH]; simpl.
  - by rewrite !bool_decide_eq_true_2.
  - destruct (bool_decide (Type_ (h !!! p') = GroupNode)) eqn:Ht';
      destruct (bool_decide (Name (h !!! p') = name)) eqn:Hn'; simpl;
      try (apply IH; intros q Hq; apply Hno; by apply list_elem_of_further).
    apply bool_decide_eq_true in Ht', Hn'. exfalso.
    apply (Hno p'); [apply list_elem_of_here|done].
Qed.

Lemma first_isGroupNamed (h : store) (name : string) (nodes : list loc) (p0 : loc) :
  p0 ∈ nodes → isGroupNamed h name p0 →
  ∃ before p after,
    nodes = before ++ p :: after ∧ isGroupNamed h name p ∧
    ∀ p', p' ∈ before → ¬ isGroupNamed h name p'.
Proof.
  intros Hin Hp0. induction nodes as [|q rest IH]; [by apply elem_of_nil in Hin|].
  destruct (decide (isGroupNamed h name q)) as [Hq|Hq].
  - exists [], q, rest. repeat split; try apply Hq. intros p' Hp'. by apply elem_of_nil in Hp'.
  - apply elem_of_cons in Hin as [->|Hin]; [done|].
    destruct (IH Hin) as (before & p & after & -> & Hp & Hno).
    exists (q :: before), p, after. repeat split; try apply Hp.
    intros p' Hp'. apply elem_of_cons in Hp' as [->|Hp']; [done|by apply Hno].
Qed.

(** The loop written out in [handleFilteringInput] is the loop of [ToggleNode]. *)
Lemma handleFilteringInput_toggle_eq (name : string) (nodes : list loc) (h : store) :
  handleFilteringInput_toggle name nodes h = ToggleNode_loop name nodes h.
Proof. induction nodes as [|p rest IH]; simpl; [done|]. by rewrite IH. Qed.

Lemma flipExpanded_rows (h : store) (p : loc) :
  p < length h → Type_ (h !!! p) = GroupNode →
  rowsOf (alter flipExpanded p h) p =
  p :: (if negb (IsExpanded (h !!! p)) then Children (h !!! p) else []).
Proof.
  intros Hlt Ht. unfold rowsOf. rewrite list_lookup_total_alter_eq by done. simpl.
  rewrite Ht. by destruct (IsExpanded (h !!! p)).
Qed.

Lemma flipExpanded_rows_other (h : store) (p p' : loc) :
  p' ≠ p → rowsOf (alter flipExpanded p h) p' = rowsOf h p'.
Proof. intros Hne. unfold rowsOf. by rewrite list_lookup_total_alter_ne. Qed.

(** A Group node of a filtered view carries the name of a Group node of
    the list it was derived from. *)
Lemma Filter_group_source (nodes : list loc) (query : string) (h : store) (t : loc) :
  closed h nodes →
  t ∈ (Filter nodes query h).1 →
  Type_ ((Filter nodes query h).2 !!! t) = GroupNode →
  ∃ p, p ∈ nodes ∧ isGroupNamed h (Name ((Filter nodes query h).2 !!! t)) p.
Proof.
  intros Hc Ht Hg. destruct (decide (query = "")) as [->|Hq].
  - rewrite Filter_empty in *. simpl in *. exists t. by repeat split.
  - destruct (Filter_spec nodes query h Hc Hq) as (ext & Hh' & Hcells & _).
    rewrite Hh' in *.
    assert ((h ++ ext) !!! t ∈ cells (h ++ ext) (Filter nodes query h).1) as Hin
      by (apply elem_of_cells; eauto).
    rewrite Hcells in Hin. apply list_elem_of_omap in Hin as (n & Hn & Hrule).
    apply elem_of_cells in Hn as (p & Hp & <-). exists p. split; [done|].
    unfold filterRule in Hrule. destruct (Type_ (h !!! p)) eqn:Htp.
    + split; [done|]. destruct (nameMatches query (h !!! p)).
      * injection Hrule as <-. done.
      * destruct (matchingChildrenOf h query (h !!! p)); [done|].
        injection Hrule as <-. done.
    + destruct (nameMatches query (h !!! p)); [|done]. injection Hrule as Hrule.
      rewrite <- Hrule in Hg. congruence.
Qed.

End Toggle.

(** ** The controller *)

Section ControllerFacts.
Context `{GoStrings} `{Lipgloss} `{!Bubbles}.

(** [updateVMList] rewrites the list, the displayed nodes and the store
    (where [Filter] allocates); every other field is left alone. *)
Lemma updateVMList_fields (m : model) :
  state (updateVMList m) = state m ∧
  quitting (updateVMList m) = quitting m ∧
  treeManager (updateVMList m) = treeManager m ∧
  filtering (updateVMList m) = filtering m ∧
  filterText (updateVMList m) = filterText m ∧
  selectedVM (updateVMList m) = selectedVM m ∧
  err (updateVMList m) = err m.
Proof.
  unfold updateVMList. destruct (filtering m && bool_decide (filterText m ≠ ""));
    [by destruct (Filter _ _ _)|done].
Qed.

Lemma updateVMList_heap (m : model) :
  heap (updateVMList m) =
  if filtering m && bool_decide (filterText m ≠ "")
  then (Filter (GetNodes (treeManager m)) (filterText m) (heap m)).2
  else heap m.
Proof.
  unfold updateVMList. destruct (filtering m && bool_decide (filterText m ≠ ""));
    [by destruct (Filter _ _ _)|done].
Qed.

Lemma updateVMList_displayed (m : model) :
  currentlyDisplayedNodes (updateVMList m) =
  if filtering m && bool_decide (filterText m ≠ "")
  then FlattenForDisplay
         (set_nodes (Filter (GetNodes (treeManager m)) (filterText m) (heap m)).1
            (treeManager m))
         (Filter (GetNodes (treeManager m)) (filterText m) (heap m)).2
  else FlattenForDisplay (treeManager m) (heap m).
Proof.
  unfold updateVMList. destruct (filtering m && bool_decide (filterText m ≠ "")).
  - by destruct (Filter _ _ _).
  - simpl. by destruct (treeManager m).
Qed.

(** The canonical cells survive a refresh of the display. *)
Lemma updateVMList_heap_extends (m : model) :
  ∃ ext, heap (updateVMList m) = heap m ++ ext.
Proof.
  rewrite updateVMList_heap. destruct (filtering m && bool_decide (filterText m ≠ "")).
  - apply Filter_extends.
  - exists []. by rewrite app_nil_r.
Qed.


Lemma navigation_key_not_typed (keypress : string) :
  keypress ∈ ["up"; "k"; "down"; "j"; "pgup"; "pgdown"; "home"; "end"] →
  keypress ≠ "q" ∧ keypress ≠ "ctrl+c" ∧ keypress ≠ "esc".
Proof.
  rewrite !elem_of_cons, elem_of_nil.
  intros Hk. repeat split; intros ->; repeat destruct Hk as [Hk|Hk]; done.
Qed.

(** In the filtering sub-mode every key other than a navigation key goes
    to [handleFilteringInput]. *)
Lemma Update_filtering (m : model) (keypress : string) :
  state m = StateSelectingVM → filtering m = true →
  Update m (KeyMsg keypress) =
  if bool_decide (keypress ∈ ["up"; "k"; "down"; "j"; "pgup"; "pgdown"; "home"; "end"])
  then (set_list (list_Update keypress (list_ m)).1 m,
        list_cmd (list_Update keypress (list_ m)).2)
  else handleFilteringInput m keypress.
Proof.
  intros Hs Hf. unfold Update, shouldHandleNavigation, handleKeyPress.
  rewrite Hs, Hf. simpl. destruct (bool_decide _); [|done].
  by destruct (list_Update keypress (list_ m)).
Qed.

(** C10. In [StateSelectingVM] with the filtering sub-mode on, no key
    press sets the state to [StateQuitting] or changes the [quitting]
    flag, and [tea.Quit] is returned for [enter] on an Instance row only.
    [q] is appended to the query, [ctrl+c] changes nothing, [esc] turns
    filtering off, clears the query and stays in [StateSelectingVM]; any
    other key leaves the controller in the filtering sub-mode, except
    [enter] on an Instance row, which records the instance and goes to
    [StateReadyToConnect]. *)
Theorem filtering_never_quits (m : model) (keypress : string) :
  state m = StateSelectingVM → filtering m = true →
  let m' := (Update m (KeyMsg keypress)).1 in
  let cmd := (Update m (KeyMsg keypress)).2 in
  state m' ≠ StateQuitting ∧
  quitting m' = quitting m ∧
  (keypress = "q" →
     cmd = Cmd_nil ∧ state m' = StateSelectingVM ∧ filtering m' = true ∧
     filterText m' = filterText m +:+ "q") ∧
  (keypress = "ctrl+c" → m' = m ∧ cmd = Cmd_nil) ∧
  (keypress = "esc" →
     cmd = Cmd_nil ∧ state m' = StateSelectingVM ∧ filtering m' = false ∧
     filterText m' = "") ∧
  (state m' = StateSelectingVM ∧ filtering m' = true ∧ cmd ≠ tea_Quit
   ∨ keypress = "esc"
   ∨ keypress = "enter" ∧ state m' = StateReadyToConnect ∧ cmd = tea_Quit ∧
     ∃ t, getCurrentNode m = Some t ∧ Type_ (heap m !!! t) = InstanceNode ∧
          selectedVM m' = VM_ (heap m !!! t)).
Proof.
  intros Hs Hf m' cmd. subst m' cmd. rewrite Update_filtering by done.
  case_bool_decide as Hnav.
  { assert (keypress ≠ "q" ∧ keypress ≠ "ctrl+c" ∧ keypress ≠ "esc") as (Hq & Hc & He).
    { by apply navigation_key_not_typed. }
    simpl. rewrite Hs, Hf. conjs; try done. left. by conjs. }
  unfold handleFilteringInput.
  pose proof (updateVMList_fields (set_filterText (strings.dropLast (filterText m)) m))
    as (B1 & B2 & _ & B3 & B4 & _ & _).
  pose proof (updateVMList_fields (set_filterText (filterText m +:+ keypress) m))
    as (A1 & A2 & _ & A3 & A4 & _ & _).
  simpl in *.
  destruct (decide (keypress = "esc")) as [->|Hesc].
  { simpl. rewrite ?Hs. conjs; try done. by right; left. }
  destruct (decide (keypress = "backspace" ∨ keypress = "ctrl+h")) as [Hbs|Hbs].
  { assert (keypress ≠ "q" ∧ keypress ≠ "ctrl+c") as [Hq Hc] by (by destruct Hbs as [->| ->]).
    case_decide; simpl; rewrite ?B1, ?B2, ?B3, ?Hs, ?Hf;
      (conjs; try done; left; by conjs). }
  destruct (decide (keypress = "enter")) as [->|Hent].
  { destruct (getCurrentNode m) as [t|] eqn:Hcur;
      [|simpl; rewrite Hs, Hf; conjs; try done; left; by conjs].
    case_decide as Ht.
    - simpl. conjs; try done. right; right. conjs; try done. exists t. by conjs.
    - match goal with |- context [updateVMList ?x] =>
        pose proof (updateVMList_fields x) as (T1 & T2 & _ & T3 & _ & _ & _) end.
      simpl in *. rewrite T1, T2, T3, Hs, Hf. conjs; try done.
      left. by conjs. }
  destruct keypress as [|c [|c' rest]];
    try (simpl; rewrite Hs, Hf; conjs; try done; left; by conjs).
  destruct (isValidFilterChar c) eqn:Hv; simpl.
  - rewrite A1, A2, A3, A4, Hs, Hf. conjs; try done.
    + by intros [= ->].
    + left. by conjs.
  - rewrite Hs, Hf. conjs; try done.
    + intros [= ->]. by vm_compute in Hv.
    + left. by conjs.
Qed.


Lemma rowsOf_extend (h ext : store) (p : loc) :
  p < length h → rowsOf (h ++ ext) p = rowsOf h p.
Proof. intros Hp. unfold rowsOf. by rewrite lookup_total_app_l. Qed.

Lemma FlattenForDisplay_extend (tm : TreeManager) (h ext : store) :
  Forall (λ p, p < length h) (nodes tm) →
  FlattenForDisplay tm (h ++ ext) = FlattenForDisplay tm h.
Proof.
  intros Hall. rewrite !FlattenForDisplay_eq. f_equal.
  apply list_fmap_ext. intros i p Hp. apply rowsOf_extend.
  rewrite Forall_forall in Hall. apply Hall. by eapply list_elem_of_lookup_2.
Qed.

Lemma ToggleNode_Instance (tm : TreeManager) (t : loc) (h : store) :
  Type_ (h !!! t) = InstanceNode → ToggleNode tm t h = h.
Proof. intros Ht. unfold ToggleNode. rewrite decide_True; [done|congruence]. Qed.

Lemma ToggleNode_none (tm : TreeManager) (t : loc) (h : store) :
  (∀ p, p ∈ nodes tm → ¬ isGroupNamed h (Name (h !!! t)) p) → ToggleNode tm t h = h.
Proof.
  intros Hno. unfold ToggleNode. case_decide; [done|]. by apply ToggleNode_loop_none.
Qed.

(** Toggling a Group node of a view derived from a closed canonical list. *)
Lemma ToggleNode_view (tm : TreeManager) (query : string) (h : store) (t : loc) :
  closed h (nodes tm) →
  t ∈ (Filter (nodes tm) query h).1 →
  Type_ ((Filter (nodes tm) query h).2 !!! t) = GroupNode →
  ∃ before p after,
    nodes tm = before ++ p :: after ∧ p < length h ∧
    isGroupNamed h (Name ((Filter (nodes tm) query h).2 !!! t)) p ∧
    (∀ p', p' ∈ before → ¬ isGroupNamed h (Name ((Filter (nodes tm) query h).2 !!! t)) p') ∧
    ToggleNode tm t (Filter (nodes tm) query h).2
    = alter flipExpanded p (Filter (nodes tm) query h).2.
Proof.
  intros Hc Ht Hg.
  destruct (Filter_group_source _ _ _ _ Hc Ht Hg) as (p0 & Hp0 & Hnamed).
  destruct (first_isGroupNamed _ _ _ _ Hp0 Hnamed) as (before & p & after & Hn & Hp & Hno).
  destruct (Filter_extends (nodes tm) query h) as [ext Hext].
  assert (∀ q, q ∈ nodes tm → (h ++ ext) !!! q = h !!! q) as Hread.
  { intros q Hq. apply lookup_total_app_l. unfold closed in Hc.
    rewrite Forall_forall in Hc. by apply Hc. }
  exists before, p, after. split; [done|]. split.
  { unfold closed in Hc. rewrite Forall_forall in Hc. apply Hc. rewrite Hn.
    apply elem_of_app. right. apply list_elem_of_here. }
  split; [done|]. split; [done|].
  rewrite Hext in *. unfold ToggleNode. rewrite decide_False by (by intros ?).
  rewrite Hn. apply ToggleNode_loop_first.
  - unfold isGroupNamed. rewrite Hread; [done|]. rewrite Hn. apply elem_of_app. right.
    apply list_elem_of_here.
  - intros p' Hp'. unfold isGroupNamed. rewrite Hread; [by apply Hno|].
    rewrite Hn. apply elem_of_app. by left.
Qed.

(** C4. Let [view] be a view derived by [Filter] from the closed canonical
    list of [tm] (with the empty query the view is the canonical list).
    Toggling a Group node [t] of the view flips [IsExpanded] on the first
    canonical Group node [p] with the name of [t], found by name, and
    changes no other cell, so that the unfiltered display then shows the
    children of [p] exactly if [p] was collapsed before.  Toggling is the
    identity when the target is an Instance node and when no canonical
    Group node has the target's name.  [enter] on a Group row in the
    filtering sub-mode does the same toggle on the canonical store, and
    the display after leaving the filter with [esc] is the flattened
    canonical list with the flipped flag. *)
Theorem toggle_targets_canonical (tm : TreeManager) (query : string) (h : store) :
  closed h (nodes tm) →
  let view := (Filter (nodes tm) query h).1 in
  let h1 := (Filter (nodes tm) query h).2 in
  (∀ t, t ∈ view → Type_ (h1 !!! t) = GroupNode →
     ∃ before p after,
       nodes tm = before ++ p :: after ∧
       isGroupNamed h (Name (h1 !!! t)) p ∧
       (∀ p', p' ∈ before → ¬ isGroupNamed h (Name (h1 !!! t)) p') ∧
       ToggleNode tm t h1 = alter flipExpanded p h1 ∧
       ToggleNode tm t h1 !!! p = flipExpanded (h !!! p) ∧
       (∀ l, l ≠ p → ToggleNode tm t h1 !!! l = h1 !!! l) ∧
       rowsOf (ToggleNode tm t h1) p
       = p :: (if negb (IsExpanded (h !!! p)) then Children (h !!! p) else []) ∧
       (∀ p', p' ≠ p → rowsOf (ToggleNode tm t h1) p' = rowsOf h1 p') ∧
       (∀ m : model,
          treeManager m = tm → heap m = h1 → getCurrentNode m = Some t →
          (handleFilteringInput m "enter").2 = Cmd_nil ∧
          treeManager (handleFilteringInput m "enter").1 = tm ∧
          (∃ ext, heap (handleFilteringInput m "enter").1 = ToggleNode tm t h1 ++ ext) ∧
          currentlyDisplayedNodes
            (handleFilteringInput (handleFilteringInput m "enter").1 "esc").1
          = FlattenForDisplay tm (ToggleNode tm t h1))) ∧
  (∀ t, Type_ (h1 !!! t) = InstanceNode → ToggleNode tm t h1 = h1) ∧
  (∀ t, (∀ p, p ∈ nodes tm → ¬ isGroupNamed h1 (Name (h1 !!! t)) p) →
        ToggleNode tm t h1 = h1).
Proof.
  intros Hc view h1. subst view h1.
  split; [|split; [intros t; apply ToggleNode_Instance|intros t; apply ToggleNode_none]].
  intros t Ht Hg.
  destruct (ToggleNode_view tm query h t Hc Ht Hg)
    as (before & p & after & Hn & Hp & Hnamed & Hno & Htoggle).
  destruct (Filter_extends (nodes tm) query h) as [ext Hext].
  exists before, p, after. rewrite Htoggle. rewrite Hext in *.
  assert (p < length (h ++ ext)) as Hp' by (rewrite length_app; lia).
  assert (Type_ ((h ++ ext) !!! p) = GroupNode) as Hgp
    by (rewrite lookup_total_app_l by done; apply Hnamed).
  conjs; try done.
  - rewrite list_lookup_total_alter_eq by done. by rewrite lookup_total_app_l.
  - intros l Hl. by rewrite list_lookup_total_alter_ne.
  - rewrite flipExpanded_rows by done. by rewrite lookup_total_app_l.
  - intros p'. apply flipExpanded_rows_other.
  - intros m Hm Hh Hcur.
    assert (handleFilteringInput m "enter"
            = (updateVMList (set_heap (alter flipExpanded p (h ++ ext)) m), Cmd_nil))
      as Henter.
    { unfold handleFilteringInput. simpl. rewrite Hcur, Hh.
      rewrite decide_False by congruence. rewrite handleFilteringInput_toggle_eq.
      unfold ToggleNode in Htoggle. rewrite decide_False in Htoggle by (by intros ?).
      unfold GetNodes. by rewrite Hm, Htoggle. }
    rewrite Henter. simpl.
    pose proof (updateVMList_fields (set_heap (alter flipExpanded p (h ++ ext)) m))
      as (_ & _ & T & _).
    destruct (updateVMList_heap_extends (set_heap (alter flipExpanded p (h ++ ext)) m))
      as [ext' Hext'].
    simpl in T, Hext'. conjs; [done|by rewrite T|by eauto|].
    unfold handleFilteringInput. simpl. rewrite T, Hm, Hext'.
    replace (set_nodes (GetNodes tm) tm) with tm by (by destruct tm).
    apply FlattenForDisplay_extend.
    rewrite length_alter, length_app. unfold closed in Hc.
    eapply Forall_impl; [exact Hc|]. intros q [Hq _]. simpl in Hq. lia.
Qed.


(** *** No dangling pointers *)

Lemma closed_extend (h ext : store) (l : list loc) : closed h l → closed (h ++ ext) l.
Proof.
  intros Hc. eapply Forall_impl; [exact Hc|]. intros p [Hp Hk]. simpl in *.
  rewrite length_app, lookup_total_app_l by done. split; [lia|].
  eapply Forall_impl; [exact Hk|]. intros c Hlt. simpl in Hlt. lia.
Qed.

Lemma closed_flipExpanded (h : store) (p : loc) (l : list loc) :
  closed h l → closed (alter flipExpanded p h) l.
Proof.
  intros Hc. eapply Forall_impl; [exact Hc|]. intros q [Hq Hk]. simpl in *.
  rewrite length_alter. split; [done|].
  destruct (decide (p = q)) as [->|Hne].
  - by rewrite list_lookup_total_alter_eq.
  - by rewrite list_lookup_total_alter_ne.
Qed.

Lemma ToggleNode_loop_cases (name : string) (nodes : list loc) (h : store) :
  ToggleNode_loop name nodes h = h ∨
  ∃ p, p ∈ nodes ∧ Type_ (h !!! p) = GroupNode ∧
       ToggleNode_loop name nodes h = alter flipExpanded p h.
Proof.
  induction nodes as [|p rest IH]; simpl; [by left|].
  destruct (bool_decide (Type_ (h !!! p) = GroupNode)) eqn:Ht; simpl.
  - apply bool_decide_eq_true in Ht. destruct (bool_decide _).
    + right. exists p. split; [apply list_elem_of_here|done].
    + destruct IH as [IH|(q & Hq & Hg & IH)]; [by left|].
      right. exists q. split; [by apply list_elem_of_further|done].
  - destruct IH as [IH|(q & Hq & Hg & IH)]; [by left|].
    right. exists q. split; [by apply list_elem_of_further|done].
Qed.

Lemma ToggleNode_closed (tm : TreeManager) (t : loc) (h : store) (l : list loc) :
  closed h l → closed (ToggleNode tm t h) l.
Proof.
  intros Hc. unfold ToggleNode. case_decide; [done|].
  destruct (ToggleNode_loop_cases (Name (h !!! t)) (nodes tm) h) as [->|(p & _ & _ & ->)];
    [done|by apply closed_flipExpanded].
Qed.

Lemma updateVMList_closed (m : model) :
  closed (heap m) (nodes (treeManager m)) →
  closed (heap (updateVMList m)) (nodes (treeManager (updateVMList m))).
Proof.
  intros Hc. pose proof (updateVMList_fields m) as (_ & _ & -> & _).
  destruct (updateVMList_heap_extends m) as [ext ->]. by apply closed_extend.
Qed.

(** The canonical tree stays closed along every run of the controller:
    every message leaves each pointer of [treeManager.nodes], and each
    child pointer behind it, allocated in the store. *)
Lemma Update_closed (m : model) (msg : Msg) :
  closed (heap m) (nodes (treeManager m)) →
  closed (heap (Update m msg).1) (nodes (treeManager (Update m msg).1)).
Proof.
  intros Hc.
  assert (∀ t, closed (heap (updateVMList (set_heap (ToggleNode (treeManager m) t (heap m)) m)))
                 (nodes (treeManager
                           (updateVMList (set_heap (ToggleNode (treeManager m) t (heap m)) m)))))
    as Htoggle.
  { intros t. apply updateVMList_closed. simpl. by apply ToggleNode_closed. }
  assert (∀ f : model → model,
            (∀ x, heap (f x) = heap x ∧ treeManager (f x) = treeManager x) →
            closed (heap (updateVMList (f m))) (nodes (treeManager (updateVMList (f m)))))
    as Hfresh.
  { intros f Hf. apply updateVMList_closed. destruct (Hf m) as [-> ->]. done. }
  destruct msg as [w hgt|keypress|ps|vms|e|]; simpl; try done.
  - destruct (shouldHandleNavigation m keypress);
      [by destruct (list_Update keypress (list_ m))|].
    unfold handleKeyPress. destruct (_ && _).
    + unfold handleFilteringInput.
      repeat case_decide; simpl; try done;
        try (by apply (Hfresh (λ x, set_filterText _ (set_filtering _ x))));
        try (by apply (Hfresh (λ x, set_filterText _ x))).
      * destruct (getCurrentNode m) as [t|]; [|done]. case_decide; [done|].
        apply updateVMList_closed. simpl. rewrite handleFilteringInput_toggle_eq.
        destruct (ToggleNode_loop_cases (Name (heap m !!! t)) (GetNodes (treeManager m))
                    (heap m)) as [->|(p & _ & _ & ->)]; [done|by apply closed_flipExpanded].
      * destruct keypress as [|c [|? ?]]; try done.
        destruct (isValidFilterChar c); [|done].
        by apply (Hfresh (λ x, set_filterText _ x)).
    + case_decide; [|unfold handleGlobalKeys; repeat case_decide; simpl; try done;
                     try (by destruct (_ || _));
                     by destruct (list_SelectedItem (list_ m))].
      unfold handleVMSelection, handleVMSelection_toggle, handleEnterOnVM.
      repeat case_decide; simpl; try done;
        try (destruct (getCurrentNode m) as [t|]; [|done]);
        try (destruct (_ && _); [apply Htoggle|done]);
        try (case_decide; [apply Htoggle|done]).
      destruct (negb (filtering m)); [|done].
      by apply (Hfresh (λ x, set_filterText _ (set_filtering _ x))).
  - pose proof (BuildFromVMs_closed vms (treeManager m) (heap m)) as Hb.
    destruct (BuildFromVMs vms (treeManager m) (heap m)) as [tm' h'].
    by apply updateVMList_closed.
Qed.

(** C8, as far as the code goes, and where it stops.  A failed load in
    [StateLoadingProjects] leaves the state as it is, returns no command and
    stores the error; afterwards [q] and [ctrl+c] quit and every other key
    changes nothing.  But [View] tests the state before it tests [err]:
    the screen after the failure is the loading banner, the same screen as
    before the failure, and the stored error is not part of it. *)
Theorem load_error_not_rendered (m : model) (e : error) :
  state m = StateLoadingProjects → quitting m = false →
  let m' := (Update m (ErrorMsg e)).1 in
  (Update m (ErrorMsg e)).2 = Cmd_nil ∧
  state m' = StateLoadingProjects ∧
  err m' = e ∧
  (∀ keypress,
     Update m' (KeyMsg keypress) =
     if decide (keypress = "ctrl+c" ∨ keypress = "q")
     then (set_quitting true m', tea_Quit) else (m', Cmd_nil)) ∧
  View m' = LF +:+ "  Loading GCP projects..." +:+ LF +:+ LF ∧
  View m' = View m.
Proof.
  intros Hs Hq m'. subst m'. simpl. conjs; try done.
  - intros keypress. unfold shouldHandleNavigation, handleKeyPress, handleGlobalKeys.
    simpl. rewrite Hs. simpl.
    destruct (decide (keypress = "ctrl+c")) as [->|Hc]; [done|].
    destruct (decide (keypress = "q")) as [->|Hk]; [done|].
    rewrite (decide_False (P := _ ∨ _)) by (by intros [?|?]). by destruct (decide (keypress = "enter")).
  - unfold View. simpl. by rewrite Hq, Hs.
  - unfold View. simpl. by rewrite Hq, Hs.
Qed.

End ControllerFacts.

(** ** Runs of the controller on the scenario *)

Example loadedModel_display :
  state loadedModel = StateSelectingVM ∧ filtering loadedModel = false ∧
  names (heap loadedModel) (currentlyDisplayedNodes loadedModel) = ["web-fleet"; "db-1"] ∧
  pl_items (list_ loadedModel) = ["▶ web-fleet (2 instances)"; "[R] db-1"].
Proof. by vm_compute. Qed.

Example filtering_types_query :
  let m := pressKeys filteringModel ["d"; "q"; "backspace"; "ctrl+c"; "B"] in
  state m = StateSelectingVM ∧ quitting m = false ∧ filtering m = true ∧
  filterText m = "dB" ∧
  names (heap m) (currentlyDisplayedNodes m) = ["db-1"].
Proof. by vm_compute. Qed.

(** [k] and [j] are navigation keys: in the filtering sub-mode they move
    the cursor and are not appended to the query. *)
Example filtering_navigation_keys :
  let m := pressKeys filteringModel ["w"; "j"; "k"; "e"] in
  filterText m = "we" ∧
  names (heap m) (currentlyDisplayedNodes m) = ["web-fleet"; "web-1"; "web-2"].
Proof. by vm_compute. Qed.

(** Toggling through a filtered view shows in the unfiltered view. *)
Example filtering_toggle_then_escape :
  let m := pressKeys filteringModel ["w"; "e"; "b"; "enter"; "esc"] in
  state m = StateSelectingVM ∧ filtering m = false ∧
  names (heap m) (currentlyDisplayedNodes m) = ["web-fleet"; "web-1"; "web-2"; "db-1"] ∧
  pl_items (list_ m) = ["▼ web-fleet (2 instances)"; "  [R] web-1"; "  [S] web-2"; "[R] db-1"].
Proof. by vm_compute. Qed.

Example filtering_enter_on_instance :
  let m := pressKeys filteringModel ["d"; "b"; "enter"] in
  state m = StateReadyToConnect ∧ selectedVM m = Some db1 ∧ quitting m = false.
Proof. by vm_compute. Qed.

Lemma filtering_never_quits_witness :
  state filteringModel = StateSelectingVM ∧ filtering filteringModel = true ∧
  state (Update filteringModel (KeyMsg "q")).1 ≠ StateQuitting ∧
  quitting (Update filteringModel (KeyMsg "q")).1 = quitting filteringModel.
Proof.
  assert (state filteringModel = StateSelectingVM) as Hs by reflexivity.
  assert (filtering filteringModel = true) as Hf by reflexivity.
  destruct (filtering_never_quits filteringModel "q" Hs Hf) as (H1 & H2 & _).
  by conjs.
Defined.

Lemma toggle_targets_canonical_witness :
  closed scenarioStore (nodes scenarioManager) ∧
  ∃ p, isGroupNamed scenarioStore "web-fleet" p ∧
       ToggleNode scenarioManager 4 (Filter (nodes scenarioManager) "web" scenarioStore).2 !!! p
       = flipExpanded (scenarioStore !!! p).
Proof.
  split; [exact scenario_closed|].
  destruct (toggle_targets_canonical scenarioManager "web" scenarioStore scenario_closed)
    as (Hview & _ & _).
  destruct (Hview 4) as (before & p & after & _ & Hnamed & _ & _ & Hflip & _).
  - apply list_elem_of_here.
  - reflexivity.
  - exists p. split; [exact Hnamed|exact Hflip].
Defined.

Lemma load_error_not_rendered_witness :
  state (newModel "") = StateLoadingProjects ∧ quitting (newModel "") = false ∧
  View (Update (newModel "") (ErrorMsg (Some "failed to list projects: exit status 1"))).1
  = View (newModel "").
Proof.
  assert (state (newModel "") = StateLoadingProjects) as Hs by reflexivity.
  assert (quitting (newModel "") = false) as Hq by reflexivity.
  destruct (load_error_not_rendered (newModel "")
              (Some "failed to list projects: exit status 1") Hs Hq)
    as (_ & _ & _ & _ & _ & Hview).
  split; [exact Hs|]. split; [exact Hq|exact Hview].
Defined.

Example load_error_screen :
  let m := (Update (newModel "") (ErrorMsg (Some "failed to list projects: exit status 1"))).1 in
  err m = Some "failed to list projects: exit status 1" ∧
  View m = LF +:+ "  Loading GCP projects..." +:+ LF +:+ LF.
Proof. by vm_compute. Qed.

(** ** Further properties of the controller *)

Section Further.
Context `{GoStrings} `{Lipgloss} `{!Bubbles}.

(** X1. No dangling node pointers: the tree [BuildFromVMs] builds is closed
    in the store it leaves, and every message handled by [Update] keeps
    the canonical tree closed. *)
Theorem canonical_tree_closed (m : model) (msg : Msg) (vms : list VM) :
  closed (BuildFromVMs vms (treeManager m) (heap m)).2
         (nodes (BuildFromVMs vms (treeManager m) (heap m)).1) ∧
  (closed (heap m) (nodes (treeManager m)) →
   closed (heap (Update m msg).1) (nodes (treeManager (Update m msg).1))).
Proof. split; [apply BuildFromVMs_closed|apply Update_closed]. Qed.


(** X3. When the instances have loaded the controller is in
    [StateSelectingVM] with no filter, the canonical tree is the one built
    from the records, and the display is the list of top-level nodes: every
    group starts collapsed. *)
Theorem VMsLoaded_shows_collapsed_tree (m : model) (vms : list VM) :
  let m' := (Update m (VMsLoadedMsg vms)).1 in
  (Update m (VMsLoadedMsg vms)).2 = Cmd_nil ∧
  state m' = StateSelectingVM ∧ filtering m' = false ∧ filterText m' = "" ∧
  treeManager m' = (BuildFromVMs vms (treeManager m) (heap m)).1 ∧
  heap m' = (BuildFromVMs vms (treeManager m) (heap m)).2 ∧
  currentlyDisplayedNodes m' = nodes (treeManager m').
Proof.
  simpl.
  pose proof (BuildFromVMs_layout vms (treeManager m) (heap m))
    as (groupLocs & instLocs & Hn & Hg & Hi).
  destruct (BuildFromVMs vms (treeManager m) (heap m)) as [tm' h'] eqn:Hb. simpl in *.
  conjs; try done.
  replace (set_nodes (GetNodes tm') tm') with tm' by (by destruct tm').
  rewrite FlattenForDisplay_eq.
  assert (Forall (λ p, IsExpanded (h' !!! p) = false) (nodes tm')) as Hcollapsed.
  { rewrite Hn. apply Forall_app. split.
    - clear Hn Hi. induction Hg as [|p g ps gs (kids & Hcell & _) Hg IH]; constructor; [|done].
      by rewrite Hcell.
    - apply Forall_forall. intros p Hp.
      assert (h' !!! p ∈ cells h' instLocs) as Hin by (apply elem_of_cells; eauto).
      rewrite Hi in Hin. apply list_elem_of_fmap in Hin as (vm & -> & _). done. }
  revert Hcollapsed. generalize (nodes tm'). clear. intros l Hcollapsed.
  induction Hcollapsed as [|p l Hp Hl IH]; [done|].
  rewrite fmap_cons. simpl. rewrite IH. unfold rowsOf.
  rewrite bool_decide_eq_false_2; [done|]. intros [_ ?]. congruence.
Qed.

(** X4. In [StateSelectingVM] the keys up, down, pgup, pgdown, home, end
    and the letters [k] and [j] go to the list, whether or not the
    filtering sub-mode is on: they move the cursor and are never appended
    to the query. *)
Theorem navigation_keys_go_to_list (m : model) (keypress : string) :
  state m = StateSelectingVM →
  keypress ∈ ["up"; "k"; "down"; "j"; "pgup"; "pgdown"; "home"; "end"] →
  Update m (KeyMsg keypress) =
  (set_list (list_Update keypress (list_ m)).1 m,
   list_cmd (list_Update keypress (list_ m)).2).
Proof.
  intros Hs Hk. simpl. unfold shouldHandleNavigation. rewrite Hs. simpl.
  rewrite bool_decide_eq_true_2 by done. by destruct (list_Update keypress (list_ m)).
Qed.

(** X5. In [StateSelectingVM] outside the filtering sub-mode: [q] quits,
    [/] turns filtering on with an empty query, and [esc] goes back to
    [StateSelectingProject] and clears the displayed nodes. *)
Theorem selecting_keys (m : model) :
  state m = StateSelectingVM → filtering m = false →
  Update m (KeyMsg "q") = (set_quitting true m, tea_Quit) ∧
  (state (Update m (KeyMsg "/")).1 = StateSelectingVM ∧
   filtering (Update m (KeyMsg "/")).1 = true ∧
   filterText (Update m (KeyMsg "/")).1 = "" ∧
   (Update m (KeyMsg "/")).2 = Cmd_nil) ∧
  (state (Update m (KeyMsg "esc")).1 = StateSelectingProject ∧
   currentlyDisplayedNodes (Update m (KeyMsg "esc")).1 = [] ∧
   (Update m (KeyMsg "esc")).2 = Cmd_nil).
Proof.
  intros Hs Hf. unfold Update, shouldHandleNavigation, handleKeyPress. rewrite Hs, Hf.
  simpl. unfold handleVMSelection. simpl. rewrite Hf. simpl. by conjs.
Qed.


Lemma append_nil_r (s : string) : s +:+ "" = s.
Proof. induction s as [|c s IH]; [done|]. rewrite append_cons. by f_equal. Qed.

(** The project id is read back from the row text: the first part of
    [strings.Split(id + " (" + name + ")", " (")] is [id] when [id] has no
    [" ("] in it. *)
Lemma Split_project_row (id rest cur : string) :
  strings.Contains id " (" = false →
  strings.Split_scan " (" 0 cur (id +:+ " (" +:+ rest) !! 0 = Some (cur +:+ id).
Proof.
  revert cur. induction id as [|c id IH]; intros cur Hno.
  - rewrite append_nil_r.
    change ("" +:+ " (" +:+ rest) with (String " " (String "(" rest)).
    cbn [strings.Split_scan]. rewrite prefix_cons.
    destruct (ascii_dec " " " ") as [_|?]; [|done]. rewrite prefix_cons.
    destruct (ascii_dec "(" "(") as [_|?]; [|done]. by rewrite prefix_nil.
  - rewrite append_cons. cbn [strings.Split_scan].
    cbn [strings.Contains] in Hno. apply orb_false_elim in Hno as [Hpre Hno].
    assert (String.prefix " (" (String c (id +:+ " (" +:+ rest)) = false) as ->.
    { rewrite prefix_cons in Hpre |- *. destruct (ascii_dec " " c); [|done].
      destruct id as [|d id]; [done|].
      rewrite append_cons. rewrite prefix_cons in Hpre |- *.
      destruct (ascii_dec "(" d); [|done]. by rewrite prefix_nil in Hpre. }
    rewrite IH by done. f_equal. rewrite append_assoc. by rewrite append_cons.
Qed.

(** X6. [enter] in [StateSelectingProject] on the row of a project whose id
    has no [" ("] in it selects that project: the id is recovered from the
    row text, the state becomes [StateLoadingVMs] and the load of its
    instances is requested. *)
Theorem enter_selects_project (m : model) (project : Project) :
  state m = StateSelectingProject →
  list_SelectedItem (list_ m) = head (projectItems [project]) →
  strings.Contains (ProjectID project) " (" = false →
  (Update m (KeyMsg "enter")).2 = LoadVMs (ProjectID project) ∧
  state (Update m (KeyMsg "enter")).1 = StateLoadingVMs ∧
  selectedProject (Update m (KeyMsg "enter")).1 = ProjectID project.
Proof.
  intros Hs Hsel Hno. unfold Update, shouldHandleNavigation, handleKeyPress.
  rewrite Hs. simpl. unfold handleGlobalKeys. simpl. rewrite Hs, Hsel. simpl.
  unfold strings.Split.
  rewrite (Split_project_row (ProjectID project) (ProjectName project +:+ ")") "" Hno).
  done.
Qed.

Lemma cellsKept_refl (h : store) (canonical : list loc) : cellsKept h h canonical.
Proof. exists []. left. by rewrite app_nil_r. Qed.

Lemma updateVMList_cellsKept (m : model) (h : store) (canonical : list loc) :
  cellsKept h (heap m) canonical → cellsKept h (heap (updateVMList m)) canonical.
Proof.
  intros [ext Hk]. destruct (updateVMList_heap_extends m) as [ext' ->].
  exists (ext ++ ext'). destruct Hk as [->|(p & Hp & Hg & ->)].
  - left. by rewrite app_assoc.
  - right. exists p. by rewrite app_assoc.
Qed.

Lemma ToggleNode_cellsKept (tm : TreeManager) (t : loc) (h : store) :
  cellsKept h (ToggleNode tm t h) (nodes tm).
Proof.
  unfold ToggleNode. case_decide; [apply cellsKept_refl|].
  destruct (ToggleNode_loop_cases (Name (h !!! t)) (nodes tm) h) as [->|(p & Hp & Hg & ->)];
    [apply cellsKept_refl|].
  exists []. right. exists p. by rewrite app_nil_r.
Qed.

(** X7. Only [IsExpanded] is mutable, and only on Group nodes: whatever
    the message, the store after [Update] is the store before it, with at
    most one canonical Group node's [IsExpanded] flipped, followed by the
    cells allocated meanwhile.  Names, types, records, group names,
    children and depths of existing nodes never change. *)
Theorem only_expansion_is_mutable (m : model) (msg : Msg) :
  cellsKept (heap m) (heap (Update m msg).1) (nodes (treeManager m)).
Proof.
  assert (∀ t, cellsKept (heap m)
                 (heap (updateVMList (set_heap (ToggleNode (treeManager m) t (heap m)) m)))
                 (nodes (treeManager m))) as Htoggle.
  { intros t. apply updateVMList_cellsKept. simpl. apply ToggleNode_cellsKept. }
  assert (∀ f : model → model, (∀ x, heap (f x) = heap x) →
            cellsKept (heap m) (heap (updateVMList (f m))) (nodes (treeManager m)))
    as Hfresh.
  { intros f Hf. apply updateVMList_cellsKept. rewrite Hf. apply cellsKept_refl. }
  destruct msg as [w hgt|keypress|ps|vms|e|]; simpl; try apply cellsKept_refl.
  - destruct (shouldHandleNavigation m keypress);
      [destruct (list_Update keypress (list_ m)); apply cellsKept_refl|].
    unfold handleKeyPress. destruct (_ && _).
    + unfold handleFilteringInput.
      repeat case_decide; simpl; try apply cellsKept_refl;
        try (by apply (Hfresh (λ x, set_filterText _ (set_filtering _ x))));
        try (by apply (Hfresh (λ x, set_filterText _ x))).
      * destruct (getCurrentNode m) as [t|]; [|apply cellsKept_refl].
        case_decide; [apply cellsKept_refl|].
        apply updateVMList_cellsKept. simpl. rewrite handleFilteringInput_toggle_eq.
        destruct (ToggleNode_loop_cases (Name (heap m !!! t)) (GetNodes (treeManager m))
                    (heap m)) as [->|(p & Hp & Hg & ->)]; [apply cellsKept_refl|].
        exists []. right. exists p. by rewrite app_nil_r.
      * destruct keypress as [|c [|? ?]]; try apply cellsKept_refl.
        destruct (isValidFilterChar c); [|apply cellsKept_refl].
        by apply (Hfresh (λ x, set_filterText _ x)).
    + case_decide; [|unfold handleGlobalKeys; repeat case_decide; simpl;
                     try apply cellsKept_refl;
                     try (destruct (_ || _); apply cellsKept_refl);
                     destruct (list_SelectedItem (list_ m)); apply cellsKept_refl].
      unfold handleVMSelection, handleVMSelection_toggle, handleEnterOnVM.
      repeat case_decide; simpl; try apply cellsKept_refl;
        try (destruct (getCurrentNode m) as [t|]; [|apply cellsKept_refl]);
        try (destruct (_ && _); [apply Htoggle|apply cellsKept_refl]);
        try (case_decide; [apply Htoggle|apply cellsKept_refl]).
      destruct (negb (filtering m)); [|apply cellsKept_refl].
      by apply (Hfresh (λ x, set_filterText _ (set_filtering _ x))).
  - destruct (BuildFromVMs_spec vms (treeManager m) (heap m)) as (locs & ext & Heq & _).
    rewrite Heq. apply updateVMList_cellsKept. simpl.
    exists (ext ++ (instanceCell "" 0 <$> membersOf "" vms)). left. by rewrite app_assoc.
Qed.

End Further.

Lemma navigation_keys_go_to_list_witness :
  state filteringModel = StateSelectingVM ∧
  filterText (Update (pressKeys filteringModel ["w"]) (KeyMsg "k")).1 = "w".
Proof.
  assert (state (pressKeys filteringModel ["w"]) = StateSelectingVM) as Hs by reflexivity.
  split; [reflexivity|].
  rewrite (navigation_keys_go_to_list (pressKeys filteringModel ["w"]) "k" Hs).
  - reflexivity.
  - apply list_elem_of_further, list_elem_of_here.
Defined.

Lemma selecting_keys_witness :
  state loadedModel = StateSelectingVM ∧ filtering loadedModel = false ∧
  Update loadedModel (KeyMsg "q") = (set_quitting true loadedModel, tea_Quit).
Proof.
  assert (state loadedModel = StateSelectingVM) as Hs by reflexivity.
  assert (filtering loadedModel = false) as Hf by reflexivity.
  destruct (selecting_keys loadedModel Hs Hf) as (Hq & _).
  split; [exact Hs|]. split; [exact Hf|exact Hq].
Defined.

Lemma enter_selects_project_witness :
  let m := (Update (newModel "")
              (ProjectsLoadedMsg [ {| ProjectID := "acme-prod"; ProjectName := "Acme (prod)";
                                      ProjectStatus := "ACTIVE" |} ])).1 in
  state m = StateSelectingProject ∧
  (Update m (KeyMsg "enter")).2 = LoadVMs "acme-prod".
Proof.
  set (p := {| ProjectID := "acme-prod"; ProjectName := "Acme (prod)";
               ProjectStatus := "ACTIVE" |}).
  set (m := (Update (newModel "") (ProjectsLoadedMsg [p])).1).
  assert (state m = StateSelectingProject) as Hs by reflexivity.
  assert (list_SelectedItem (list_ m) = head (projectItems [p])) as Hsel by reflexivity.
  assert (strings.Contains (ProjectID p) " (" = false) as Hno by reflexivity.
  destruct (enter_selects_project m p Hs Hsel Hno) as (Hcmd & _).
  split; [exact Hs|exact Hcmd].
Defined.

(** ** The shape of the canonical tree along a run *)

Section Shape.
Context `{GoStrings} `{Lipgloss} `{!Bubbles}.

Lemma treeShape_extend (h ext : store) (l : list loc) :
  treeShape h l → treeShape (h ++ ext) l.
Proof.
  intros (Hc & Hk & Hd). split; [by apply closed_extend|].
  unfold closed in Hc. rewrite Forall_forall in Hc, Hk. split.
  - apply Forall_forall. intros p Hp. destruct (Hc p Hp) as [Hlt Hkids].
    rewrite lookup_total_app_l by done. specialize (Hk p Hp).
    rewrite Forall_forall in Hk, Hkids |- *. intros c Hin.
    rewrite lookup_total_app_l by (by apply Hkids). by apply Hk.
  - intros p q Hp Hq. destruct (Hc p Hp) as [Hlp _], (Hc q Hq) as [Hlq _].
    rewrite !lookup_total_app_l by done. by apply Hd.
Qed.

Lemma flipExpanded_read (h : store) (p q : loc) :
  Type_ (alter flipExpanded p h !!! q) = Type_ (h !!! q) ∧
  Name (alter flipExpanded p h !!! q) = Name (h !!! q) ∧
  Children (alter flipExpanded p h !!! q) = Children (h !!! q).
Proof.
  destruct (decide (p = q)) as [->|Hne]; [|by rewrite list_lookup_total_alter_ne].
  destruct (decide (q < length h)) as [Hlt|Hge].
  - by rewrite list_lookup_total_alter_eq.
  - rewrite !lookup_total_ge_zero; [done|lia|rewrite length_alter; lia].
Qed.

Lemma treeShape_flipExpanded (h : store) (p : loc) (l : list loc) :
  treeShape h l → treeShape (alter flipExpanded p h) l.
Proof.
  intros (Hc & Hk & Hd). split; [by apply closed_flipExpanded|]. split.
  - eapply Forall_impl; [exact Hk|]. intros q Hq. simpl in *.
    destruct (flipExpanded_read h p q) as (_ & _ & ->).
    eapply Forall_impl; [exact Hq|]. intros c Hc'. simpl in *.
    by destruct (flipExpanded_read h p c) as (-> & _ & _).
  - intros q r Hq Hr.
    destruct (flipExpanded_read h p q) as (-> & -> & _).
    destruct (flipExpanded_read h p r) as (-> & -> & _). by apply Hd.
Qed.

Lemma ToggleNode_treeShape (tm : TreeManager) (t : loc) (h : store) (l : list loc) :
  treeShape h l → treeShape (ToggleNode tm t h) l.
Proof.
  intros Hs. unfold ToggleNode. case_decide; [done|].
  destruct (ToggleNode_loop_cases (Name (h !!! t)) (nodes tm) h) as [->|(p & _ & _ & ->)];
    [done|by apply treeShape_flipExpanded].
Qed.

(** The tree [BuildFromVMs] builds has the shape. *)
Lemma BuildFromVMs_treeShape (vms : list VM) (tm : TreeManager) (h : store) :
  treeShape (BuildFromVMs vms tm h).2 (nodes (BuildFromVMs vms tm h).1).
Proof.
  split; [apply BuildFromVMs_closed|].
  destruct (BuildFromVMs_layout vms tm h) as (groupLocs & instLocs & Hn & Hg & Hi).
  set (h' := (BuildFromVMs vms tm h).2) in *. rewrite Hn.
  assert (∀ p, p ∈ instLocs → ∃ vm, h' !!! p = instanceCell "" 0 vm) as Hinst.
  { intros p Hp. assert (h' !!! p ∈ cells h' instLocs) as Hin by (apply elem_of_cells; eauto).
    rewrite Hi in Hin. apply list_elem_of_fmap in Hin as (vm & ? & _). eauto. }
  split.
  - apply Forall_app. split.
    + clear Hn Hi Hinst.
      induction Hg as [|p g ps gs (kids & Hcell & Hkids) Hg IH]; constructor; [|done].
      rewrite Hcell. simpl. apply Forall_forall. intros c Hc.
      assert (h' !!! c ∈ cells h' kids) as Hin by (apply elem_of_cells; eauto).
      rewrite Hkids in Hin. by apply list_elem_of_fmap in Hin as (vm & -> & _).
    + apply Forall_forall. intros p Hp. destruct (Hinst p Hp) as [vm ->]. constructor.
  - assert (∀ p, p ∈ groupLocs ++ instLocs → Type_ (h' !!! p) = GroupNode →
                 ∃ i, groupLocs !! i = Some p ∧
                      groupNamesOf vms !! i = Some (Name (h' !!! p))) as Hfind.
    { intros p Hp Ht. apply elem_of_app in Hp as [Hp|Hp].
      - apply list_elem_of_lookup in Hp as [i Hi'].
        destruct (Forall2_lookup_l _ _ _ _ _ Hg Hi') as (g & Hgi & kids & Hcell & _).
        exists i. split; [done|]. by rewrite Hcell.
      - destruct (Hinst p Hp) as [vm Hcell]. rewrite Hcell in Ht. done. }
    intros p q Hp Hq Htp Htq Hname.
    destruct (Hfind p Hp Htp) as (i & Hip & Hni).
    destruct (Hfind q Hq Htq) as (j & Hjq & Hnj).
    rewrite Hname in Hni.
    assert (i = j) as -> by (eapply NoDup_lookup; [apply groupNamesOf_NoDup|done..]).
    congruence.
Qed.

Lemma updateVMList_coherent (m : model) :
  treeShape (heap m) (nodes (treeManager m)) → coherent (updateVMList m).
Proof.
  intros Hs. pose proof (updateVMList_fields m) as (Est & _ & Etm & Ef & Et & _).
  split.
  - rewrite Etm. destruct (updateVMList_heap_extends m) as [ext ->].
    by apply treeShape_extend.
  - rewrite Est, Ef, Et, Etm. intros _ Hoff.
    by rewrite updateVMList_displayed, updateVMList_heap, Hoff.
Qed.

(** A step that leaves the tree, the store and, while the state is
    [StateSelectingVM], the display and the filter alone. *)
Lemma coherent_unchanged (m m' : model) :
  heap m' = heap m → treeManager m' = treeManager m →
  (state m' = StateSelectingVM →
   state m = StateSelectingVM ∧ filtering m' = filtering m ∧
   filterText m' = filterText m ∧
   currentlyDisplayedNodes m' = currentlyDisplayedNodes m) →
  coherent m → coherent m'.
Proof.
  intros Hh Htm Hsel [Hs Hsync]. split; [by rewrite Hh, Htm|].
  intros Hst. destruct (Hsel Hst) as (Hst' & Hf & Ht & Hd).
  rewrite Hf, Ht, Hd, Hh, Htm. by apply Hsync.
Qed.

(** The invariant of the controller. *)
Lemma Update_coherent (m : model) (msg : Msg) : coherent m → coherent (Update m msg).1.
Proof.
  intros Hco. pose proof Hco as [Hs _].
  assert (∀ t, coherent (updateVMList (set_heap (ToggleNode (treeManager m) t (heap m)) m)))
    as Htoggle.
  { intros t. apply updateVMList_coherent. simpl. by apply ToggleNode_treeShape. }
  assert (∀ f : model → model,
            (∀ x, heap (f x) = heap x ∧ treeManager (f x) = treeManager x) →
            coherent (updateVMList (f m))) as Hfresh.
  { intros f Hf. apply updateVMList_coherent. destruct (Hf m) as [-> ->]. done. }
  assert (∀ m', heap m' = heap m → treeManager m' = treeManager m →
                (state m' = StateSelectingVM →
                 state m = StateSelectingVM ∧ filtering m' = filtering m ∧
                 filterText m' = filterText m ∧
                 currentlyDisplayedNodes m' = currentlyDisplayedNodes m) →
                coherent m') as Hsame.
  { intros m' ? ? ?. by eapply coherent_unchanged. }
  clear Hco.
  destruct msg as [w hgt|keypress|ps|vms|e|]; simpl; try (by apply Hsame).
  - destruct (shouldHandleNavigation m keypress);
      [destruct (list_Update keypress (list_ m)); by apply Hsame|].
    unfold handleKeyPress. destruct (_ && _).
    + unfold handleFilteringInput.
      repeat case_decide; simpl; try (by apply Hsame);
        try (by apply (Hfresh (λ x, set_filterText _ (set_filtering _ x))));
        try (by apply (Hfresh (λ x, set_filterText _ x))).
      * destruct (getCurrentNode m) as [t|]; [|by apply Hsame].
        case_decide; [by apply Hsame|].
        apply updateVMList_coherent. simpl. rewrite handleFilteringInput_toggle_eq.
        destruct (ToggleNode_loop_cases (Name (heap m !!! t)) (GetNodes (treeManager m))
                    (heap m)) as [->|(p & _ & _ & ->)]; [done|by apply treeShape_flipExpanded].
      * destruct keypress as [|c [|? ?]]; try (by apply Hsame).
        destruct (isValidFilterChar c); [|by apply Hsame].
        by apply (Hfresh (λ x, set_filterText _ x)).
    + case_decide; [|unfold handleGlobalKeys; repeat case_decide; simpl;
                     try (by apply Hsame);
                     try (destruct (_ || _); by apply Hsame);
                     destruct (list_SelectedItem (list_ m)); by apply Hsame].
      unfold handleVMSelection, handleVMSelection_toggle, handleEnterOnVM.
      repeat case_decide; simpl; try (by apply Hsame);
        try (destruct (getCurrentNode m) as [t|]; [|by apply Hsame]);
        try (destruct (_ && _); [apply Htoggle|by apply Hsame]);
        try (case_decide; [apply Htoggle|by apply Hsame]).
      destruct (negb (filtering m)); [|by apply Hsame].
      by apply (Hfresh (λ x, set_filterText _ (set_filtering _ x))).
  - pose proof (BuildFromVMs_treeShape vms (treeManager m) (heap m)) as Hb.
    destruct (BuildFromVMs vms (treeManager m) (heap m)) as [tm' h'].
    by apply updateVMList_coherent.
Qed.

End Shape.

(** ** Expanding and collapsing in the unfiltered view *)

Section Expand.
Context `{GoStrings} `{Lipgloss} `{!Bubbles}.

Lemma newModel_coherent (project : string) : coherent (newModel project).
Proof.
  unfold newModel. case_decide.
  - split; [|done]. split; [constructor|]. split; [constructor|].
    intros p q Hp. by apply elem_of_nil in Hp.
  - split; [|done]. split; [constructor|]. split; [constructor|].
    intros p q Hp. by apply elem_of_nil in Hp.
Qed.

Lemma run_coherent (m : model) (msgs : list Msg) : coherent m → coherent (run m msgs).
Proof.
  unfold run. revert m. induction msgs as [|msg msgs IH]; intros m Hm; [done|].
  simpl. apply IH. by apply Update_coherent.
Qed.

(** X8.  Every state the controller reaches from its initial model, under
    any sequence of messages, has a well-shaped canonical tree and, in the
    unfiltered VM selection, displays exactly the flattened canonical
    tree. *)
Theorem reached_states_coherent (project : string) (msgs : list Msg) :
  coherent (run (newModel project) msgs).
Proof. apply run_coherent, newModel_coherent. Qed.


Lemma elem_of_concat {A} (x : A) (ls : list (list A)) :
  x ∈ concat ls → ∃ l, x ∈ l ∧ l ∈ ls.
Proof.
  induction ls as [|l ls IH]; simpl; [by intros ?%elem_of_nil|].
  intros [Hx|Hx]%elem_of_app.
  - exists l. split; [done|apply list_elem_of_here].
  - destruct (IH Hx) as (l' & ? & ?). exists l'. split; [done|by apply list_elem_of_further].
Qed.


Lemma getCurrentNode_displayed (m : model) (t : loc) :
  getCurrentNode m = Some t → t ∈ currentlyDisplayedNodes m.
Proof.
  unfold getCurrentNode. destruct (_ || _); [done|]. case_bool_decide; [done|].
  apply list_elem_of_lookup_2.
Qed.


End Expand.


(** ** The steps of [Update] *)

Section Steps.
Context `{GoStrings} `{Lipgloss} `{!Bubbles}.

Lemma shouldHandleNavigation_true (m : model) (keypress : string) :
  shouldHandleNavigation m keypress = true ↔
  (state m = StateSelectingProject ∨ state m = StateSelectingVM) ∧
  keypress ∈ ["up"; "k"; "down"; "j"; "pgup"; "pgdown"; "home"; "end"].
Proof.
  unfold shouldHandleNavigation. split.
  - destruct (state m); simpl; try done; intros Hk%bool_decide_eq_true; auto.
  - intros [[Hs|Hs] Hk]; rewrite Hs; simpl; by apply bool_decide_eq_true.
Qed.

(** The loop of [ToggleNode] leaves the store alone or flips the first
    Group node of that name. *)
Lemma ToggleNode_loop_named (name : string) (nodes : list loc) (h : store) :
  ToggleNode_loop name nodes h = h ∨
  ∃ p, p ∈ nodes ∧ isGroupNamed h name p ∧
       ToggleNode_loop name nodes h = alter flipExpanded p h.
Proof.
  induction nodes as [|p rest IH]; simpl; [by left|].
  destruct (bool_decide (Type_ (h !!! p) = GroupNode)) eqn:Ht; simpl.
  - apply bool_decide_eq_true in Ht. destruct (bool_decide _) eqn:Hn.
    + apply bool_decide_eq_true in Hn. right. exists p.
      split; [apply list_elem_of_here|done].
    + destruct IH as [IH|(q & Hq & Hg & IH)]; [by left|].
      right. exists q. split; [by apply list_elem_of_further|done].
  - destruct IH as [IH|(q & Hq & Hg & IH)]; [by left|].
    right. exists q. split; [by apply list_elem_of_further|done].
Qed.

Lemma NodeType_cases (n : TreeNode) : Type_ n ≠ GroupNode → Type_ n = InstanceNode.
Proof. by destruct (Type_ n). Qed.

(** Every step of [Update] is one of the steps of [transition]. *)
Lemma Update_transition (m : model) (msg : Msg) :
  transition m msg (Update m msg).1 (Update m msg).2.
Proof.
  destruct msg as [w hgt|keypress|ps|vms|e|]; simpl.
  - apply tr_resize.
  - destruct (shouldHandleNavigation m keypress) eqn:Hnav.
    { apply shouldHandleNavigation_true in Hnav as [Hst Hk].
      pose proof (tr_navigate m keypress Hst Hk) as Htr.
      by destruct (list_Update keypress (list_ m)). }
    assert (∀ msg', transition m (KeyMsg msg') m Cmd_nil) as Hnone by (by constructor).
    unfold handleKeyPress. destruct (bool_decide (state m = StateSelectingVM)) eqn:Hs; simpl.
    + apply bool_decide_eq_true in Hs. destruct (filtering m) eqn:Hf.
      * unfold handleFilteringInput. repeat case_decide; simpl; try done.
        -- by apply (tr_filter m keypress false).
        -- apply tr_backspace; try done. intros Heq. rewrite Heq in *. simpl in *. lia.
        -- destruct (getCurrentNode m) as [t|] eqn:Hcur; [|done].
           case_decide as Ht; simpl.
           ++ subst keypress. by apply tr_select.
           ++ apply (tr_toggle m keypress t); try done; [by destruct (Type_ (heap m !!! t))|].
              rewrite handleFilteringInput_toggle_eq. apply ToggleNode_loop_named.
        -- destruct keypress as [|c [|? ?]]; try done.
           destruct (isValidFilterChar c) eqn:Hc; [|done].
           assert (∀ k, k ∈ ["up"; "k"; "down"; "j"; "pgup"; "pgdown"; "home"; "end"] →
                        String c "" ≠ k) as Hk.
           { intros k Hk <-. assert (shouldHandleNavigation m (String c "") = true);
               [apply shouldHandleNavigation_true; auto|congruence]. }
           apply tr_type; try done; intros ->.
           ++ apply (Hk "j"); [|done]. by apply (bool_decide_unpack _).
           ++ apply (Hk "k"); [|done]. by apply (bool_decide_unpack _).
      * rewrite decide_True by done.
        assert (∀ want, transition m (KeyMsg keypress) (handleVMSelection_toggle want m).1
                          (handleVMSelection_toggle want m).2) as Htog.
        { intros want. unfold handleVMSelection_toggle.
          destruct (getCurrentNode m) as [t|] eqn:Hcur; [|done].
          destruct (bool_decide (Type_ (heap m !!! t) = GroupNode)) eqn:Ht; simpl; [|done].
          apply bool_decide_eq_true in Ht. destruct (want _); [|done]. simpl.
          apply (tr_toggle m keypress t); try done.
          unfold ToggleNode. rewrite decide_False by (by intros []).
          apply ToggleNode_loop_named. }
        unfold handleVMSelection. repeat case_decide; try apply Htog; simpl; try done.
        -- unfold handleEnterOnVM. destruct (getCurrentNode m) as [t|] eqn:Hcur; [|done].
           case_decide as Ht; simpl.
           ++ apply (tr_toggle m keypress t); try done.
              unfold ToggleNode. rewrite decide_False by (by intros []).
              apply ToggleNode_loop_named.
           ++ subst keypress. apply tr_select; try done. by apply NodeType_cases.
        -- rewrite Hf. simpl. by apply (tr_filter m keypress true).
        -- subst keypress. by apply tr_back.
        -- apply tr_quit; auto.
    + apply bool_decide_eq_false in Hs. rewrite decide_False by done.
      unfold handleGlobalKeys. repeat case_decide; simpl; try done;
        try (by apply tr_quit; auto).
      destruct (list_SelectedItem (list_ m)) as [projectDisplay|] eqn:Hsel; simpl; [|done].
      subst keypress. by apply (tr_project m projectDisplay).
  - apply tr_projects.
  - destruct (BuildFromVMs vms (treeManager m) (heap m)) as [tm h] eqn:Hb. simpl.
    by apply tr_vms.
  - apply tr_error.
  - by constructor.
Qed.

End Steps.

(** ** Invariants of the states reached *)

Section Reached.
Context `{GoStrings} `{Lipgloss} `{!Bubbles}.

Lemma run_snoc (m : model) (msgs : list Msg) (msg : Msg) :
  run m (msgs ++ [msg]) = (Update (run m msgs) msg).1.
Proof. unfold run. by rewrite foldl_app. Qed.

(** A property kept by every step holds along every run. *)
Lemma run_invariant (P : model → Prop) :
  (∀ m msg m' cmd, P m → transition m msg m' cmd → P m') →
  ∀ msgs m, P m → P (run m msgs).
Proof.
  intros Hstep msgs. induction msgs as [|msg msgs IH]; intros m Hm; [done|].
  apply IH. eapply Hstep; [done|apply Update_transition].
Qed.

Lemma updateVMList_state (m : model) : state (updateVMList m) = state m.
Proof. apply updateVMList_fields. Qed.

Lemma updateVMList_quitting (m : model) : quitting (updateVMList m) = quitting m.
Proof. apply updateVMList_fields. Qed.

Lemma updateVMList_treeManager (m : model) : treeManager (updateVMList m) = treeManager m.
Proof. apply updateVMList_fields. Qed.

Lemma updateVMList_filtering (m : model) : filtering (updateVMList m) = filtering m.
Proof. apply updateVMList_fields. Qed.

Lemma updateVMList_filterText (m : model) : filterText (updateVMList m) = filterText m.
Proof. apply updateVMList_fields. Qed.

Lemma updateVMList_selectedVM (m : model) : selectedVM (updateVMList m) = selectedVM m.
Proof. apply updateVMList_fields. Qed.

Lemma updateVMList_err (m : model) : err (updateVMList m) = err m.
Proof. apply updateVMList_fields. Qed.

Lemma updateVMList_projects (m : model) : projects (updateVMList m) = projects m.
Proof.
  unfold updateVMList. destruct (filtering m && bool_decide (filterText m ≠ ""));
    [by destruct (Filter _ _ _)|done].
Qed.

Lemma updateVMList_selectedProject (m : model) :
  selectedProject (updateVMList m) = selectedProject m.
Proof.
  unfold updateVMList. destruct (filtering m && bool_decide (filterText m ≠ ""));
    [by destruct (Filter _ _ _)|done].
Qed.

(** *** Instance nodes hold their records *)

Lemma recorded_lookup (h : store) (t : loc) :
  recorded h → Type_ (h !!! t) = InstanceNode → is_Some (VM_ (h !!! t)).
Proof.
  intros Hr Ht. destruct (decide (t < length h)) as [Hlt|Hge].
  - unfold recorded in Hr. rewrite Forall_forall in Hr. apply Hr; [|done].
    apply list_elem_of_lookup_2 with t. by apply list_lookup_lookup_total_lt.
  - by rewrite lookup_total_ge_zero in Ht by lia.
Qed.

Lemma recorded_snoc (h : store) (n : TreeNode) :
  recorded h → (Type_ n = InstanceNode → is_Some (VM_ n)) → recorded (h ++ [n]).
Proof. intros Hr Hn. apply Forall_app. split; [done|]. by constructor. Qed.

Lemma recorded_alter (f : TreeNode → TreeNode) (p : loc) (h : store) :
  (∀ n, Type_ (f n) = Type_ n ∧ VM_ (f n) = VM_ n) → recorded h → recorded (alter f p h).
Proof.
  intros Hf Hr. apply Forall_alter; [done|]. intros n _ Hn.
  destruct (Hf n) as [-> ->]. done.
Qed.

Lemma BuildFromVMs_children_recorded (g : loc) (groupName : string) (vms : list VM)
    (h : store) :
  recorded h → recorded (BuildFromVMs_children g groupName vms h).
Proof.
  revert h. induction vms as [|vm vms IH]; intros h Hr; [done|].
  simpl. apply IH. apply recorded_alter; [done|]. apply recorded_snoc; [done|]. by eexists.
Qed.

Lemma BuildFromVMs_groups_recorded (groups : gmap string (list VM))
    (groupNames : list string) (nodes : list loc) (h : store) :
  recorded h → recorded (BuildFromVMs_groups groups groupNames nodes h).2.
Proof.
  revert nodes h. induction groupNames as [|g gs IH]; intros nodes h Hr; [done|].
  simpl. apply IH, BuildFromVMs_children_recorded. by apply recorded_snoc.
Qed.

Lemma BuildFromVMs_ungrouped_recorded (ungrouped : list VM) (nodes : list loc) (h : store) :
  recorded h → recorded (BuildFromVMs_ungrouped ungrouped nodes h).2.
Proof.
  revert nodes h. induction ungrouped as [|vm vms IH]; intros nodes h Hr; [done|].
  simpl. apply IH. apply recorded_snoc; [done|]. by eexists.
Qed.

Lemma BuildFromVMs_recorded (vms : list VM) (tm : TreeManager) (h : store) :
  recorded h → recorded (BuildFromVMs vms tm h).2.
Proof.
  intros Hr. unfold BuildFromVMs. destruct (BuildFromVMs_partition vms) as [groups ungrouped].
  pose proof (BuildFromVMs_groups_recorded groups (BuildFromVMs_groupNames groups) [] h Hr)
    as Hg.
  destruct (BuildFromVMs_groups _ _ _ _) as [nodes1 h1]. simpl in Hg.
  pose proof (BuildFromVMs_ungrouped_recorded ungrouped nodes1 h1 Hg) as Hu.
  by destruct (BuildFromVMs_ungrouped _ _ _) as [nodes2 h2].
Qed.

Lemma Filter_loop_recorded (filterLower : string) (nodes filtered : list loc) (h : store) :
  recorded h → recorded (Filter_loop filterLower nodes filtered h).2.
Proof.
  revert filtered h. induction nodes as [|node rest IH]; intros filtered h Hr; [done|].
  simpl. repeat case_decide; try destruct (strings.Contains _ _); simpl;
    try (by apply IH); apply IH; by apply recorded_snoc.
Qed.

Lemma Filter_recorded (nodes : list loc) (filterText : string) (h : store) :
  recorded h → recorded (Filter nodes filterText h).2.
Proof. intros Hr. unfold Filter. case_decide; [done|]. by apply Filter_loop_recorded. Qed.

Lemma updateVMList_recorded (m : model) : recorded (heap m) → recorded (heap (updateVMList m)).
Proof.
  intros Hr. rewrite updateVMList_heap. destruct (_ && _); [|done]. by apply Filter_recorded.
Qed.

Lemma transition_recorded (m m' : model) (msg : Msg) (cmd : Cmd) :
  transition m msg m' cmd → recorded (heap m) → recorded (heap m').
Proof.
  intros Htr Hr.
  destruct Htr as [| | | | | |VMs tm h Hb| | | | | |keypress t h _ _ _ Hh|]; try done;
    try (by apply updateVMList_recorded).
  - apply updateVMList_recorded. simpl.
    pose proof (BuildFromVMs_recorded VMs (treeManager m) (heap m) Hr) as Hb'.
    by rewrite Hb in Hb'.
  - apply updateVMList_recorded. simpl.
    destruct Hh as [->|(p & _ & _ & ->)]; [done|]. by apply recorded_alter.
Qed.

(** The state kept along a run: the Instance nodes hold their records,
    and a record is selected in [StateReadyToConnect]. *)
Lemma run_recorded (project : string) (msgs : list Msg) :
  recorded (heap (run (newModel project) msgs)) ∧
  (state (run (newModel project) msgs) = StateReadyToConnect →
   is_Some (selectedVM (run (newModel project) msgs))).
Proof.
  apply (run_invariant (λ m, recorded (heap m) ∧
                             (state m = StateReadyToConnect → is_Some (selectedVM m)))).
  - intros m msg m' cmd [Hr Hsel] Htr. split; [by eapply transition_recorded|].
    destruct Htr; rewrite ?updateVMList_state, ?updateVMList_selectedVM; simpl;
      try done; try congruence.
    intros _. by apply recorded_lookup.
  - unfold newModel. case_decide; by split; [constructor|].
Qed.

(** *** The query *)

Lemma list_ascii_of_string_app (s1 s2 : string) :
  list_ascii_of_string (s1 +:+ s2) = list_ascii_of_string s1 ++ list_ascii_of_string s2.
Proof.
  induction s1 as [|c s1 IH]; [done|]. rewrite append_cons. simpl. by f_equal.
Qed.

Lemma Forall_substring (P : ascii → Prop) (n : nat) (s : string) :
  Forall P (list_ascii_of_string s) → Forall P (list_ascii_of_string (substring 0 n s)).
Proof.
  revert n. induction s as [|c s IH]; intros n Hs; [by destruct n|].
  destruct n as [|n]; simpl; [constructor|].
  apply Forall_cons in Hs as [Hc Hs]. constructor; [done|by apply IH].
Qed.

(** The query along a run: made of typable bytes, and empty outside the
    filtering sub-mode. *)
Lemma run_query (project : string) (msgs : list Msg) :
  Forall typable (list_ascii_of_string (filterText (run (newModel project) msgs))) ∧
  (filtering (run (newModel project) msgs) = false →
   filterText (run (newModel project) msgs) = "").
Proof.
  apply (run_invariant (λ m, Forall typable (list_ascii_of_string (filterText m)) ∧
                             (filtering m = false → filterText m = ""))).
  - intros m msg m' cmd [Hq Hoff] Htr.
    destruct Htr; rewrite ?updateVMList_filtering, ?updateVMList_filterText; simpl;
      try done; try (by split; [constructor|]).
    + split; [by apply Forall_substring|]. congruence.
    + split; [|congruence]. rewrite list_ascii_of_string_app. apply Forall_app.
      split; [done|]. by repeat constructor.
  - unfold newModel. case_decide; by split; [constructor|].
Qed.

End Reached.

(** ** Further properties of the tree *)

Section TreeFacts.
Context `{GoStrings} `{Lipgloss}.

Lemma flipExpanded_involutive (n : TreeNode) : flipExpanded (flipExpanded n) = n.
Proof. destruct n as [? ? ? ? e ? ?]. unfold flipExpanded. simpl. by rewrite negb_involutive. Qed.

Lemma alter_flipExpanded_twice (p : loc) (h : store) :
  alter flipExpanded p (alter flipExpanded p h) = h.
Proof.
  apply list_eq. intros i. destruct (decide (i = p)) as [->|Hne].
  - rewrite !list_lookup_alter_eq. destruct (h !! p) as [n|]; [|done].
    simpl. by rewrite flipExpanded_involutive.
  - by rewrite !list_lookup_alter_ne.
Qed.

Lemma alter_flipExpanded_commute (p q : loc) (h : store) :
  alter flipExpanded p (alter flipExpanded q h) =
  alter flipExpanded q (alter flipExpanded p h).
Proof.
  destruct (decide (p = q)) as [->|Hne]; [done|]. apply list_eq. intros i.
  destruct (decide (i = p)) as [Hp|Hp]; [subst i|destruct (decide (i = q)) as [Hq|Hq]].
  - rewrite list_lookup_alter_eq, (list_lookup_alter_ne _ h q p) by done.
    by rewrite (list_lookup_alter_ne _ _ q p), list_lookup_alter_eq.
  - subst i. rewrite (list_lookup_alter_ne _ _ p q), list_lookup_alter_eq by done.
    by rewrite list_lookup_alter_eq, (list_lookup_alter_ne _ h p q).
  - by rewrite !list_lookup_alter_ne.
Qed.

(** The loop of [ToggleNode] reads types and names only, which a flip
    leaves alone: it finds the same node before and after one. *)
Lemma ToggleNode_loop_flipExpanded (name : string) (nodes : list loc) (q : loc) (h : store) :
  ToggleNode_loop name nodes (alter flipExpanded q h) =
  alter flipExpanded q (ToggleNode_loop name nodes h).
Proof.
  induction nodes as [|p rest IH]; simpl; [done|].
  destruct (flipExpanded_read h q p) as (-> & -> & _).
  destruct (_ && _); [apply alter_flipExpanded_commute|apply IH].
Qed.

(** X10.  [ToggleNode] is its own inverse: toggling the same node twice
    leaves every cell of the store as it was, whatever the tree and the
    node. *)
Theorem ToggleNode_twice (tm : TreeManager) (t : loc) (h : store) :
  ToggleNode tm t (ToggleNode tm t h) = h.
Proof.
  unfold ToggleNode at 2. case_decide as Ht.
  - unfold ToggleNode. by rewrite decide_True.
  - destruct (ToggleNode_loop_named (Name (h !!! t)) (nodes tm) h) as [Heq|(p & _ & _ & Heq)].
    + rewrite Heq. unfold ToggleNode. rewrite decide_False by (intros Hn; by apply Hn).
      done.
    + rewrite Heq. unfold ToggleNode.
      destruct (flipExpanded_read h p t) as (-> & -> & _).
      rewrite decide_False by (intros Hn; by apply Hn).
      by rewrite ToggleNode_loop_flipExpanded, Heq, alter_flipExpanded_twice.
Qed.

(** *** No record is lost or duplicated *)

Lemma bind_nil_const {A B} (l : list A) : l ≫= (λ _, @nil B) = [].
Proof. induction l as [|x l IH]; [done|]. by rewrite bind_cons, IH. Qed.

Lemma filter_key_split {A} `{EqDecision K} (key : A → K) (g : K) (gs : list K)
    (l : list A) :
  g ∉ gs →
  filter (λ x, key x = g) l ++ filter (λ x, key x ∈ gs) l
  ≡ₚ filter (λ x, key x ∈ g :: gs) l.
Proof.
  intros Hg. induction l as [|x l IH]; [done|].
  rewrite !filter_cons. destruct (decide (key x = g)) as [Heq|Hne].
  - rewrite decide_False by (by rewrite Heq).
    rewrite decide_True by (rewrite Heq; apply list_elem_of_here).
    simpl. by rewrite IH.
  - destruct (decide (key x ∈ gs)) as [Hin|Hnin].
    + rewrite decide_True by (by apply list_elem_of_further).
      rewrite <-Permutation_middle. by rewrite IH.
    + rewrite decide_False; [done|]. by intros [?|?]%elem_of_cons.
Qed.

Lemma bind_filter_keys {A} `{EqDecision K} (key : A → K) (gs : list K) (l : list A) :
  NoDup gs →
  gs ≫= (λ g, filter (λ x, key x = g) l) ≡ₚ filter (λ x, key x ∈ gs) l.
Proof.
  intros Hgs. induction Hgs as [|g gs Hg Hgs IH].
  - simpl. induction l as [|x l IHl]; [done|].
    rewrite filter_cons, decide_False; [done|]. by intros ?%elem_of_nil.
  - rewrite bind_cons, IH. by apply filter_key_split.
Qed.

Lemma filter_ext_in {A} (P Q : A → Prop) `{∀ x, Decision (P x)} `{∀ x, Decision (Q x)}
    (l : list A) :
  (∀ x, x ∈ l → P x ↔ Q x) → filter P l = filter Q l.
Proof.
  induction l as [|x l IH]; intros Hpq; [done|].
  rewrite !filter_cons. rewrite IH by (intros y Hy; by apply Hpq, list_elem_of_further).
  destruct (decide (P x)) as [Hp|Hp].
  - rewrite decide_True; [done|]. by apply Hpq; [apply list_elem_of_here|].
  - rewrite decide_False; [done|]. intros Hq. apply Hp. by apply Hpq; [apply list_elem_of_here|].
Qed.

(** The groups in order, then the ungrouped records: a rearrangement of
    the records. *)
Lemma members_perm (vms : list VM) :
  (groupNamesOf vms ≫= λ g, membersOf g vms) ++ membersOf "" vms ≡ₚ vms.
Proof.
  unfold membersOf.
  rewrite (bind_filter_keys GetInstanceGroup (groupNamesOf vms) vms (groupNamesOf_NoDup vms)).
  rewrite <-(filter_app_complement (λ vm, GetInstanceGroup vm ∈ groupNamesOf vms) vms) at 3.
  f_equiv. erewrite filter_ext_in; [done|]. intros vm Hvm. simpl. rewrite elem_of_groupNamesOf. split.
  - intros Hg [Hne _]. done.
  - intros Hn. destruct (decide (GetInstanceGroup vm = "")) as [|Hne]; [done|].
    exfalso. apply Hn. eauto.
Qed.

Lemma recordsOf_app (h : store) (l1 l2 : list loc) :
  recordsOf h (l1 ++ l2) = recordsOf h l1 ++ recordsOf h l2.
Proof. unfold recordsOf. apply bind_app. Qed.

(** The records of the built tree, in tree order. *)
Lemma BuildFromVMs_recordsOf (vms : list VM) (tm : TreeManager) (h : store) :
  recordsOf (BuildFromVMs vms tm h).2 (nodes (BuildFromVMs vms tm h).1) =
  Some <$> ((groupNamesOf vms ≫= λ g, membersOf g vms) ++ membersOf "" vms).
Proof.
  destruct (BuildFromVMs_layout vms tm h) as (groupLocs & instLocs & -> & Hg & Hi).
  set (h' := (BuildFromVMs vms tm h).2) in *.
  rewrite recordsOf_app, fmap_app. f_equal.
  - clear Hi. induction Hg as [|p g ps gs (kids & Hcell & Hkids) Hg IH]; [done|].
    unfold recordsOf in *. rewrite !bind_cons, fmap_app, IH. f_equal.
    rewrite Hcell. simpl. rewrite Hkids, <-list_fmap_compose. done.
  - revert Hi. generalize (membersOf "" vms). clear. intros l.
    revert l. induction instLocs as [|p ps IH]; intros [|vm l] Hi; try done.
    unfold cells in Hi. rewrite !fmap_cons in Hi. injection Hi as Hp Hps.
    unfold recordsOf. rewrite bind_cons. fold (recordsOf h' ps).
    rewrite (IH l) by done. by rewrite Hp.
Qed.

(** X11.  [BuildFromVMs] loses no record and duplicates none: the records
    held by the nodes of the built tree, taken group by group and then
    the ungrouped ones, are a rearrangement of the loaded records.  In
    particular the instance counts of the rows add up to the number of
    records. *)
Theorem BuildFromVMs_keeps_every_record (vms : list VM) (tm : TreeManager) (h : store) :
  recordsOf (BuildFromVMs vms tm h).2 (nodes (BuildFromVMs vms tm h).1) ≡ₚ Some <$> vms ∧
  length (recordsOf (BuildFromVMs vms tm h).2 (nodes (BuildFromVMs vms tm h).1))
  = length vms.
Proof.
  assert (recordsOf (BuildFromVMs vms tm h).2 (nodes (BuildFromVMs vms tm h).1)
          ≡ₚ Some <$> vms) as Hperm.
  { rewrite BuildFromVMs_recordsOf. by rewrite members_perm. }
  split; [done|]. by rewrite Hperm, length_fmap.
Qed.

End TreeFacts.

(** ** The hand-over to [gcloud compute ssh] *)

Section Handover.
Context `{GoStrings} `{Lipgloss} `{!Bubbles} `{Gcloud}.
Import strings.

Lemma last_cons_Some {A} (x y : A) (l : list A) : last l = Some y → last (x :: l) = Some y.
Proof. by destruct l. Qed.

(** The last part of [strings.Split(s, "/")]: what follows the last
    slash of [s], all of [s] when it has none. *)
Lemma Split_scan_slash_last (s cur : string) :
  ∃ z, last (Split_scan "/" 0 cur s) = Some z ∧
       ((z = cur +:+ s ∧ Contains s "/" = false) ∨
        (∃ pre, s = pre +:+ "/" +:+ z ∧ Contains z "/" = false)).
Proof.
  revert cur. induction s as [|c s IH]; intros cur.
  - exists cur. split; [done|]. left. by rewrite append_nil_r.
  - cbn [Split_scan]. rewrite prefix_slash. case_bool_decide as Hc.
    + subst c. cbn [String.length Nat.sub].
      destruct (IH "") as (z & Hlast & Hz). exists z.
      split; [by apply last_cons_Some|]. right.
      destruct Hz as [[-> Hno]|(pre & -> & Hno)].
      * by exists "".
      * by exists (String "/" pre).
    + destruct (IH (cur +:+ String c "")) as (z & Hlast & Hz). exists z.
      split; [done|]. destruct Hz as [[-> Hno]|(pre & -> & Hno)].
      * left. split; [by rewrite append_assoc|].
        cbn [Contains]. rewrite prefix_slash, Hno. by rewrite bool_decide_eq_false_2.
      * right. by exists (String c pre).
Qed.

Lemma Split_slash_last (s : string) :
  ∃ z, last (Split s "/") = Some z ∧ Contains z "/" = false ∧
       (s = z ∨ ∃ pre, s = pre +:+ "/" +:+ z).
Proof.
  destruct (Split_scan_slash_last s "") as (z & Hlast & Hz). exists z.
  split; [done|]. destruct Hz as [[-> Hno]|(pre & -> & Hno)]; eauto.
Qed.


Lemma ConnectSSH_last (project vmName zone zoneName : string) :
  last (Split zone "/") = Some zoneName →
  ConnectSSH project vmName zone =
  Some match exec_LookPath "gcloud" with
       | inr err => Returned (Some ("gcloud not found in PATH: " +:+ err))
       | inl gcloudPath =>
           match syscall_Exec gcloudPath ["gcloud"; "compute"; "ssh"; vmName;
                                          "--project"; project; "--zone"; zoneName] with
           | None => Exec gcloudPath ["gcloud"; "compute"; "ssh"; vmName;
                                      "--project"; project; "--zone"; zoneName]
           | Some err => Returned (Some err)
           end
       end.
Proof.
  intros Hlast. unfold ConnectSSH. rewrite last_lookup in Hlast.
  destruct (length (Split zone "/")) as [|i] eqn:Hlen.
  - apply length_zero_iff_nil in Hlen. by rewrite Hlen in Hlast.
  - simpl in Hlast. by rewrite Hlast.
Qed.

(** X12.  [ConnectSSH] never indexes an empty slice, and the zone it hands
    to [gcloud compute ssh] is what follows the last slash of the record's
    zone (all of it when it has no slash): it has no slash in it.  When
    [gcloud] is not on the path the error says so and nothing is run. *)
Theorem ConnectSSH_zone_name (project vmName zone : string) :
  ∃ zoneName,
    Contains zoneName "/" = false ∧
    (zone = zoneName ∨ ∃ pre, zone = pre +:+ "/" +:+ zoneName) ∧
    ConnectSSH project vmName zone =
    Some match exec_LookPath "gcloud" with
         | inr err => Returned (Some ("gcloud not found in PATH: " +:+ err))
         | inl gcloudPath =>
             match syscall_Exec gcloudPath ["gcloud"; "compute"; "ssh"; vmName;
                                            "--project"; project; "--zone"; zoneName] with
             | None => Exec gcloudPath ["gcloud"; "compute"; "ssh"; vmName;
                                        "--project"; project; "--zone"; zoneName]
             | Some err => Returned (Some err)
             end
         end.
Proof.
  destruct (Split_slash_last zone) as (zoneName & Hlast & Hno & Hzone).
  exists zoneName. split; [done|]. split; [done|]. by apply ConnectSSH_last.
Qed.

Lemma ConnectSSH_total (project vmName zone : string) :
  is_Some (ConnectSSH project vmName zone).
Proof.
  destruct (Split_slash_last zone) as (zoneName & Hlast & _).
  rewrite (ConnectSSH_last _ _ _ _ Hlast). by eexists.
Qed.

(** X13.  No [nil] record is ever read.  In every state the controller
    reaches from [newModel], under any sequence of messages, every
    Instance node of the store holds its record (so [RenderNode] reads
    none through [nil]), a record is selected whenever the state is
    [StateReadyToConnect] (so [View] reads none through [nil]), and
    [handleSSHConnection] does not panic. *)
Theorem no_nil_record_is_read (project : string) (msgs : list Msg) :
  let m := run (newModel project) msgs in
  (∀ t, Type_ (heap m !!! t) = InstanceNode → is_Some (VM_ (heap m !!! t))) ∧
  (state m = StateReadyToConnect → is_Some (selectedVM m)) ∧
  handleSSHConnection m ≠ Panics.
Proof.
  intros m. destruct (run_recorded project msgs) as [Hr Hsel]. fold m in Hr, Hsel.
  split; [intros t; by apply recorded_lookup|]. split; [done|].
  unfold handleSSHConnection. case_bool_decide as Hst; simpl; [|done].
  destruct (quitting m); simpl; [done|].
  destruct (Hsel Hst) as [vm ->].
  destruct (ConnectSSH_total (selectedProject m) (VMName vm) (VMZone vm)) as [o ->].
  by destruct o as [|[|]].
Qed.


End Handover.


(** ** The service and the runtime *)

Section Runtime.
Context `{GoStrings} `{Lipgloss} `{!Bubbles} `{Gcloud}.

Lemma LoadProjects_active_filter (projects : list Project) :
  LoadProjects_active projects = filter (λ p, ProjectStatus p = "ACTIVE") projects.
Proof.
  unfold LoadProjects_active.
  assert (∀ acc, foldl (λ activeProjects project,
                          if decide (ProjectStatus project = "ACTIVE")
                          then activeProjects ++ [project] else activeProjects)
                   acc projects
                 = acc ++ filter (λ p, ProjectStatus p = "ACTIVE") projects) as Hgen.
  { induction projects as [|p ps IH]; intros acc; simpl; [by rewrite app_nil_r|].
    rewrite IH, filter_cons. case_decide; [by rewrite <-app_assoc|done]. }
  apply Hgen.
Qed.

(** X15.  The answer of [LoadProjects] is an error that is not [nil], which
    [Update] records and nothing else, or the projects of [gcloud]'s list
    whose state is [ACTIVE], in the order listed: then the controller
    holds exactly those, is in [StateSelectingProject] and shows one row
    for each. *)
Theorem LoadProjects_only_active (m : model) :
  (∃ e, LoadProjects_run = ErrorMsg (Some e) ∧
        Update m LoadProjects_run = (set_err (Some e) m, Cmd_nil)) ∨
  (∃ output listed,
     exec_Output ["gcloud"; "projects"; "list";
                  "--format"; "json(projectId,name,lifecycleState)"] = inl output ∧
     json_Unmarshal_Projects output = inl listed ∧
     let m' := (Update m LoadProjects_run).1 in
     projects m' = filter (λ p, ProjectStatus p = "ACTIVE") listed ∧
     (∀ p, p ∈ projects m' ↔ p ∈ listed ∧ ProjectStatus p = "ACTIVE") ∧
     state m' = StateSelectingProject ∧
     list_ m' = list_SetTitle "Select GCP Project"
                  (list_SetItems (projectItems (projects m')) (list_ m))).
Proof.
  unfold LoadProjects_run.
  destruct (exec_Output _) as [output|e] eqn:Hout; [|left; by eexists].
  destruct (json_Unmarshal_Projects output) as [listed|e] eqn:Hjson; [|left; by eexists].
  right. exists output, listed. split; [done|]. split; [done|].
  simpl. rewrite LoadProjects_active_filter. split; [done|]. split; [|done].
  intros p. rewrite (list_elem_of_filter (λ p, ProjectStatus p = "ACTIVE")). tauto.
Qed.

(** X16.  The answer of [LoadVMs] is an error that is not [nil], which
    [Update] records and nothing else, or the records [gcloud] has listed
    for the project, whatever their status: then the controller is in
    [StateSelectingVM] and the nodes of its tree hold exactly those
    records, each once. *)
Theorem LoadVMs_lists_every_record (m : model) (project : string) :
  (∃ e, LoadVMs_run project = ErrorMsg (Some e) ∧
        Update m (LoadVMs_run project) = (set_err (Some e) m, Cmd_nil)) ∨
  (∃ output listed,
     exec_Output ["gcloud"; "compute"; "instances"; "list"; "--project"; project;
                  "--format"; "json(name,zone,status,metadata.items)"] = inl output ∧
     json_Unmarshal_VMs output = inl listed ∧
     let m' := (Update m (LoadVMs_run project)).1 in
     state m' = StateSelectingVM ∧
     recordsOf (heap m') (nodes (treeManager m')) ≡ₚ Some <$> listed).
Proof.
  unfold LoadVMs_run.
  destruct (exec_Output _) as [output|e] eqn:Hout; [|left; by eexists].
  destruct (json_Unmarshal_VMs output) as [listed|e] eqn:Hjson; [|left; by eexists].
  right. exists output, listed. split; [done|]. split; [done|]. simpl.
  pose proof (BuildFromVMs_recordsOf listed (treeManager m) (heap m)) as Hrec.
  destruct (BuildFromVMs listed (treeManager m) (heap m)) as [tm h]. simpl in *.
  split; [done|]. by rewrite Hrec, members_perm.
Qed.

(** *** Loads and their answers *)

Lemma filter_delete_other {A} (P : A → Prop) `{∀ x, Decision (P x)} (l : list A)
    (i : nat) (x : A) :
  l !! i = Some x → ¬ P x → filter P (delete i l) = filter P l.
Proof.
  intros Hi Hx. rewrite <-(take_drop_middle l i x Hi) at 2.
  rewrite delete_take_drop, !filter_app, filter_cons. by rewrite decide_False.
Qed.

Lemma filter_delete_single {A} (P : A → Prop) `{∀ x, Decision (P x)} (l : list A)
    (i : nat) (x c : A) :
  l !! i = Some x → P x → filter P l = [c] → x = c ∧ filter P (delete i l) = [].
Proof.
  intros Hi Hx. rewrite <-(take_drop_middle l i x Hi) at 1.
  rewrite delete_take_drop, !filter_app, filter_cons, decide_True by done.
  intros Heq. destruct (filter P (take i l)) as [|y l1].
  - simpl in Heq. injection Heq as -> ->. done.
  - simpl in Heq. injection Heq as -> Heq. by destruct l1.
Qed.

(** What a message of the terminal can do: it leaves the error and the
    projects alone, changes nothing in a loading state, and the only load
    it can ask for is that of the instances of the project it selects. *)
Lemma transition_terminal (m m' : model) (msg : Msg) (cmd : Cmd) :
  transition m msg m' cmd → fromTerminal msg = true →
  err m' = err m ∧ projects m' = projects m ∧
  (state m = StateLoadingProjects ∨ state m = StateLoadingVMs →
   state m' = state m ∧ selectedProject m' = selectedProject m ∧ isLoad cmd = false) ∧
  (isLoad cmd = true → cmd = LoadVMs (selectedProject m') ∧ state m' = StateLoadingVMs).
Proof.
  intros Htr Hterm.
  destruct Htr; try done;
    rewrite ?updateVMList_err, ?updateVMList_projects, ?updateVMList_state,
      ?updateVMList_selectedProject; simpl;
    (split; [done|]); (split; [done|]); (split; [|try done]);
    intros [Hs|Hs]; try done; try congruence;
    repeat match goal with Hor : _ ∨ _ |- _ => destruct Hor end; congruence.
Qed.

(** What the answer of a load does: an error is recorded and nothing
    else; a list moves the controller to the selecting state. *)
Lemma answers_Update (m : model) (cmd : Cmd) (msg : Msg) :
  answers cmd msg = true →
  isLoad cmd = true ∧ (Update m msg).2 = Cmd_nil ∧
  ((∃ e, msg = ErrorMsg (Some e) ∧ (Update m msg).1 = set_err (Some e) m) ∨
   (err (Update m msg).1 = err m ∧
    ((∃ Projects, cmd = LoadProjects ∧ msg = ProjectsLoadedMsg Projects ∧
                  state (Update m msg).1 = StateSelectingProject) ∨
     (∃ project VMs, cmd = LoadVMs project ∧ msg = VMsLoadedMsg VMs ∧
                     state (Update m msg).1 = StateSelectingVM ∧
                     projects (Update m msg).1 = projects m ∧
                     selectedProject (Update m msg).1 = selectedProject m)))).
Proof.
  destruct cmd as [| | |project|]; try done; destruct msg as [| |ps|vms|[e|]|]; try done;
    intros _; (split; [done|]).
  - split; [done|]. right. split; [done|]. left. by exists ps.
  - split; [done|]. left. by exists e.
  - simpl. destruct (BuildFromVMs _ _ _) as [tm h]. simpl. split; [done|].
    right. split; [done|]. right. by exists project, vms.
  - split; [done|]. left. by exists e.
Qed.

(** The answers of the service are answers the runtime can deliver. *)
Lemma perform_answers (cmd : Cmd) (msg : Msg) : perform cmd = Some msg → answers cmd msg = true.
Proof.
  destruct cmd as [| | |project|]; try done; simpl; intros [= <-].
  - unfold LoadProjects_run. destruct (exec_Output _) as [output|e]; [|done].
    by destruct (json_Unmarshal_Projects output).
  - unfold LoadVMs_run. destruct (exec_Output _) as [output|e]; [|done].
    by destruct (json_Unmarshal_VMs output).
Qed.

Lemma program_snoc (project : string) (events : list Event) (e : Event) :
  program project (events ++ [e]) = deliver (program project events) e.
Proof. unfold program. by rewrite foldl_app. Qed.

(** The loads not yet answered and the state: at most one load is
    pending, the controller waits for it in its loading state with no
    error recorded, and an error is only ever held in a loading state. *)
Lemma program_loads (project : string) (events : list Event) :
  let m := rt_model (program project events) in
  let loads := filter (λ cmd, isLoad cmd = true) (rt_pending (program project events)) in
  (loads = [] ∧
   (err m = None ∨ state m = StateLoadingProjects ∨ state m = StateLoadingVMs)) ∨
  (loads = [LoadProjects] ∧ state m = StateLoadingProjects ∧ err m = None) ∨
  (loads = [LoadVMs (selectedProject m)] ∧ state m = StateLoadingVMs ∧ err m = None).
Proof.
  induction events as [|e events IH] using rev_ind.
  - unfold program, newModel, Init. simpl. case_decide as Hp; simpl.
    + rewrite bool_decide_eq_true_2 by done. simpl. right. by right.
    + rewrite andb_false_r. simpl. right. by left.
  - rewrite program_snoc. destruct (program project events) as [m pending listing].
    simpl in IH. destruct e as [msg|i msg]; simpl.
    + destruct (fromTerminal msg) eqn:Hterm; [|done]. simpl.
      destruct (transition_terminal m _ msg _ (Update_transition m msg) Hterm)
        as (Herr & _ & Hload & Hcmd).
      rewrite filter_app, filter_cons, filter_nil, Herr.
      destruct IH as [[Hl Hm]|[(Hl & Hs & He)|(Hl & Hs & He)]].
      * rewrite Hl. simpl. destruct (isLoad (Update m msg).2) eqn:Hc.
        -- destruct (Hcmd eq_refl) as (Hp & Hs'). rewrite decide_True by done.
           destruct Hm as [He|Hs]; [|destruct (Hload Hs) as (_ & _ & ?); congruence].
           right. right. by rewrite Hp at 1.
        -- rewrite decide_False by congruence. left. split; [done|].
           destruct Hm as [He|Hs]; [by left|]. right. destruct (Hload Hs) as [-> _]. done.
      * destruct (Hload (or_introl Hs)) as (Hs' & _ & Hc). rewrite Hl, Hs', Hc.
        rewrite decide_False by done. right. by left.
      * destruct (Hload (or_intror Hs)) as (Hs' & Hp' & Hc). rewrite Hl, Hs', Hp', Hc.
        rewrite decide_False by done. right. by right.
    + destruct (pending !! i) as [cmd|] eqn:Hi; [|done].
      destruct (answers cmd msg) eqn:Hans; [|done]. simpl.
      destruct (answers_Update m cmd msg Hans) as (Hc & Hnil & Hup).
      rewrite filter_app, filter_cons, filter_nil, Hnil. simpl. rewrite !app_nil_r.
      assert (∃ c, filter (λ cmd, isLoad cmd = true) pending = [c]
                   ∧ (state m = StateLoadingProjects ∨ state m = StateLoadingVMs)
                   ∧ err m = None) as (c & Hl & Hs & He).
      { destruct IH as [[Hl Hm]|[(Hl & Hs & He)|(Hl & Hs & He)]]; [|eauto..].
        exfalso. assert (cmd ∈ filter (λ cmd, isLoad cmd = true) pending) as Hin.
        { apply (list_elem_of_filter (λ cmd, isLoad cmd = true)).
          split; [done|]. by eapply list_elem_of_lookup_2. }
        rewrite Hl in Hin. by apply elem_of_nil in Hin. }
      destruct (filter_delete_single (λ cmd, isLoad cmd = true) pending i cmd c Hi Hc Hl)
        as [-> ->].
      left. split; [done|].
      destruct Hup as [(e & -> & ->)|[Herr _]]; simpl; [by right|]. left. congruence.
Qed.


(** The projects are set by the answer of [LoadProjects] alone, and
    [Update] never asks for it. *)
Lemma program_projects (project : string) (events : list Event) :
  project ≠ "" →
  projects (rt_model (program project events)) = [] ∧
  Forall (λ cmd, cmd ≠ LoadProjects) (rt_pending (program project events)).
Proof.
  intros Hp. induction events as [|e events IH] using rev_ind.
  - unfold program, newModel, Init. simpl. rewrite decide_True by done. simpl.
    rewrite bool_decide_eq_true_2 by done. simpl. split; [done|]. by repeat constructor.
  - rewrite program_snoc. destruct (program project events) as [m pending listing].
    simpl in IH. destruct IH as [Hps Hcmds]. destruct e as [msg|i msg]; simpl.
    + destruct (fromTerminal msg) eqn:Hterm; [|done]. simpl.
      destruct (transition_terminal m _ msg _ (Update_transition m msg) Hterm)
        as (_ & Hproj & _ & Hcmd).
      split; [congruence|]. apply Forall_app. split; [done|]. constructor; [|done].
      intros Heq. rewrite Heq in Hcmd. by destruct (Hcmd eq_refl) as [? _].
    + destruct (pending !! i) as [cmd|] eqn:Hi; [|done].
      assert (Forall (λ cmd, cmd ≠ LoadProjects) (delete i pending)) as Hdel
        by (by apply Forall_delete).
      destruct (answers cmd msg) eqn:Hans; simpl; [|done].
      destruct (answers_Update m cmd msg Hans) as (_ & Hnil & Hup). rewrite Hnil.
      split; [|apply Forall_app; split; [done|by repeat constructor]].
      destruct Hup as [(e & -> & ->)|[_ [(ps & -> & _)|(p & vms & _ & _ & _ & -> & _)]]];
        try done.
      rewrite Forall_forall in Hcmds. exfalso. eapply Hcmds; [|done].
      by eapply list_elem_of_lookup_2.
Qed.

(** X18.  Started with a project id, the program never loads the list of
    projects: no [LoadProjects] is ever requested and [projects] stays
    empty.  So [esc] in the VM selection leads to a project selection
    that is handed no project at all, and asks for none. *)
Theorem started_with_project_knows_no_project (project : string) (events : list Event) :
  project ≠ "" →
  let m := rt_model (program project events) in
  projects m = [] ∧ (LoadProjects ∉ rt_pending (program project events)) ∧
  (state m = StateSelectingVM → filtering m = false →
   Update m (KeyMsg "esc") =
   (set_currentlyDisplayedNodes []
      (set_state StateSelectingProject
         (set_list (list_SetTitle "Select GCP Project" (list_SetItems [] (list_ m))) m)),
    Cmd_nil)).
Proof.
  intros Hp m. destruct (program_projects project events Hp) as [Hps Hcmds].
  fold m in Hps. split; [done|]. split.
  - rewrite Forall_forall in Hcmds. intros Hin. by apply (Hcmds _ Hin).
  - intros Hs Hf. simpl. unfold shouldHandleNavigation, handleKeyPress. rewrite Hs, Hf.
    simpl. unfold handleVMSelection. simpl. unfold goBackToProjectSelection.
    by rewrite Hps.
Qed.

End Runtime.

Lemma started_with_project_knows_no_project_witness :
  let m := rt_model (program "demo" [Answer 0 (VMsLoadedMsg scenario);
                                     Input (KeyMsg "right"); Input (KeyMsg "esc")]) in
  state m = StateSelectingProject ∧ projects m = [] ∧ pl_items (list_ m) = [].
Proof.
  assert ("demo" ≠ "") as Hp by done.
  destruct (started_with_project_knows_no_project "demo"
              [Answer 0 (VMsLoadedMsg scenario); Input (KeyMsg "right");
               Input (KeyMsg "esc")] Hp) as (Hps & _ & _).
  split; [reflexivity|]. split; [exact Hps|reflexivity].
Defined.

(** ** Keys, quitting and rows *)

Section Keys.
Context `{GoStrings} `{Lipgloss} `{!Bubbles}.

Lemma updateVMList_mstyles (m : model) : mstyles (updateVMList m) = mstyles m.
Proof.
  unfold updateVMList. destruct (filtering m && bool_decide (filterText m ≠ ""));
    [by destruct (Filter _ _ _)|done].
Qed.

Lemma run_app (m : model) (msgs msgs' : list Msg) :
  run m (msgs ++ msgs') = run (run m msgs) msgs'.
Proof. unfold run. by rewrite foldl_app. Qed.

(** X19.  Quitting is told by the flag alone and is final: no state
    reached from [newModel] is [StateQuitting], and once [quitting] is
    set no message clears it, so [View] shows the farewell from then on. *)
Theorem quitting_is_by_flag_and_final (project : string) (msgs msgs' : list Msg) :
  state (run (newModel project) msgs) ≠ StateQuitting ∧
  (quitting (run (newModel project) msgs) = true →
   quitting (run (newModel project) (msgs ++ msgs')) = true ∧
   View (run (newModel project) (msgs ++ msgs')) = Render (sQuitText NewStyles) "Goodbye!").
Proof.
  assert (∀ l, state (run (newModel project) l) ≠ StateQuitting ∧
               mstyles (run (newModel project) l) = NewStyles) as Hinv.
  { intros l. apply (run_invariant (λ m, state m ≠ StateQuitting ∧ mstyles m = NewStyles)).
    - intros m msg m' cmd [Hs Hst] Htr.
      destruct Htr; rewrite ?updateVMList_state, ?updateVMList_mstyles; by simpl.
    - unfold newModel. by case_decide. }
  split; [apply Hinv|]. intros Hq.
  assert (quitting (run (newModel project) (msgs ++ msgs')) = true) as Hq'.
  { rewrite run_app. revert Hq. generalize (run (newModel project) msgs).
    apply (run_invariant (λ m, quitting m = true)).
    intros m msg m' cmd Hm Htr. destruct Htr; rewrite ?updateVMList_quitting; by simpl. }
  split; [done|]. unfold View. rewrite Hq'. by destruct (Hinv (msgs ++ msgs')) as [_ ->].
Qed.

(** X20.  A failed load of the instances changes nothing on the screen and
    leaves one key: in [StateLoadingVMs] an [ErrorMsg] is recorded, the
    state and what [View] shows stay as they were, and afterwards every
    key but [ctrl+c] is ignored, [q] included. *)
Theorem failed_VM_load_hangs (m : model) (e : error) (keypress : string) :
  state m = StateLoadingVMs → keypress ≠ "ctrl+c" →
  let m' := (Update m (ErrorMsg e)).1 in
  state m' = StateLoadingVMs ∧ err m' = e ∧ View m' = View m ∧
  Update m' (KeyMsg keypress) = (m', Cmd_nil) ∧
  Update m' (KeyMsg "ctrl+c") = (set_quitting true m', tea_Quit).
Proof.
  intros Hs Hk. simpl. split; [done|]. split; [done|]. split.
  - unfold View. simpl. rewrite Hs. simpl. by destruct (quitting m).
  - unfold shouldHandleNavigation, handleKeyPress, handleGlobalKeys. simpl. rewrite Hs.
    simpl. split; [|done]. by repeat case_decide.
Qed.



Lemma length_snoc (s : string) (c : ascii) :
  String.length (s +:+ String c "") = S (String.length s).
Proof. induction s as [|d s IH]; [done|]. rewrite append_cons. simpl. by rewrite IH. Qed.

Lemma substring_prefix (s t : string) : substring 0 (String.length s) (s +:+ t) = s.
Proof.
  induction s as [|d s IH]; [by destruct t|]. rewrite append_cons. simpl. by rewrite IH.
Qed.

Lemma dropLast_snoc (s : string) (c : ascii) : strings.dropLast (s +:+ String c "") = s.
Proof.
  unfold strings.dropLast. rewrite length_snoc. simpl. rewrite Nat.sub_0_r.
  apply substring_prefix.
Qed.

(** X22.  In the filtering sub-mode a typed character is appended to the
    query and [backspace] (or [ctrl+h]) takes it off again, leaving the
    query as it was and the sub-mode on; on an empty query [backspace]
    does nothing: it does not leave the sub-mode. *)
Theorem backspace_undoes_typing (m : model) (c : ascii) (erase : string) :
  state m = StateSelectingVM → filtering m = true → typable c →
  erase = "backspace" ∨ erase = "ctrl+h" →
  let typed := (Update m (KeyMsg (String c ""))).1 in
  let erased := (Update typed (KeyMsg erase)).1 in
  filterText typed = filterText m +:+ String c "" ∧
  filterText erased = filterText m ∧
  state erased = StateSelectingVM ∧ filtering erased = true ∧
  (filterText m = "" → Update m (KeyMsg erase) = (m, Cmd_nil)).
Proof.
  intros Hs Hf (Hc & Hj & Hk) Herase.
  assert (∀ x, state x = StateSelectingVM → filtering x = true →
               Update x (KeyMsg erase) =
               if decide (0 < String.length (filterText x))
               then (updateVMList (set_filterText (strings.dropLast (filterText x)) x),
                     Cmd_nil)
               else (x, Cmd_nil)) as Herased.
  { intros x Hxs Hxf. simpl. unfold shouldHandleNavigation, handleKeyPress.
    rewrite Hxs, Hxf. simpl. destruct Herase as [-> | ->]; by simpl. }
  assert (Update m (KeyMsg (String c "")) =
          (updateVMList (set_filterText (filterText m +:+ String c "") m), Cmd_nil)) as Htyped.
  { simpl. unfold shouldHandleNavigation, handleKeyPress. rewrite Hs, Hf. simpl.
    rewrite bool_decide_eq_false_2.
    - unfold handleFilteringInput.
      rewrite !decide_False; [by rewrite Hc|by intros [=]|by intros [[=]|[=]]|by intros [=]].
    - intros Hn. repeat (apply elem_of_cons in Hn as [Hn|Hn]; [by injection Hn|]).
      by apply elem_of_nil in Hn. }
  cbv zeta. rewrite Htyped. cbn [fst].
  rewrite Herased by (by rewrite ?updateVMList_state, ?updateVMList_filtering).
  rewrite updateVMList_filterText. cbn [filterText set_filterText].
  rewrite decide_True by (rewrite length_snoc; lia).
  cbn [fst]. rewrite updateVMList_filterText, updateVMList_state, updateVMList_filtering.
  cbn [filterText state filtering set_filterText]. rewrite dropLast_snoc.
  rewrite updateVMList_state, updateVMList_filtering. conjs; try done.
  intros Hempty. rewrite Herased by done. by rewrite Hempty.
Qed.

(** After a load the display is the list of top-level nodes. *)
Lemma VMsLoaded_display (m : model) (vms : list VM) :
  currentlyDisplayedNodes (Update m (VMsLoadedMsg vms)).1 =
  nodes (BuildFromVMs vms (treeManager m) (heap m)).1.
Proof.
  simpl.
  pose proof (BuildFromVMs_layout vms (treeManager m) (heap m))
    as (groupLocs & instLocs & Hn & Hg & Hi).
  destruct (BuildFromVMs vms (treeManager m) (heap m)) as [tm' h'] eqn:Hb. simpl in *.
  replace (set_nodes (GetNodes tm') tm') with tm' by (by destruct tm').
  rewrite FlattenForDisplay_eq.
  assert (Forall (λ p, IsExpanded (h' !!! p) = false) (nodes tm')) as Hcollapsed.
  { rewrite Hn. apply Forall_app. split.
    - clear Hn Hi. induction Hg as [|p g ps gs (kids & Hcell & _) Hg IH]; constructor; [|done].
      by rewrite Hcell.
    - apply Forall_forall. intros p Hp.
      assert (h' !!! p ∈ cells h' instLocs) as Hin by (apply elem_of_cells; eauto).
      rewrite Hi in Hin. apply list_elem_of_fmap in Hin as (vm & -> & _). done. }
  revert Hcollapsed. generalize (nodes tm'). clear. intros l Hcollapsed.
  induction Hcollapsed as [|p l Hp Hl IH]; [done|].
  rewrite fmap_cons. simpl. rewrite IH. unfold rowsOf.
  rewrite bool_decide_eq_false_2; [done|]. intros [_ ?]. congruence.
Qed.

(** X23.  What the list is given after a load: one row per group, in
    ascending order of name, each with the collapsed mark, the name and
    the number of records of the group, then one row per ungrouped
    record in source order, each with the badge of its status in the
    style of that status and its name. *)
Theorem loaded_rows (m : model) (vms : list VM) :
  let m' := (Update m (VMsLoadedMsg vms)).1 in
  let st := styles (treeManager m) in
  RenderNode (treeManager m') (heap m') <$> currentlyDisplayedNodes m' =
    ((λ g, Render (sCollapsed st) "▶" +:+ " " +:+ Render (sGroup st) g +:+ " ("
             +:+ pretty (Z.of_nat (length (membersOf g vms))) +:+ " instances)")
       <$> groupNamesOf vms) ++
    ((λ vm, Render (GetStyle (VMStatus_ vm) st) ("[" +:+ GetAbbreviation (VMStatus_ vm) +:+ "]")
              +:+ " " +:+ VMName vm)
       <$> membersOf "" vms) ∧
  list_ m' =
    list_SetTitle ("Sunrise Parabellum" +:+ LF +:+ "Select VM from project: "
                     +:+ selectedProject m)
      (list_SetItems (RenderNode (treeManager m') (heap m') <$> currentlyDisplayedNodes m')
         (list_ m)).
Proof.
  intros m' st. split.
  - unfold m'. rewrite VMsLoaded_display.
    assert (treeManager (Update m (VMsLoadedMsg vms)).1
            = (BuildFromVMs vms (treeManager m) (heap m)).1 ∧
            heap (Update m (VMsLoadedMsg vms)).1
            = (BuildFromVMs vms (treeManager m) (heap m)).2) as [-> ->].
    { simpl. by destruct (BuildFromVMs vms (treeManager m) (heap m)). }
    assert (styles (BuildFromVMs vms (treeManager m) (heap m)).1 = st) as Hst.
    { unfold BuildFromVMs. destruct (BuildFromVMs_partition vms).
      destruct (BuildFromVMs_groups _ _ _ _). by destruct (BuildFromVMs_ungrouped _ _ _). }
    destruct (BuildFromVMs_layout vms (treeManager m) (heap m))
      as (groupLocs & instLocs & -> & Hg & Hi).
    revert Hst Hg Hi. generalize (BuildFromVMs vms (treeManager m) (heap m)).
    intros [tm' h'] Hst Hg Hi. simpl in *. rewrite fmap_app. f_equal.
    + clear Hi. induction Hg as [|p g ps gs (kids & Hcell & Hkids) Hg IH]; [done|].
      rewrite !fmap_cons, IH. f_equal. unfold RenderNode. rewrite Hcell, Hst. simpl.
      assert (length kids = length (membersOf g vms)) as ->.
      { apply (f_equal length) in Hkids. unfold cells in Hkids.
        by rewrite !length_fmap in Hkids. }
      done.
    + revert Hi. generalize (membersOf "" vms). clear -Hst. intros l.
      revert l. induction instLocs as [|p ps IH]; intros [|vm l] Hi; try done.
      unfold cells in Hi. rewrite !fmap_cons in Hi. injection Hi as Hp Hps.
      rewrite !fmap_cons, (IH l) by done. f_equal.
      unfold RenderNode. rewrite Hp, Hst. by simpl.
  - unfold m'. simpl. destruct (BuildFromVMs vms (treeManager m) (heap m)) as [tm' h'].
    by simpl.
Qed.


(** X24.  The query is made of typed bytes only: in every state reached
    from [newModel] each byte of [filterText] is a letter, a digit, [-],
    [_] or a space, and is neither [j] nor [k], which are taken as
    navigation keys before they can be typed; and outside the filtering
    sub-mode the query is empty. *)
Theorem query_is_typed (project : string) (msgs : list Msg) :
  let m := run (newModel project) msgs in
  Forall (λ c, isValidFilterChar c = true ∧ c ≠ "j"%char ∧ c ≠ "k"%char)
    (list_ascii_of_string (filterText m)) ∧
  (filtering m = false → filterText m = "").
Proof. intros m. destruct (run_query project msgs) as [Hq Hoff]. by split. Qed.

(** X25.  [GetStyle] follows the badge: a status is styled by the letter
    [GetAbbreviation] gives it, and every status without a letter of its
    own has the style of a plain item. *)
Theorem GetStyle_follows_badge (s : VMStatus) (styles : Styles) :
  GetStyle s styles =
  if decide (GetAbbreviation s = "R") then sRunning styles
  else if decide (GetAbbreviation s = "T") then sTerminated styles
  else if decide (GetAbbreviation s = "P") then sProvisioning styles
  else if decide (GetAbbreviation s = "S") then sStopping styles
  else sItem styles.
Proof. unfold GetStyle, GetAbbreviation. by repeat case_decide. Qed.

End Keys.

Lemma failed_VM_load_hangs_witness :
  let m := (Update (newModel "demo") (ErrorMsg (Some "exit status 1"))).1 in
  View m = View (newModel "demo") ∧ Update m (KeyMsg "q") = (m, Cmd_nil).
Proof.
  assert (state (newModel "demo") = StateLoadingVMs) as Hs by reflexivity.
  assert ("q" ≠ "ctrl+c") as Hk by done.
  destruct (failed_VM_load_hangs (newModel "demo") (Some "exit status 1") "q" Hs Hk)
    as (_ & _ & Hview & Hq & _).
  split; [exact Hview|exact Hq].
Defined.


Lemma backspace_undoes_typing_witness :
  filterText (pressKeys filteringModel ["w"; "e"; "backspace"]) = "w".
Proof.
  assert (state (pressKeys filteringModel ["w"]) = StateSelectingVM) as Hs by reflexivity.
  assert (filtering (pressKeys filteringModel ["w"]) = true) as Hf by reflexivity.
  assert (typable "e") as Hc by (repeat split; done).
  destruct (backspace_undoes_typing (pressKeys filteringModel ["w"]) "e" "backspace"
              Hs Hf Hc (or_introl eq_refl)) as (_ & Herased & _).
  exact Herased.
Defined.

(** ** The instance handed to ssh *)

Section Listing.
Context `{GoStrings} `{Lipgloss} `{!Bubbles} `{Gcloud}.

Lemma flipExpanded_VM (h : store) (p q : loc) :
  VM_ (alter flipExpanded p h !!! q) = VM_ (h !!! q).
Proof.
  destruct (decide (p = q)) as [->|Hne]; [|by rewrite list_lookup_total_alter_ne].
  destruct (decide (q < length h)) as [Hlt|Hge].
  - by rewrite list_lookup_total_alter_eq.
  - rewrite !lookup_total_ge_zero; [done|lia|rewrite length_alter; lia].
Qed.

Lemma treeOf_extend (vms : list VM) (h ext : store) (l : list loc) :
  closed h l → treeOf vms h l → treeOf vms (h ++ ext) l.
Proof.
  intros Hc Ht p Hp. unfold closed in Hc. rewrite Forall_forall in Hc.
  destruct (Hc p Hp) as [Hlt Hkids]. rewrite Forall_forall in Hkids.
  rewrite lookup_total_app_l by done. destruct (Ht p Hp) as [Hi Hk]. split; [done|].
  intros c Hin. rewrite lookup_total_app_l by (by apply Hkids). by apply Hk.
Qed.

Lemma treeOf_flipExpanded (vms : list VM) (h : store) (q : loc) (l : list loc) :
  treeOf vms h l → treeOf vms (alter flipExpanded q h) l.
Proof.
  intros Ht p Hp. destruct (Ht p Hp) as [Hi Hk].
  destruct (flipExpanded_read h q p) as (-> & _ & ->). rewrite flipExpanded_VM.
  split; [done|]. intros c Hc. rewrite flipExpanded_VM. by apply Hk.
Qed.

Lemma BuildFromVMs_treeOf (vms : list VM) (tm : TreeManager) (h : store) :
  treeOf vms (BuildFromVMs vms tm h).2 (nodes (BuildFromVMs vms tm h).1).
Proof.
  destruct (BuildFromVMs_layout vms tm h) as (groupLocs & instLocs & -> & Hg & Hi).
  set (h' := (BuildFromVMs vms tm h).2) in *.
  intros p [Hp|Hp]%elem_of_app.
  - apply list_elem_of_lookup in Hp as [i Hi'].
    destruct (Forall2_lookup_l _ _ _ _ _ Hg Hi') as (g & _ & kids & Hcell & Hkids).
    rewrite Hcell. split; [done|]. simpl. intros c Hc.
    assert (h' !!! c ∈ cells h' kids) as Hin by (apply elem_of_cells; eauto).
    rewrite Hkids in Hin. apply list_elem_of_fmap in Hin as (vm & -> & Hvm).
    exists vm. split; [done|]. by apply elem_of_membersOf in Hvm as [_ ?].
  - assert (h' !!! p ∈ cells h' instLocs) as Hin by (apply elem_of_cells; eauto).
    rewrite Hi in Hin. apply list_elem_of_fmap in Hin as (vm & -> & Hvm). split.
    + intros _. exists vm. split; [done|]. by apply elem_of_membersOf in Hvm as [_ ?].
    + simpl. by intros c ?%elem_of_nil.
Qed.

Lemma filterRule_Children (h : store) (query : string) (n n' : TreeNode) (c : loc) :
  filterRule h query n = Some n' → c ∈ Children n' → c ∈ Children n.
Proof.
  unfold filterRule. destruct (Type_ n).
  - destruct (nameMatches query n); [by intros [= <-]|].
    destruct (matchingChildrenOf h query n) as [|k kids] eqn:Hk; [done|].
    intros [= <-]. simpl. rewrite <-Hk. unfold matchingChildrenOf.
    by intros [_ ?]%(list_elem_of_filter (λ c, nameMatches query (h !!! c))).
  - destruct (nameMatches query n); [by intros [= <-]|done].
Qed.

Lemma elem_of_rowsOf (h : store) (p t : loc) :
  t ∈ rowsOf h p → t = p ∨ t ∈ Children (h !!! p).
Proof.
  unfold rowsOf. intros [->|Hin]%elem_of_cons; [by left|].
  case_bool_decide; [by right|by apply elem_of_nil in Hin].
Qed.

(** What [updateVMList] displays are rows of a view of the canonical
    tree. *)
Lemma updateVMList_viewRows (m : model) :
  closed (heap m) (nodes (treeManager m)) →
  Forall (viewRow (heap (updateVMList m)) (nodes (treeManager m)))
    (currentlyDisplayedNodes (updateVMList m)).
Proof.
  intros Hc. rewrite updateVMList_displayed, updateVMList_heap.
  apply Forall_forall. intros t Ht.
  destruct (filtering m && bool_decide (filterText m ≠ "")) eqn:Hon.
  - apply andb_true_iff in Hon as [_ Hq%bool_decide_eq_true].
    unfold GetNodes in *.
    destruct (Filter_spec (nodes (treeManager m)) (filterText m) (heap m) Hc Hq)
      as (ext & Hheap & Hcells & _).
    destruct (Filter_frame_spec (nodes (treeManager m)) (filterText m) (heap m) Hq)
      as (ext' & Hheap' & Horigin).
    rewrite FlattenForDisplay_eq in Ht. simpl in Ht.
    apply elem_of_concat in Ht as (rows & Ht & Hrows).
    apply list_elem_of_fmap in Hrows as (r & -> & Hr).
    apply elem_of_rowsOf in Ht as [->|Hkid].
    + rewrite Forall_forall in Horigin. specialize (Horigin r Hr).
      rewrite <-Hheap' in Horigin. destruct Horigin as [(_ & Hin & _)|(_ & Hg & _)].
      * right. by left.
      * by left.
    + right. right.
      assert ((Filter (nodes (treeManager m)) (filterText m) (heap m)).2 !!! r
              ∈ omap (filterRule (heap m) (filterText m)) (cells (heap m) (nodes (treeManager m))))
        as Hin.
      { rewrite <-Hcells, <-Hheap. apply elem_of_cells. eauto. }
      apply list_elem_of_omap in Hin as (n & Hn & Hrule).
      apply elem_of_cells in Hn as (p & Hp & <-). exists p. split; [done|].
      unfold closed in Hc. rewrite Forall_forall in Hc. destruct (Hc p Hp) as [Hlt _].
      rewrite Hheap, lookup_total_app_l by done.
      by eapply filterRule_Children.
  - rewrite FlattenForDisplay_eq in Ht.
    apply elem_of_concat in Ht as (rows & Ht & Hrows).
    apply list_elem_of_fmap in Hrows as (p & -> & Hp).
    apply elem_of_rowsOf in Ht as [->|Hkid]; right; [by left|right; eauto].
Qed.


Lemma updateVMList_servesListing (m : model) (vms : list VM) :
  state m = StateSelectingVM → closed (heap m) (nodes (treeManager m)) →
  treeOf vms (heap m) (nodes (treeManager m)) →
  servesListing (Some (selectedProject m, vms)) (updateVMList m).
Proof.
  intros Hs Hc Ht. split.
  - intros _. exists vms. rewrite updateVMList_selectedProject, updateVMList_treeManager.
    split; [done|]. split.
    + destruct (updateVMList_heap_extends m) as [ext ->]. by apply treeOf_extend.
    + rewrite updateVMList_state. congruence.
  - intros _. rewrite updateVMList_treeManager. by apply updateVMList_viewRows.
Qed.

(** A message of the terminal keeps the model serving the listing. *)
Lemma Update_servesListing (m : model) (msg : Msg) (listing : option (string * list VM)) :
  closed (heap m) (nodes (treeManager m)) → fromTerminal msg = true →
  servesListing listing m → servesListing listing (Update m msg).1.
Proof.
  intros Hc Hterm Hsv.
  assert (state m = StateSelectingVM →
          ∃ vms, listing = Some (selectedProject m, vms) ∧
                 treeOf vms (heap m) (nodes (treeManager m))) as Hsel.
  { intros Hs. destruct Hsv as [Hb _]. destruct (Hb (or_introl Hs)) as (vms & ? & ? & _).
    eauto. }
  assert (∀ f : model → model,
            (∀ x, state (f x) = state x ∧ heap (f x) = heap x ∧
                  treeManager (f x) = treeManager x ∧
                  selectedProject (f x) = selectedProject x) →
            state m = StateSelectingVM → servesListing listing (updateVMList (f m)))
    as Hfresh.
  { intros f Hf Hs. destruct (Hsel Hs) as (vms & -> & Ht).
    destruct (Hf m) as (Hfs & Hfh & Hft & Hfp). rewrite <-Hfp.
    apply updateVMList_servesListing; rewrite ?Hfs, ?Hfh, ?Hft; done. }
  destruct (Update_transition m msg) as
    [ | | | | | | |projectDisplay Hs _ projectID|Hs _| | | |keypress t h Hs _ _ Hh
     |t Hs Hcur Ht]; try done.
  - split; [intros [Hst|Hst]|intros Hst]; simpl in Hst; congruence.
  - split; [intros [Hst|Hst]|intros Hst]; simpl in Hst; congruence.
  - by apply (Hfresh (λ x, set_filterText "" (set_filtering on x))).
  - by apply (Hfresh (λ x, set_filterText (strings.dropLast (filterText m)) x)).
  - by apply (Hfresh (λ x, set_filterText (filterText m +:+ String c "") x)).
  - destruct (Hsel Hs) as (vms & -> & Htree).
    change (selectedProject m) with (selectedProject (set_heap h m)).
    apply updateVMList_servesListing; simpl; [done|..];
      destruct Hh as [->|(p & _ & _ & ->)]; try done;
      [by apply closed_flipExpanded|by apply treeOf_flipExpanded].
  - destruct (Hsel Hs) as (vms & -> & Htree). split; [|simpl; congruence].
    intros _. exists vms. simpl. split; [done|]. split; [done|]. intros _.
    destruct Hsv as [_ Hrows]. specialize (Hrows Hs). rewrite Forall_forall in Hrows.
    destruct (Hrows t (getCurrentNode_displayed m t Hcur)) as [Hg|[Hin|(p & Hp & Hin)]].
    + congruence.
    + destruct (Htree t Hin) as [Hi _]. by apply Hi.
    + destruct (Htree p Hp) as [_ Hk]. by apply Hk.
Qed.

(** Under the runtime the model is coherent and serves the last listing
    delivered. *)
Lemma program_listing (project : string) (events : list Event) :
  coherent (rt_model (program project events)) ∧
  servesListing (rt_listing (program project events)) (rt_model (program project events)).
Proof.
  induction events as [|e events IH] using rev_ind.
  - split; [apply newModel_coherent|].
    unfold program, newModel. simpl.
    case_decide; (split; simpl; [intros [Hs|Hs]|intros Hs]; congruence).
  - pose proof (program_loads project events) as Hloads.
    rewrite program_snoc. destruct (program project events) as [m pending listing].
    simpl in IH, Hloads. destruct IH as [Hco Hsv]. destruct e as [msg|i msg]; simpl.
    + destruct (fromTerminal msg) eqn:Hterm; [|done]. simpl.
      split; [by apply Update_coherent|]. apply Update_servesListing; try done.
      apply Hco.
    + destruct (pending !! i) as [cmd|] eqn:Hi; [|done].
      destruct (answers cmd msg) eqn:Hans; [|done]. simpl.
      split; [by apply Update_coherent|].
      destruct (answers_Update m cmd msg Hans) as (Hc & _ & Hup).
      assert (state m = StateLoadingProjects ∨ state m = StateLoadingVMs) as Hloading.
      { destruct Hloads as [[Hl _]|[(_ & ? & _)|(_ & ? & _)]]; [|auto..].
        exfalso. assert (cmd ∈ filter (λ cmd, isLoad cmd = true) pending) as Hin.
        { apply (list_elem_of_filter (λ cmd, isLoad cmd = true)).
          split; [done|]. by eapply list_elem_of_lookup_2. }
        rewrite Hl in Hin. by apply elem_of_nil in Hin. }
      destruct Hup as [(e & -> & ->)|[_ [(ps & -> & -> & _)|(p & vms & -> & -> & _)]]].
      * split; simpl; [intros [Hst|Hst]|intros Hst]; destruct Hloading; congruence.
      * split; [intros [Hst|Hst]|intros Hst]; simpl in Hst; congruence.
      * assert (p = selectedProject m) as ->.
        { destruct Hloads as [[Hl _]|[(Hl & _)|(Hl & _)]].
          - assert (LoadVMs p ∈ filter (λ cmd, isLoad cmd = true) pending) as Hin.
            { apply (list_elem_of_filter (λ cmd, isLoad cmd = true)).
              split; [done|]. by eapply list_elem_of_lookup_2. }
            rewrite Hl in Hin. by apply elem_of_nil in Hin.
          - by destruct (filter_delete_single (λ cmd, isLoad cmd = true) pending i
                           (LoadVMs p) LoadProjects Hi Hc Hl).
          - destruct (filter_delete_single (λ cmd, isLoad cmd = true) pending i
                        (LoadVMs p) (LoadVMs (selectedProject m)) Hi Hc Hl) as [Heq _].
            by injection Heq. }
        simpl.
        pose proof (BuildFromVMs_closed vms (treeManager m) (heap m)) as Hclosed.
        pose proof (BuildFromVMs_treeOf vms (treeManager m) (heap m)) as Htree.
        destruct (BuildFromVMs vms (treeManager m) (heap m)) as [tm h]. simpl in *.
        by apply (updateVMList_servesListing
                    (set_heap h (set_treeManager tm
                       (set_filterText "" (set_filtering false
                          (set_state StateSelectingVM m)))))).
Qed.

(** In [StateReadyToConnect] the selected record is one of the records
    last delivered, for the project now selected. *)
Lemma program_ready (project : string) (events : list Event) :
  state (rt_model (program project events)) = StateReadyToConnect →
  ∃ vm vms,
    rt_listing (program project events)
      = Some (selectedProject (rt_model (program project events)), vms) ∧
    selectedVM (rt_model (program project events)) = Some vm ∧ vm ∈ vms.
Proof.
  intros Hs. destruct (program_listing project events) as [_ [Hb _]].
  destruct (Hb (or_intror Hs)) as (vms & Hl & _ & Hvm).
  destruct (Hvm Hs) as (vm & Hsel & Hin). by exists vm, vms.
Qed.

(** X26.  The program only ever connects to an instance that was listed
    for the selected project.  Whatever the terminal sends and however
    the loads are answered, [main] does not panic, and when it hands the
    process over it is to [gcloud compute ssh] with the name and the last
    part of the zone of one of the records last delivered, which were
    delivered in answer to the load of the project given as [--project]. *)
Theorem main_connects_to_a_listed_instance (projectFlag : string) (events : list Event)
    (runErr : error) :
  main projectFlag events runErr ≠ Panics ∧
  ∀ printed path args,
    main projectFlag events runErr = Replaced printed path args →
    ∃ project vm vms zoneName,
      rt_listing (program projectFlag events) = Some (project, vms) ∧ vm ∈ vms ∧
      last (strings.Split (VMZone vm) "/") = Some zoneName ∧
      args = ["gcloud"; "compute"; "ssh"; VMName vm; "--project"; project;
              "--zone"; zoneName].
Proof.
  unfold main. destruct (exec_LookPath "gcloud") as [gcloudPath|e] eqn:Hpath; [|by split].
  destruct runErr as [e|]; [by split|].
  set (m := rt_model (program projectFlag events)).
  unfold handleSSHConnection. case_bool_decide as Hs; simpl; [|by split].
  destruct (quitting m); simpl; [by split|].
  destruct (program_ready projectFlag events Hs) as (vm & vms & Hl & Hsel & Hin).
  fold m in Hl, Hsel. rewrite Hsel.
  destruct (Split_slash_last (VMZone vm)) as (zoneName & Hlast & _).
  rewrite (ConnectSSH_last _ _ _ _ Hlast), Hpath.
  destruct (syscall_Exec _ _) as [e|]; [by split|]. split; [done|].
  intros printed path args [= <- <- <-]. by exists (selectedProject m), vm, vms, zoneName.
Qed.

End Listing.

Lemma main_connects_to_a_listed_instance_witness :
  ∃ vm, vm ∈ scenario ∧
        main "demo" [Answer 0 (VMsLoadedMsg scenario); Input (KeyMsg "down");
                     Input (KeyMsg "enter")] None
        = Replaced ("Connecting to db-1 in project demo..." +:+ LF) "/usr/bin/gcloud"
            ["gcloud"; "compute"; "ssh"; VMName vm; "--project"; "demo"; "--zone"; "z"].
Proof.
  destruct (main_connects_to_a_listed_instance "demo"
              [Answer 0 (VMsLoadedMsg scenario); Input (KeyMsg "down");
               Input (KeyMsg "enter")] None) as [_ Hargs].
  destruct (Hargs ("Connecting to db-1 in project demo..." +:+ LF) "/usr/bin/gcloud"
              ["gcloud"; "compute"; "ssh"; "db-1"; "--project"; "demo"; "--zone"; "z"]
              eq_refl) as (project & vm & vms & zoneName & Hl & Hin & _ & Heq).
  injection Hl as _ <-. injection Heq as Hname _ _. exists vm. split; [exact Hin|].
  rewrite <-Hname. reflexivity.
Defined.

(** ** The display is up to date *)

Section Display.
Context `{GoStrings} `{Lipgloss} `{!Bubbles}.

Lemma cells_rowsOf (h : store) (p : loc) : cells h (rowsOf h p) = rowCells h (h !!! p).
Proof.
  unfold rowsOf, rowCells, cells. rewrite fmap_cons. f_equal. by case_bool_decide.
Qed.

Lemma cells_rows (h : store) (locs : list loc) :
  cells h (concat (rowsOf h <$> locs)) = cells h locs ≫= rowCells h.
Proof.
  induction locs as [|p locs IH]; [done|].
  rewrite fmap_cons, concat_cons, cells_app, cells_rowsOf, IH.
  change (cells h (p :: locs)) with (h !!! p :: cells h locs). by rewrite bind_cons.
Qed.

Lemma filterRule_extend (h ext : store) (query : string) (n : TreeNode) :
  Forall (λ c, c < length h) (Children n) →
  filterRule (h ++ ext) query n = filterRule h query n.
Proof. intros Hk. unfold filterRule. by rewrite matchingChildrenOf_extend. Qed.

Lemma omap_filterRule_extend (h ext : store) (query : string) (l : list TreeNode) :
  Forall (λ n, Forall (λ c, c < length h) (Children n)) l →
  omap (filterRule (h ++ ext) query) l = omap (filterRule h query) l.
Proof.
  induction 1 as [|n l Hn Hl IH]; [done|]. by rewrite !omap_cons, filterRule_extend, IH.
Qed.

(** What [updateVMList] displays. *)
Lemma updateVMList_viewOf (m : model) :
  closed (heap m) (nodes (treeManager m)) →
  cells (heap (updateVMList m)) (currentlyDisplayedNodes (updateVMList m)) =
  viewOf (heap (updateVMList m)) (nodes (treeManager m)) (filtering m) (filterText m).
Proof.
  intros Hc. rewrite updateVMList_displayed, updateVMList_heap. unfold viewOf.
  destruct (filtering m && bool_decide (filterText m ≠ "")) eqn:Hon.
  - apply andb_true_iff in Hon as [_ Hq%bool_decide_eq_true]. unfold GetNodes.
    destruct (Filter_spec (nodes (treeManager m)) (filterText m) (heap m) Hc Hq)
      as (ext & Hheap & Hcells & _).
    rewrite FlattenForDisplay_eq. simpl nodes. rewrite cells_rows.
    rewrite Hheap, Hcells. f_equal.
    rewrite cells_extend by (eapply Forall_impl; [exact Hc|]; by intros p [? _]).
    symmetry. by apply omap_filterRule_extend, closed_cells.
  - by rewrite FlattenForDisplay_eq, cells_rows.
Qed.

Lemma run_invariant_Update (P : model → Prop) :
  (∀ m msg, P m → P (Update m msg).1) → ∀ msgs m, P m → P (run m msgs).
Proof.
  intros Hstep msgs. induction msgs as [|msg msgs IH]; intros m Hm; [done|].
  apply IH. by apply Hstep.
Qed.

(** X27.  The display is always up to date.  In every state reached from
    [newModel] that is in [StateSelectingVM], the displayed nodes are, cell
    by cell, the flattened canonical tree or, in the filtering sub-mode
    with a query, the flattened result of the filter's rule on the
    canonical tree for the current query: no key leaves a stale list. *)
Theorem display_is_current (project : string) (msgs : list Msg) :
  let m := run (newModel project) msgs in
  state m = StateSelectingVM →
  cells (heap m) (currentlyDisplayedNodes m) =
  viewOf (heap m) (nodes (treeManager m)) (filtering m) (filterText m).
Proof.
  apply (run_invariant_Update
           (λ m, coherent m ∧
                 (state m = StateSelectingVM →
                  cells (heap m) (currentlyDisplayedNodes m) =
                  viewOf (heap m) (nodes (treeManager m)) (filtering m) (filterText m)))).
  - intros m msg [Hco Hview]. split; [by apply Update_coherent|].
    assert (closed (heap m) (nodes (treeManager m))) as Hc by apply Hco.
    assert (∀ f : model → model,
              (∀ x, heap (f x) = heap x ∧ treeManager (f x) = treeManager x) →
              cells (heap (updateVMList (f m))) (currentlyDisplayedNodes (updateVMList (f m)))
              = viewOf (heap (updateVMList (f m))) (nodes (treeManager (f m)))
                  (filtering (f m)) (filterText (f m))) as Hfresh.
    { intros f Hf. apply updateVMList_viewOf. by destruct (Hf m) as [-> ->]. }
    destruct (Update_transition m msg) as
      [ | | | | | |VMs tm h Hb| | | | | |keypress t h Hs _ _ Hh| ];
      rewrite ?updateVMList_state, ?updateVMList_treeManager, ?updateVMList_filtering,
        ?updateVMList_filterText; try done; try (simpl; congruence); intros _.
    + apply (updateVMList_viewOf
               (set_heap h (set_treeManager tm
                  (set_filterText "" (set_filtering false (set_state StateSelectingVM m)))))).
      simpl. pose proof (BuildFromVMs_closed VMs (treeManager m) (heap m)) as Hcl.
      by rewrite Hb in Hcl.
    + by apply (Hfresh (λ x, set_filterText "" (set_filtering on x))).
    + by apply (Hfresh (λ x, set_filterText (strings.dropLast (filterText m)) x)).
    + by apply (Hfresh (λ x, set_filterText (filterText m +:+ String c "") x)).
    + apply (updateVMList_viewOf (set_heap h m)). simpl.
      destruct Hh as [->|(p & _ & _ & ->)]; [done|by apply closed_flipExpanded].
  - split; [apply newModel_coherent|]. unfold newModel. by case_decide.
Qed.

End Display.

Lemma display_is_current_witness :
  let m := run (newModel "demo") [VMsLoadedMsg scenario; KeyMsg "/"; KeyMsg "w"] in
  state m = StateSelectingVM ∧ filterText m = "w" ∧
  cells (heap m) (currentlyDisplayedNodes m) =
  viewOf (heap m) (nodes (treeManager m)) (filtering m) (filterText m).
Proof.
  split; [reflexivity|]. split; [reflexivity|].
  apply (display_is_current "demo" [VMsLoadedMsg scenario; KeyMsg "/"; KeyMsg "w"]).
  reflexivity.
Defined.
